(** * Swaggeditor: the document synchronisation and mutation core

    A shallow embedding of the editing core of the application:
    - [src/App.tsx]: [parseSpec], the serialising effect guarded by
      [isUpdatingFromView], the debounce timer, and the handlers
      [handleSpecUpdate], [handleAddItem], [handleRemoveItemByPath],
      [handleRenameKey] and [handleToggleRequired];
    - [components/utils.ts]: [resolveRef] and [schemaPathFromRef], and
      beside them, in [Spec], the resolver as the specification words it;
    - [src/components/PathItem.tsx]: the [$ref] handling of [SchemaView],
      its handlers [addParameter], [handleTypeChange] and
      [handleNullableChange] with [getCurrentTypeValue], the handlers of
      [EnumEditor], and the method tabs of [PathItem];
    - [src/components/Operation.tsx]: the handlers of [ExamplesEditor].

    Modelling conventions.
    - A document is a tree of JavaScript values as [JSON.parse] and
      [yaml.load] build them.  Objects are represented by their own
      enumerable string-keyed properties, in the order [Object.keys]
      lists them; arrays by their elements.  The members that an object
      inherits have no value in the model: [Object_prototype_members]
      lists their names, a handler that would read or store one has the
      outcome [Unmodelled], and a statement about reading a key says where
      it needs the key to name none of them.  Sharing of one node between
      two locations of a document (a YAML alias) is not part of the model:
      the statements are about documents that are trees.  Numbers are
      integers: fractions play no role in addressing.  Strings are sequences
      of one-byte characters.  A list of properties
      that repeats a key stands for no object; the operations are total on
      such lists all the same.
    - In-place mutation of the deep copy made by a handler becomes a
      functional update of the tree at the location that was read.
    - Library and host functions whose text is not part of the repository
      ([JSON.parse], [yaml.load], [JSON.stringify], [yaml.dump], [Number] on
      strings) are fields of an environment record [Env]; the functions of
      lodash that the handlers call ([get], [set], [cloneDeep]) are written
      out on the value model.
    - A JavaScript exception is the outcome [Throw], labelled with the
      operation that fails (the wording of the engine is not modelled);
      [Unmodelled] marks what the value model cannot hold: a named property
      written on an array, an array pushed into itself, an inherited member
      read or the prototype assigned. *)

From Stdlib Require Import List String Ascii ZArith NArith Lia Bool.
From Stdlib Require Import DecimalString DecimalN.
Import ListNotations.
Open Scope string_scope.

(** ** Outcomes of fallible code *)

Inductive outcome (A : Type) : Type :=
| Ok (a : A)
| Throw (message : string)
| Unmodelled.
Arguments Ok {A} a.
Arguments Throw {A} message.
Arguments Unmodelled {A}.

Definition bind {A B : Type} (m : outcome A) (k : A -> outcome B) : outcome B :=
  match m with
  | Ok a => k a
  | Throw e => Throw e
  | Unmodelled => Unmodelled
  end.

Notation "x <- m ;; k" := (bind m (fun x => k))
  (at level 61, m at next level, right associativity).

(** ** JavaScript values *)

Module JS.

Unset Elimination Schemes.
Inductive value : Type :=
| VUndef
| VNull
| VBool (b : bool)
| VNum (n : Z)
| VStr (s : string)
| VArr (elems : list value)
| VObj (props : list (string * value)).
Set Elimination Schemes.

(** Property keys are strings; a numeric path step is converted by [toKey]. *)
Definition key_of_N (n : N) : string := NilEmpty.string_of_uint (N.to_uint n).

(** The canonical decimal numerals: ["0"], ["7"], ["42"], but not ["007"],
    [""] or ["+1"]. *)
Definition canonical_N (k : string) : option N :=
  match NilEmpty.uint_of_string k with
  | Some u =>
      let n := N.of_uint u in
      if String.eqb (key_of_N n) k then Some n else None
  | None => None
  end.

(** An array index is a canonical numeral below [2^32 - 1]. *)
Definition array_index (k : string) : option N :=
  match canonical_N k with
  | Some n => if (n <? 4294967295)%N then Some n else None
  | None => None
  end.

(** [!v] is [negb (truthy v)]. *)
Definition truthy (v : value) : bool :=
  match v with
  | VUndef | VNull => false
  | VBool b => b
  | VNum n => negb (n =? 0)%Z
  | VStr s => negb (String.eqb s "")
  | VArr _ | VObj _ => true
  end.

(** [v === undefined]. *)
Definition is_undefined (v : value) : bool :=
  match v with
  | VUndef => true
  | _ => false
  end.

(** [v == null]. *)
Definition nullish (v : value) : bool :=
  match v with
  | VUndef | VNull => true
  | _ => false
  end.

Definition isArray (v : value) : bool :=
  match v with
  | VArr _ => true
  | _ => false
  end.

(** [typeof v === 'object' && v !== null]; lodash's [isObject] agrees with it
    on this value model. *)
Definition is_object (v : value) : bool :=
  match v with
  | VArr _ | VObj _ => true
  | _ => false
  end.

(** *** Own properties of a plain object *)

Fixpoint own_get (ps : list (string * value)) (k : string) : option value :=
  match ps with
  | [] => None
  | (k', v) :: rest => if String.eqb k' k then Some v else own_get rest k
  end.

Definition has_own (ps : list (string * value)) (k : string) : bool :=
  match own_get ps k with
  | Some _ => true
  | None => false
  end.

Fixpoint own_replace (ps : list (string * value)) (k : string) (v : value)
  : list (string * value) :=
  match ps with
  | [] => []
  | (k', v') :: rest =>
      if String.eqb k' k then (k', v) :: rest
      else (k', v') :: own_replace rest k v
  end.

(** A fresh integer-like key goes before the first key that is not an array
    index or is a larger one; any other fresh key goes last. *)
Fixpoint own_insert_index (ps : list (string * value)) (n : N) (k : string)
  (v : value) : list (string * value) :=
  match ps with
  | [] => [(k, v)]
  | (k', v') :: rest =>
      match array_index k' with
      | Some n' =>
          if (n' <? n)%N then (k', v') :: own_insert_index rest n k v
          else (k, v) :: ps
      | None => (k, v) :: ps
      end
  end.

(** [o[k] = v] on a plain object. *)
Definition own_set (ps : list (string * value)) (k : string) (v : value)
  : list (string * value) :=
  if has_own ps k then own_replace ps k v
  else match array_index k with
       | Some n => own_insert_index ps n k v
       | None => (ps ++ [(k, v)])%list
       end.

(** [delete o[k]] on a plain object. *)
Fixpoint own_delete (ps : list (string * value)) (k : string)
  : list (string * value) :=
  match ps with
  | [] => []
  | (k', v) :: rest =>
      if String.eqb k' k then own_delete rest k
      else (k', v) :: own_delete rest k
  end.

(** *** Arrays *)

Definition length_of (xs : list value) : value := VNum (Z.of_nat (List.length xs)).

Fixpoint remove_nth (i : nat) (xs : list value) : list value :=
  match xs, i with
  | [], _ => []
  | _ :: rest, O => rest
  | x :: rest, S i' => x :: remove_nth i' rest
  end.

Fixpoint replace_nth (i : nat) (x : value) (xs : list value) : list value :=
  match xs, i with
  | [], _ => []
  | _ :: rest, O => x :: rest
  | y :: rest, S i' => y :: replace_nth i' x rest
  end.

(** [a[i] = x] for an array index [i]: a write past the end extends the array,
    the skipped positions reading as [undefined]. *)
Definition array_write (xs : list value) (i : nat) (x : value) : list value :=
  if Nat.ltb i (List.length xs) then replace_nth i x xs
  else (xs ++ repeat VUndef (i - List.length xs) ++ [x])%list.

(** The argument of [splice] after [ToIntegerOrInfinity]. *)
Inductive integer_or_infinity : Type :=
| NegInf
| Fin (z : Z)
| PosInf.

(** [a.splice(start, 1)]: the position actually used. *)
Definition splice_position (len : nat) (start : integer_or_infinity) : nat :=
  match start with
  | NegInf => 0
  | Fin z =>
      if (z <? 0)%Z then Z.to_nat (Z.max (Z.of_nat len + z) 0)
      else Nat.min (Z.to_nat z) len
  | PosInf => len
  end.

(** [a.indexOf(k)] for a string [k]: the first position holding that
    string. *)
Fixpoint indexOf (xs : list value) (k : string) : option nat :=
  match xs with
  | [] => None
  | x :: rest =>
      match x with
      | VStr s =>
          if String.eqb s k then Some 0
          else option_map S (indexOf rest k)
      | _ => option_map S (indexOf rest k)
      end
  end.

(** [a.splice(start, 1)]: at most one element goes, none when the position is
    the length. *)
Definition splice1 (xs : list value) (start : integer_or_infinity) : list value :=
  remove_nth (splice_position (List.length xs) start) xs.

(** *** Reading a property: [o[k]] for a value that is not [null] or
    [undefined] *)

(** The members that every object, array and wrapped scalar inherits from
    [Object.prototype].  A key of this list that a value does not have as
    its own reads, in the code, that member: a function or, for [__proto__],
    the prototype.  Such a member is not a value of a document. *)
Definition Object_prototype_members : list string :=
  [ "constructor"; "hasOwnProperty"; "isPrototypeOf"; "propertyIsEnumerable";
    "toLocaleString"; "toString"; "valueOf"; "__proto__";
    "__defineGetter__"; "__defineSetter__"; "__lookupGetter__";
    "__lookupSetter__" ].

Definition inherited_name (k : string) : bool :=
  existsb (String.eqb k) Object_prototype_members.

Definition char_at (s : string) (i : nat) : value :=
  match String.get i s with
  | Some c => VStr (String c EmptyString)
  | None => VUndef
  end.

(** [prop o k] is the own property [k] of [o]: a key of an object, an
    element or the length of an array, a character or the length of a
    string; [undefined] otherwise.  It is [o[k]] wherever [k] does not name a
    member that [o] inherits: on a plain object, for every key outside
    [Object_prototype_members] (and for every own key); an array and a
    string inherit further members, the methods of their prototypes.  The
    statements that read a key which the document's text or the user
    chooses exclude the inherited names. *)
Definition prop (o : value) (k : string) : value :=
  match o with
  | VObj ps =>
      match own_get ps k with
      | Some v => v
      | None => VUndef
      end
  | VArr xs =>
      if String.eqb k "length" then length_of xs
      else match canonical_N k with
           | Some i => nth (N.to_nat i) xs VUndef
           | None => VUndef
           end
  | VStr s =>
      if String.eqb k "length" then VNum (Z.of_nat (String.length s))
      else match canonical_N k with
           | Some i => char_at s (N.to_nat i)
           | None => VUndef
           end
  | _ => VUndef
  end.

(** [o[k] = v] on a plain object stores the property [k], unless [k] is
    [__proto__] and the object has no own property of that name: the
    assignment then reaches the setter the object inherits, which changes
    the prototype or does nothing. *)
Definition stores (ps : list (string * value)) (k : string) : bool :=
  negb (String.eqb k "__proto__") || has_own ps k.

(** [o[k] = v] for an object or an array; on an array only an index can be
    written in this model.  The callers pass an object a key for which
    [stores] holds: a literal key, or a key that [set] has let through. *)
Definition assign (o : value) (k : string) (v : value) : outcome value :=
  match o with
  | VObj ps => Ok (VObj (own_set ps k v))
  | VArr xs =>
      match array_index k with
      | Some i => Ok (VArr (array_write xs (N.to_nat i) v))
      | None => Unmodelled
      end
  | _ => Throw "TypeError: cannot create a property on a value that is not an object"
  end.

(** The functional counterpart of mutating, in place, the object that
    [o[k]] refers to. *)
Fixpoint own_update (ps : list (string * value)) (k : string)
  (f : value -> value) : list (string * value) :=
  match ps with
  | [] => []
  | (k', v) :: rest =>
      if String.eqb k' k then (k', f v) :: rest
      else (k', v) :: own_update rest k f
  end.

Fixpoint nth_update (i : nat) (f : value -> value) (xs : list value)
  : list value :=
  match xs, i with
  | [], _ => []
  | x :: rest, O => f x :: rest
  | x :: rest, S i' => x :: nth_update i' f rest
  end.

Definition update_prop (o : value) (k : string) (f : value -> value) : value :=
  match o with
  | VObj ps => VObj (own_update ps k f)
  | VArr xs =>
      match canonical_N k with
      | Some i => VArr (nth_update (N.to_nat i) f xs)
      | None => o
      end
  | _ => o
  end.

(** *** Paths *)

(** [Path = (string | number)[]]; a number on a path is a position in an
    array, far below [2^53], where its decimal numeral is the property key. *)
Inductive step : Type :=
| SKey (s : string)
| SIdx (n : N).

Definition Path : Type := list step.

Definition toKey (s : step) : string :=
  match s with
  | SKey k => k
  | SIdx n => key_of_N n
  end.

End JS.

(** ** The functions of lodash the handlers call *)

Module Lodash.
Import JS.

(** [baseGet]'s loop: [while (object != null && index < length)
    object = object[toKey(path[index++])]]. *)
Fixpoint get_in (object : value) (keys : list string) : value :=
  match keys with
  | [] => object
  | k :: rest => if nullish object then VUndef else get_in (prop object k) rest
  end.

(** [get(object, path)]: [baseGet] ends with
    [(index && index == length) ? object : undefined], so the empty path reads
    [undefined]. *)
Definition get (object : value) (path : Path) : value :=
  match path with
  | [] => VUndef
  | _ => get_in object (map toKey path)
  end.

(** [get(object, path, defaultValue)]. *)
Definition get_or (object : value) (path : Path) (defaultValue : value) : value :=
  match get object path with
  | VUndef => defaultValue
  | v => v
  end.

(** [isIndex]: a canonical numeral below [MAX_SAFE_INTEGER]. *)
Definition isIndex (k : string) : bool :=
  match canonical_N k with
  | Some n => (n <? 9007199254740991)%N
  | None => false
  end.

Definition unsafe_key (k : string) : bool :=
  String.eqb k "__proto__" || String.eqb k "constructor" || String.eqb k "prototype".

(** [baseSet]'s loop.  A step that is not the last keeps the object found
    there, or makes a container for the next step: an array when that step is
    an index, otherwise an object. *)
Fixpoint set_in (nested : value) (keys : list string) (v : value) : outcome value :=
  match keys with
  | [] => Ok nested
  | key :: rest =>
      if unsafe_key key then Ok nested
      else match rest with
           | [] => assign nested key v
           | next :: _ =>
               let objValue := prop nested key in
               let newValue :=
                 if is_object objValue then objValue
                 else if isIndex next then VArr [] else VObj [] in
               child <- set_in newValue rest v ;;
               assign nested key child
           end
  end.

(** [set(object, path, value)]. *)
Definition set (object : value) (path : Path) (v : value) : outcome value :=
  if is_object object then set_in object (map toKey path) v else Ok object.

(** [cloneDeep]: a fresh tree with the same shape and leaves. *)
Fixpoint cloneDeep (v : value) : value :=
  match v with
  | VArr xs => VArr (map cloneDeep xs)
  | VObj ps => VObj (map (fun kv => (fst kv, cloneDeep (snd kv))) ps)
  | _ => v
  end.

(** The walks of [get] that read locations of the document and nothing
    else: every step is taken on a mapping, with a key that the mapping has
    or that names no inherited member, or on a sequence, with an index; the
    walk may end early, at [null] or [undefined].  Property access reads
    more: the length of a sequence or of a string, the characters of a
    string, the members of the prototypes. *)
Fixpoint reads_locations (object : value) (keys : list string) : bool :=
  match keys with
  | [] => true
  | k :: rest =>
      match object with
      | VUndef | VNull => true
      | VObj ps =>
          match own_get ps k with
          | Some child => reads_locations child rest
          | None => negb (inherited_name k)
          end
      | VArr xs =>
          match array_index k with
          | Some i => reads_locations (nth (N.to_nat i) xs VUndef) rest
          | None => false
          end
      | _ => false
      end
  end.

End Lodash.

(** ** [components/utils.ts] *)

Module Utils.
Import JS.

(** [s.split(sep)] for a one-character separator. *)
Fixpoint split (sep : ascii) (s : string) : list string :=
  match s with
  | EmptyString => [EmptyString]
  | String c rest =>
      if Ascii.eqb c sep then EmptyString :: split sep rest
      else match split sep rest with
           | h :: t => String c h :: t
           | [] => [String c EmptyString]
           end
  end.

(** [s.substring(n)]. *)
Fixpoint substring_from (n : nat) (s : string) : string :=
  match n, s with
  | O, _ => s
  | S n', String _ rest => substring_from n' rest
  | S _, EmptyString => EmptyString
  end.

Definition startsWith (s prefix : string) : bool := String.prefix prefix s.

(** [segments.join(sep)] and [s.includes(c)], to say what [split] returns. *)
Fixpoint join (sep : ascii) (segments : list string) : string :=
  match segments with
  | [] => EmptyString
  | [s] => s
  | s :: rest => (s ++ String sep (join sep rest))%string
  end.

Fixpoint contains (c : ascii) (s : string) : bool :=
  match s with
  | EmptyString => false
  | String c' rest => Ascii.eqb c' c || contains c rest
  end.

(** The steps of a reference: [ref.substring(2).split('/')]. *)
Definition ref_steps (ref : string) : Path :=
  map SKey (split "/"%char (substring_from 2 ref)).

(** [resolveRef(spec, ref)]. *)
Definition resolveRef (spec : value) (ref : string) : value :=
  if negb (startsWith ref "#/") then VNull
  else Lodash.get_or spec (ref_steps ref) VNull.

(** [schemaPathFromRef(ref)]. *)
Definition schemaPathFromRef (ref : string) : Path :=
  if negb (startsWith ref "#/") then [] else ref_steps ref.

End Utils.

(** ** The reference resolver in the words of the specification *)

(** Sections 3, 4.1 and 4.2 of the specification: a reference names a path
    from the root; a step of a path is a key of a mapping or an index of a
    sequence; [resolve(doc, ref)] is the node at that location, or
    [NotFound].  These definitions follow those words, not the code; the
    resolver of the code is [Utils.resolveRef]. *)
Module Spec.
Import JS.

(** One step from a node: the value under a key of a mapping, the element
    at an index of a sequence.  A scalar has no location below it. *)
Definition child (node : value) (step : string) : option value :=
  match node with
  | VObj ps => own_get ps step
  | VArr xs =>
      match array_index step with
      | Some i => nth_error xs (N.to_nat i)
      | None => None
      end
  | _ => None
  end.

Fixpoint locate (node : value) (steps : list string) : option value :=
  match steps with
  | [] => Some node
  | step :: rest =>
      match child node step with
      | Some c => locate c rest
      | None => None
      end
  end.

(** [resolve(doc, ref) -> node | NotFound], [NotFound] being [None]. *)
Definition resolve (doc : value) (ref : string) : option value :=
  if Utils.startsWith ref "#/"
  then locate doc (Utils.split "/"%char (Utils.substring_from 2 ref))
  else None.

End Spec.

(** ** [src/App.tsx] *)

Module App.
Import JS.

(** *** The host and library functions [App] calls *)

(** What [yaml.load] does on a text: a value, or an exception with its
    [message]. *)
Inductive loaded : Type :=
| Loaded (v : value)
| LoadError (message : string).

Record Env : Type := {
  (** [JSON.parse]; [None] when it throws. *)
  JSON_parse : string -> option value;
  yaml_load : string -> loaded;
  (** [JSON.stringify(v, null, 2)] and [yaml.dump]; [None] when they throw. *)
  JSON_stringify : value -> option string;
  yaml_dump : value -> option string;
  (** [Number(s)] for a string [s], as [splice] reads it (after
      [ToIntegerOrInfinity]). *)
  Number_of_string : string -> integer_or_infinity
}.

(** *** State of the component *)

Inductive SpecFormat : Type := json | yaml.

Record State : Type := {
  specString : string;
  parsedSpec : value;
  parseError : option string;
  specFormat : SpecFormat;
  isUpdatingFromView : bool
}.

Definition setSpecString (t : string) (s : State) : State :=
  {| specString := t; parsedSpec := parsedSpec s; parseError := parseError s;
     specFormat := specFormat s; isUpdatingFromView := isUpdatingFromView s |}.

Definition setParsedSpec (v : value) (s : State) : State :=
  {| specString := specString s; parsedSpec := v; parseError := parseError s;
     specFormat := specFormat s; isUpdatingFromView := isUpdatingFromView s |}.

Definition setParseError (e : option string) (s : State) : State :=
  {| specString := specString s; parsedSpec := parsedSpec s; parseError := e;
     specFormat := specFormat s; isUpdatingFromView := isUpdatingFromView s |}.

Definition setSpecFormat (f : SpecFormat) (s : State) : State :=
  {| specString := specString s; parsedSpec := parsedSpec s;
     parseError := parseError s; specFormat := f;
     isUpdatingFromView := isUpdatingFromView s |}.

Definition set_isUpdatingFromView (b : bool) (s : State) : State :=
  {| specString := specString s; parsedSpec := parsedSpec s;
     parseError := parseError s; specFormat := specFormat s;
     isUpdatingFromView := b |}.

(** *** [parseSpec] *)

Definition object_root_message : string :=
  "Invalid YAML: content must be an object.".

Definition fallback_message : string := "Invalid YAML or JSON format.".

(** The inner [try]: [yaml.load] and the test on what it returns. *)
Definition load_object (env : Env) (currentSpec : string) : loaded :=
  match yaml_load env currentSpec with
  | Loaded yamlParsed =>
      if negb (is_object yamlParsed) then LoadError object_root_message
      else Loaded yamlParsed
  | LoadError m => LoadError m
  end.

(** [m || 'Invalid YAML or JSON format.'] *)
Definition message_or_fallback (m : string) : string :=
  if String.eqb m "" then fallback_message else m.

(** The body of [parseSpec] below the test of the flag. *)
Definition parse_text (env : Env) (currentSpec : string) (s : State) : State :=
  match JSON_parse env currentSpec with
  | Some jsonParsed =>
      setSpecFormat json (setParseError None (setParsedSpec jsonParsed s))
  | None =>
      match load_object env currentSpec with
      | Loaded yamlParsed =>
          setSpecFormat yaml (setParseError None (setParsedSpec yamlParsed s))
      | LoadError m =>
          setParseError (Some (message_or_fallback m)) (setParsedSpec VNull s)
      end
  end.

Definition parseSpec (env : Env) (currentSpec : string) (s : State) : State :=
  if isUpdatingFromView s then set_isUpdatingFromView false s
  else parse_text env currentSpec s.

(** *** The effect on [[parsedSpec, specFormat]] *)

Definition serialize (env : Env) (s : State) : option string :=
  match specFormat s with
  | yaml => yaml_dump env (parsedSpec s)
  | json => JSON_stringify env (parsedSpec s)
  end.

Definition serialize_effect (env : Env) (s : State) : State :=
  if negb (truthy (parsedSpec s)) then s
  else
    let s1 := set_isUpdatingFromView true s in
    match serialize env s with
    | Some newString => setSpecString newString s1
    | None => s1
    end.

(** *** Steps of the component *)

(** What can happen, one at a time, on the single thread: the text is set
    (typing, a file, the sample), the debounced [parseSpec] fires on the
    current text, a handler replaces the document, the serialising effect
    runs. *)
Inductive event : Type :=
| TextSet (t : string)
| ParseFires
| DocSet (v : value)
| EffectRuns.

Definition transition (env : Env) (s : State) (e : event) : State :=
  match e with
  | TextSet t => setSpecString t s
  | ParseFires => parseSpec env (specString s) s
  | DocSet v => setParsedSpec v s
  | EffectRuns => serialize_effect env s
  end.

Definition run (env : Env) (s : State) (es : list event) : State :=
  fold_left (transition env) es s.

Definition is_EffectRuns (e : event) : bool :=
  match e with
  | EffectRuns => true
  | _ => false
  end.

Definition is_ParseFires (e : event) : bool :=
  match e with
  | ParseFires => true
  | _ => false
  end.

(** *** The handlers: the function each one passes to [setParsedSpec] *)

(** The functional counterpart of changing, in place, the object that
    [get(newSpec, path)] returned.  It changes the one location [keys] of
    the tree.  In the code the object changed may be reachable along other
    paths as well (a YAML alias, an item that [handleAddItem] pushed twice),
    and [cloneDeep] keeps that sharing: the change then shows along each of
    them.  The model is that of documents without such sharing, as
    [JSON.parse] builds them. *)
Fixpoint modify_at (keys : list string) (f : value -> value) (o : value) : value :=
  match keys with
  | [] => f o
  | k :: rest => update_prop o k (modify_at rest f)
  end.

(** [Object.keys(item)[0]] as a property key, and [Object.values(item)[0]]. *)
Definition first_entry (item : value) : outcome (string * value) :=
  match item with
  | VObj ((k, v) :: _) => Ok (k, v)
  | VArr (x :: _) => Ok ("0", x)
  | VStr (String c _) => Ok ("0", VStr (String c EmptyString))
  | VUndef | VNull =>
      Throw "TypeError: Cannot convert undefined or null to object"
  | _ => Ok ("undefined", VUndef)
  end.

(** [handleAddItem].  When the location is created from an [item] that is
    itself an array, the array is then pushed into itself: [Unmodelled].  So
    is [collection[key] = value] for the key [__proto__] on a mapping that
    has no such property: it does not store the pair. *)
Definition handleAddItem (path : Path) (item : value) (currentSpec : value)
  : outcome value :=
  if negb (truthy currentSpec) then Ok VNull
  else
    let newSpec := Lodash.cloneDeep currentSpec in
    let absent := is_undefined (Lodash.get newSpec path) in
    newSpec1 <- (if absent
                 then Lodash.set newSpec path (if isArray item then item else VArr [item])
                 else Ok newSpec) ;;
    let collection := Lodash.get newSpec1 path in
    match collection with
    | VArr xs =>
        if absent && isArray item then Unmodelled
        else Ok (modify_at (map toKey path) (fun _ => VArr (xs ++ [item])%list) newSpec1)
    | VObj ps =>
        kv <- first_entry item ;;
        if stores ps (fst kv)
        then Ok (modify_at (map toKey path)
                   (fun _ => VObj (own_set ps (fst kv) (snd kv))) newSpec1)
        else Unmodelled
    | _ => Ok newSpec1
    end.

(** [Number(itemKey)] as [splice] reads it. *)
Definition Number_of_step (env : Env) (itemKey : step) : integer_or_infinity :=
  match itemKey with
  | SIdx n => Fin (Z.of_N n)
  | SKey s => Number_of_string env s
  end.

(** [handleRemoveItemByPath]: [parentPath] is [path.slice(0, -1)], [itemKey]
    is [path.slice(-1)[0]]. *)
Definition handleRemoveItemByPath (env : Env) (path : Path) (currentSpec : value)
  : value :=
  if negb (truthy currentSpec) then VNull
  else
    let newSpec := Lodash.cloneDeep currentSpec in
    let parentPath := removelast path in
    match Lodash.get newSpec parentPath, last (map Some path) None with
    | VArr xs, Some itemKey =>
        modify_at (map toKey parentPath)
          (fun _ => VArr (splice1 xs (Number_of_step env itemKey))) newSpec
    | VObj ps, Some itemKey =>
        modify_at (map toKey parentPath)
          (fun _ => VObj (own_delete ps (toKey itemKey))) newSpec
    | _, _ => newSpec
    end.

Definition not_a_function (what : string) : string :=
  "TypeError: " ++ what ++ " is not a function".

(** [if (makeRequired && keyIndex === -1) requiredArray.push(propertyKey);
    else if (!makeRequired && keyIndex > -1) requiredArray.splice(keyIndex, 1)]
    on an array. *)
Definition push_or_splice (requiredArray : list value) (propertyKey : string)
  (makeRequired : bool) : list value :=
  match indexOf requiredArray propertyKey with
  | None => if makeRequired then (requiredArray ++ [VStr propertyKey])%list
            else requiredArray
  | Some keyIndex => if makeRequired then requiredArray
                     else remove_nth keyIndex requiredArray
  end.

(** The body of [if (schema && typeof schema === 'object')] in
    [handleToggleRequired], on a plain object [schema]. *)
Definition toggle_required (ps : list (string * value)) (propertyKey : string)
  (makeRequired : bool) : outcome value :=
  let ps1 :=
    if negb (truthy (prop (VObj ps) "required"))
    then own_set ps "required" (VArr []) else ps in
  match prop (VObj ps1) "required" with
  | VArr requiredArray =>
      match push_or_splice requiredArray propertyKey makeRequired with
      | [] => Ok (VObj (own_delete ps1 "required"))
      | requiredArray1 =>
          Ok (VObj (own_update ps1 "required" (fun _ => VArr requiredArray1)))
      end
  | VStr s =>
      match String.index 0 propertyKey s with
      | None => if makeRequired then Throw (not_a_function "requiredArray.push")
                else Ok (VObj ps1)
      | Some _ => if makeRequired then Ok (VObj ps1)
                  else Throw (not_a_function "requiredArray.splice")
      end
  | _ => Throw (not_a_function "requiredArray.indexOf")
  end.

(** [handleToggleRequired].  On an array [schema] the property [required]
    is made, and deleted again when nothing was pushed. *)
Definition handleToggleRequired (schemaPath : Path) (propertyKey : string)
  (makeRequired : bool) (currentSpec : value) : outcome value :=
  if negb (truthy currentSpec) then Ok VNull
  else
    let newSpec := Lodash.cloneDeep currentSpec in
    match Lodash.get newSpec schemaPath with
    | VObj ps =>
        schema1 <- toggle_required ps propertyKey makeRequired ;;
        Ok (modify_at (map toKey schemaPath) (fun _ => schema1) newSpec)
    | VArr _ => if makeRequired then Unmodelled else Ok newSpec
    | _ => Ok newSpec
    end.

(** *** The other two handlers *)

(** [handleSpecUpdate]: [set(newSpec, path, value)] on the copy. *)
Definition handleSpecUpdate (path : Path) (v : value) (currentSpec : value)
  : outcome value :=
  if negb (truthy currentSpec) then Ok VNull
  else Lodash.set (Lodash.cloneDeep currentSpec) path v.

(** [oldKey in xs] for an array: an element or the length. *)
Definition in_array (xs : list value) (k : string) : bool :=
  String.eqb k "length" ||
  match canonical_N k with
  | Some i => Nat.ltb (N.to_nat i) (List.length xs)
  | None => false
  end.

(** [handleRenameKey]: [None] when [oldKey === newKey], where the handler
    returns before [setParsedSpec]; otherwise what the function passed to
    [setParsedSpec] returns.  On a plain object that has the old key the
    value is read, the old key deleted and the new key assigned, in this
    order.  [oldKey in obj] also holds for a member that [obj] inherits: the
    handler then stores that member, which is no value of a document, under
    the new key ([Unmodelled]); on an array the inherited names are those of
    the methods of arrays as well, a list that depends on the edition of the
    language, so that every name that is not an element or the length is
    [Unmodelled] there.  Renaming an element of an array would leave a hole
    in it ([Unmodelled]); its length cannot be deleted. *)
Definition handleRenameKey (path : Path) (oldKey newKey : string)
  (currentSpec : value) : option (outcome value) :=
  if String.eqb oldKey newKey then None
  else Some
    (if negb (truthy currentSpec) then Ok VNull
     else
       let newSpec := Lodash.cloneDeep currentSpec in
       match Lodash.get newSpec path with
       | VObj ps =>
           match own_get ps oldKey with
           | Some val =>
               if stores (own_delete ps oldKey) newKey
               then Ok (modify_at (map toKey path)
                          (fun _ =>
                             VObj (own_set (own_delete ps oldKey) newKey val))
                          newSpec)
               else Unmodelled
           | None => if inherited_name oldKey then Unmodelled else Ok newSpec
           end
       | VArr xs =>
           if String.eqb oldKey "length"
           then Throw "TypeError: Cannot delete property 'length'"
           else match canonical_N oldKey with
                | Some _ => if in_array xs oldKey then Unmodelled else Ok newSpec
                | None => Unmodelled
                end
       | _ => Ok newSpec
       end).

(** *** The component with its effects and the debounce timer *)

(** [Object.is(old, new)] for a [new] that a parser or a handler has just
    made: a container is a new object, other values are compared. *)
Definition same_primitive (a b : value) : bool :=
  match a, b with
  | VUndef, VUndef | VNull, VNull => true
  | VBool x, VBool y => Bool.eqb x y
  | VNum x, VNum y => Z.eqb x y
  | VStr x, VStr y => String.eqb x y
  | _, _ => false
  end.

Definition Object_is_new (old new : value) : bool :=
  if is_object new then false else same_primitive old new.

Definition same_format (a b : SpecFormat) : bool :=
  match a, b with
  | json, json | yaml, yaml => true
  | _, _ => false
  end.

(** The state together with whether a call of the debounced [parseSpec] is
    scheduled. *)
Record Component : Type := {
  state : State;
  pending : bool
}.

(** The render after [parsedSpec] or [specFormat] was set: the effect on
    [[parsedSpec, specFormat]] runs when one of them changed; when it sets a
    different text, the effect on [[specString]] schedules the debounced
    [parseSpec]. *)
Definition after_document_change (env : Env) (changed : bool) (s : State)
  (was_pending : bool) : Component :=
  if changed then
    let s1 := serialize_effect env s in
    {| state := s1;
       pending := was_pending || negb (String.eqb (specString s1) (specString s)) |}
  else {| state := s; pending := was_pending |}.

(** The text area's [onChange], a loaded file, the sample: [setSpecString].
    A text equal to the current one changes no state. *)
Definition user_edit (t : string) (c : Component) : Component :=
  if String.eqb t (specString (state c)) then c
  else {| state := setSpecString t (state c); pending := true |}.

(** The debounce timer expires: [parseSpec] runs on the latest text. *)
Definition timer_fires (env : Env) (c : Component) : Component :=
  if negb (pending c) then c
  else
    let s := state c in
    if isUpdatingFromView s
    then {| state := set_isUpdatingFromView false s; pending := false |}
    else
      let s1 := parse_text env (specString s) s in
      let changed :=
        negb (Object_is_new (parsedSpec s) (parsedSpec s1))
        || negb (same_format (specFormat s) (specFormat s1)) in
      after_document_change env changed s1 false.

(** A handler's [setParsedSpec] with the document [v] it returns. *)
Definition form_edit (env : Env) (v : value) (c : Component) : Component :=
  let s := state c in
  after_document_change env (negb (Object_is_new (parsedSpec s) v))
    (setParsedSpec v s) (pending c).

(** The text [t] parses: as JSON, or as YAML after JSON has failed. *)
Definition parses_to (env : Env) (t : string) (v : value) (f : SpecFormat)
  : Prop :=
  match f with
  | json => JSON_parse env t = Some v
  | yaml => JSON_parse env t = None /\ yaml_load env t = Loaded v
  end.

(** The text that the effect computes for a document and a format. *)
Definition serialize_as (env : Env) (f : SpecFormat) (v : value) : option string :=
  match f with
  | yaml => yaml_dump env v
  | json => JSON_stringify env v
  end.

(** Whether two lists of keys part ways: at some position they hold
    different keys, the keys before being equal. *)
Fixpoint diverges (keys others : list string) : bool :=
  match keys, others with
  | k :: keys', k' :: others' =>
      if String.eqb k k' then diverges keys' others' else true
  | _, _ => false
  end.

Definition paths_diverge (p q : Path) : bool :=
  diverges (map toKey p) (map toKey q).

(** How often the string [k] occurs in an array. *)
Fixpoint occurrences (k : string) (xs : list value) : nat :=
  match xs with
  | [] => 0
  | VStr s :: rest => (if String.eqb s k then 1 else 0) + occurrences k rest
  | _ :: rest => occurrences k rest
  end.

(** The Required-set of the schema at [schemaPath]. *)
Definition required_set (schemaPath : Path) (doc : value) : value :=
  Lodash.get doc (schemaPath ++ [SKey "required"])%list.


(** *** What the components ask of the application *)

(** A call of one of the five handlers, which [App] hands down to the
    components as [onUpdate], [onAddItem], [onRemoveItem], [onRenameKey] and
    [onToggleRequired]. *)
Inductive request : Type :=
| onUpdate (path : Path) (v : value)
| onAddItem (path : Path) (item : value)
| onRemoveItem (path : Path)
| onRenameKey (path : Path) (oldKey newKey : string)
| onToggleRequired (schemaPath : Path) (propertyKey : string)
    (makeRequired : bool).

(** The document that [setParsedSpec] receives for the call; [None] when the
    handler returns without calling it. *)
Definition perform (env : Env) (r : request) (currentSpec : value)
  : option (outcome value) :=
  match r with
  | onUpdate path v => Some (handleSpecUpdate path v currentSpec)
  | onAddItem path item => Some (handleAddItem path item currentSpec)
  | onRemoveItem path => Some (Ok (handleRemoveItemByPath env path currentSpec))
  | onRenameKey path oldKey newKey => handleRenameKey path oldKey newKey currentSpec
  | onToggleRequired schemaPath propertyKey makeRequired =>
      Some (handleToggleRequired schemaPath propertyKey makeRequired currentSpec)
  end.

End App.

(** ** [src/components/PathItem.tsx]: [SchemaView] *)

Module PathItem.
Import JS.

(** What [SchemaView] renders, as far as references and nesting go.  The
    nodes keep the [path] that the form controls of the node edit. *)
Unset Elimination Schemes.
Inductive view : Type :=
| CircularReference (ref : string)
| InvalidReference (ref : string)
| ResolvedReference (ref : string) (inner : view)
| ObjectView (path : Path) (parameters : list (string * view))
| ArrayView (path : Path) (item : option view)
| PrimitiveView (path : Path)
| RenderThrows (message : string)
| OutOfFuel.
Set Elimination Schemes.

(** ['$ref' in o] for an object or an array [o]. *)
Definition has_ref (o : value) : bool :=
  match o with
  | VObj ps => has_own ps "$ref"
  | _ => false
  end.

(** [Object.entries(o)] for a value [o] that is not [null] or [undefined]. *)
Fixpoint indexed (i : N) (xs : list value) : list (string * value) :=
  match xs with
  | [] => []
  | x :: rest => (key_of_N i, x) :: indexed (N.succ i) rest
  end.

Fixpoint chars (s : string) : list value :=
  match s with
  | EmptyString => []
  | String c rest => VStr (String c EmptyString) :: chars rest
  end.

Definition entries (o : value) : list (string * value) :=
  match o with
  | VObj ps => ps
  | VArr xs => indexed 0 xs
  | VStr s => indexed 0 (chars s)
  | _ => []
  end.

(** [required.includes(key)] is a call that succeeds on an array and on a
    string; [required] is [[]] when the schema has none. *)
Definition includes_callable (required : value) : bool :=
  match required with
  | VUndef | VArr _ | VStr _ => true
  | _ => false
  end.

Definition in_operator_message : string :=
  "TypeError: Cannot use 'in' operator to search for '$ref'".

Definition startsWith_message : string :=
  "TypeError: ref.startsWith is not a function".

Definition includes_message : string :=
  "TypeError: required.includes is not a function".

(** The line [const itemSchema = items && '$ref' in items ?
    resolveRef(spec, items.$ref) : items], whose value is not used: [None]
    when it evaluates, the message when it throws. *)
Definition itemSchema_throws (items : value) : option string :=
  if negb (truthy items) then None
  else if negb (is_object items) then Some in_operator_message
  else if has_ref items then
    match prop items "$ref" with
    | VStr _ => None
    | _ => Some startsWith_message
    end
  else None.

Definition type_of_schema (schema : value) : value :=
  match prop schema "type" with
  | VUndef => VStr "object"
  | t => t
  end.

Definition type_is (t : value) (name : string) : bool :=
  match t with
  | VStr s => String.eqb s name
  | _ => false
  end.

Definition map_message : string :=
  "TypeError: (schema.enum || []).map is not a function".

(** The child [EnumEditor], rendered for a primitive schema where
    [schema.enum !== undefined]: unless the type is [boolean] it lists
    [(schema.enum || []).map(...)], a call that succeeds on an array only. *)
Definition EnumEditor_throws (schema : value) : bool :=
  negb (is_undefined (prop schema "enum"))
  && negb (type_is (prop schema "type") "boolean")
  && truthy (prop schema "enum")
  && match prop schema "enum" with
     | VArr _ => false
     | _ => true
     end.

(** [SchemaView], with [fuel] bounding the depth of nested views.  Of the
    children of a node the lines that can throw on a document are followed
    into [EnumEditor]; what [React] makes of a leaf that is no text (a
    description, an example or a default that is a mapping) is not
    modelled. *)
Fixpoint SchemaView (fuel : nat) (spec schema : value) (path : Path)
  (visitedRefs : list string) : view :=
  match fuel with
  | O => OutOfFuel
  | S fuel' =>
      if negb (is_object schema) then RenderThrows in_operator_message
      else if has_ref schema then
        match prop schema "$ref" with
        | VStr ref =>
            if existsb (String.eqb ref) visitedRefs then CircularReference ref
            else
              let resolvedSchema := Utils.resolveRef spec ref in
              if negb (truthy resolvedSchema) then InvalidReference ref
              else ResolvedReference ref
                     (SchemaView fuel' spec resolvedSchema
                        (Utils.schemaPathFromRef ref)
                        (visitedRefs ++ [ref])%list)
        | _ => RenderThrows startsWith_message
        end
      else
        let type := type_of_schema schema in
        if type_is type "object" then
          let properties := prop schema "properties" in
          let shown :=
            if truthy properties
            then filter (fun kv => truthy (snd kv)) (entries properties)
            else [] in
          match shown with
          | [] => ObjectView path []
          | _ =>
              if negb (includes_callable (prop schema "required"))
              then RenderThrows includes_message
              else ObjectView path
                     (map (fun kv =>
                             (fst kv,
                              SchemaView fuel' spec (snd kv)
                                (path ++ [SKey "properties"; SKey (fst kv)])%list
                                visitedRefs))
                          shown)
          end
        else if type_is type "array" then
          let items := prop schema "items" in
          match itemSchema_throws items with
          | Some message => RenderThrows message
          | None =>
              if truthy items
              then ArrayView path
                     (Some (SchemaView fuel' spec items
                              (path ++ [SKey "items"])%list visitedRefs))
              else ArrayView path None
          end
        else if EnumEditor_throws schema then RenderThrows map_message
        else PrimitiveView path
  end.

(** A view is complete when the fuel sufficed everywhere in it. *)
Fixpoint complete (v : view) : bool :=
  match v with
  | OutOfFuel => false
  | ResolvedReference _ inner => complete inner
  | ObjectView _ parameters => forallb (fun kv => complete (snd kv)) parameters
  | ArrayView _ (Some inner) => complete inner
  | _ => true
  end.

(** The measure of the termination argument: the containers of a value. *)
Fixpoint size (v : value) : nat :=
  match v with
  | VArr xs => S (list_sum (map size xs))
  | VObj ps => S (list_sum (map (fun kv => size (snd kv)) ps))
  | _ => 0
  end.

(** Every string that some object of [v] holds under the key [$ref]. *)
Definition ref_of_entry (kv : string * value) : list string :=
  if String.eqb (fst kv) "$ref"
  then match snd kv with
       | VStr r => [r]
       | _ => []
       end
  else [].

Fixpoint refs_in (v : value) : list string :=
  match v with
  | VArr xs => flat_map refs_in xs
  | VObj ps => flat_map (fun kv => (ref_of_entry kv ++ refs_in (snd kv))%list) ps
  | _ => []
  end.

(** The references of [universe] not yet on the chain. *)
Definition unvisited (universe visitedRefs : list string) : nat :=
  List.length
    (filter (fun r => negb (existsb (String.eqb r) visitedRefs)) universe).

(** Fuel above this bound suffices for [SchemaView] on [schema]. *)
Definition enough_fuel (spec schema : value) : nat :=
  List.length (refs_in spec ++ refs_in schema)%list
  * S (size spec + size schema) + size schema.


(** *** The handlers of [SchemaView] *)

(** [delete o[k]] for a key that is not an index or the length of an array:
    an array has no such own property in this model. *)
Definition delete_key (o : value) (k : string) : value :=
  match o with
  | VObj ps => VObj (own_delete ps k)
  | _ => o
  end.

(** The template literal [`${base}${i}`] for a counter [i], which stays far
    below [2^53]. *)
Definition numbered (base : string) (i : N) : string :=
  (base ++ key_of_N i)%string.

(** The loop [while (currentProperties[newKey]) newKey = `${base}${i++}`],
    entered with [newKey] and [i]; [fuel] bounds its iterations. *)
Fixpoint free_key (fuel : nat) (currentProperties : value) (base newKey : string)
  (i : N) : option string :=
  match fuel with
  | O => None
  | S fuel' =>
      if truthy (prop currentProperties newKey)
      then free_key fuel' currentProperties base (numbered base i) (N.succ i)
      else Some newKey
  end.

(** The keys the loop tries, in this order: the base, then the base with
    1, 2, ... *)
Definition candidate (base : string) (j : nat) : string :=
  match j with
  | O => base
  | S _ => numbered base (N.of_nat j)
  end.

Inductive addType : Type := primitive | object.

Definition base_key (t : addType) : string :=
  match t with
  | primitive => "newParameter"
  | object => "newObject"
  end.

Definition newItem (t : addType) : value :=
  match t with
  | primitive =>
      VObj [("type", VStr "string"); ("description", VStr "A new parameter.")]
  | object => VObj [("type", VStr "object"); ("properties", VObj [])]
  end.

(** [schema.properties || {}]. *)
Definition currentProperties (schema : value) : value :=
  if truthy (prop schema "properties") then prop schema "properties"
  else VObj [].

(** [addParameter(addType)]: the call of [onAddItem] it makes, [None] when
    the fuel does not suffice for the loop. *)
Definition addParameter (fuel : nat) (t : addType) (schema : value)
  (path : Path) : option App.request :=
  match free_key fuel (currentProperties schema) (base_key t) (base_key t) 1 with
  | Some newKey =>
      Some (App.onAddItem (path ++ [SKey "properties"])%list
              (VObj [(newKey, newItem t)]))
  | None => None
  end.

(** The values of [combinedTypes], in the order of the menu. *)
Definition combinedTypes : list (string * string) :=
  [ ("string", "string");
    ("integer (int32)", "integer:int32");
    ("integer (int64)", "integer:int64");
    ("float", "number:float");
    ("double", "number:double");
    ("boolean", "boolean");
    ("date", "string:date");
    ("date-time", "string:date-time");
    ("enum", "enum");
    ("array", "array");
    ("object", "object") ].

(** [names.includes(v)] for an array [names] of strings. *)
Definition includes (names : list string) (v : value) : bool :=
  match v with
  | VStr s => existsb (String.eqb s) names
  | _ => false
  end.

(** [v === 0]. *)
Definition is_zero (v : value) : bool :=
  match v with
  | VNum n => (n =? 0)%Z
  | _ => false
  end.

(** [[newType, newFormat] = value.split(':')], and [newType = value] with
    [newFormat] left undefined for a [value] without a colon.  [split]
    returns two pieces at least for a text with a colon; the other cases of
    the match are there for totality. *)
Definition type_and_format (value : string) : string * JS.value :=
  if Utils.contains ":"%char value then
    match Utils.split ":"%char value with
    | newType :: newFormat :: _ => (newType, VStr newFormat)
    | [newType] => (newType, VUndef)
    | [] => (value, VUndef)
    end
  else (value, VUndef).

(** [handleTypeChange(value)]: the call of [onUpdate] it makes. *)
Definition handleTypeChange (value : string) (schema : JS.value) (path : Path)
  : outcome App.request :=
  let newSchema := Lodash.cloneDeep schema in
  if String.eqb value "enum" then
    s1 <- (if negb (truthy (prop newSchema "type"))
              || negb (includes ["string"; "number"; "integer"; "boolean"]
                         (prop newSchema "type"))
           then assign newSchema "type" (VStr "string")
           else Ok newSchema) ;;
    s2 <- assign s1 "enum"
            (if truthy (prop s1 "enum") then prop s1 "enum" else VArr []) ;;
    s3 <- (if type_is (prop s2 "type") "boolean"
              && is_zero (prop (prop s2 "enum") "length")
           then assign s2 "enum" (VArr [VBool true; VBool false])
           else Ok s2) ;;
    Ok (App.onUpdate path s3)
  else
    let s1 := delete_key newSchema "enum" in
    let (newType, newFormat) := type_and_format value in
    s2 <- assign s1 "type" (VStr newType) ;;
    s3 <- (if truthy newFormat then assign s2 "format" newFormat
           else Ok (delete_key s2 "format")) ;;
    s4 <- (if String.eqb newType "object" then
             let s := delete_key s3 "items" in
             if negb (truthy (prop s "properties"))
             then assign s "properties" (VObj [])
             else Ok s
           else if String.eqb newType "array" then
             let s := delete_key s3 "properties" in
             if negb (truthy (prop s "items"))
             then assign s "items" (VObj [("type", VStr "string")])
             else Ok s
           else Ok (delete_key (delete_key s3 "items") "properties")) ;;
    Ok (App.onUpdate path s4).

(** [handleNullableChange(e)] with [e.target.checked] as [isChecked]. *)
Definition handleNullableChange (isChecked : bool) (schema : value) (path : Path)
  : outcome App.request :=
  let newSchema := Lodash.cloneDeep schema in
  s1 <- (if isChecked then assign newSchema "nullable" (VBool true)
         else Ok (delete_key newSchema "nullable")) ;;
  Ok (App.onUpdate path s1).

(** [`${v}`] for a string; other values are not needed. *)
Definition template (v : value) : outcome string :=
  match v with
  | VStr s => Ok s
  | _ => Unmodelled
  end.

(** [getCurrentTypeValue()], with [type] defaulting to ['object'] as in the
    destructuring of [schema]. *)
Definition getCurrentTypeValue (schema : value) : outcome value :=
  let type := type_of_schema schema in
  let format := prop schema "format" in
  if truthy (prop schema "enum") && negb (type_is type "boolean")
  then Ok (VStr "enum")
  else if truthy type && truthy format then
    t <- template type ;;
    f <- template format ;;
    Ok (VStr (t ++ ":" ++ f))
  else Ok (if truthy type then type else VStr "object").

(** [handleRemoveEnumConstraint()] of [EnumEditor]. *)
Definition handleRemoveEnumConstraint (schema : value) (path : Path)
  : App.request :=
  App.onUpdate path (delete_key (Lodash.cloneDeep schema) "enum").

(** *** [PathItem]: the tabs of the methods *)

Definition httpMethods : list string :=
  ["get"; "put"; "post"; "delete"; "options"; "head"; "patch"; "trace"].

Definition read_message : string :=
  "TypeError: Cannot read properties of null or undefined".

(** [httpMethods.filter(m => pathItem[m])]; reading a property of [null] or
    [undefined] throws. *)
Definition availableMethods (pathItem : value) : outcome (list string) :=
  if nullish pathItem then Throw read_message
  else Ok (filter (fun m => truthy (prop pathItem m)) httpMethods).

(** The initial state: [httpMethods.find(m => pathItem[m]) || null]. *)
Definition initial_activeMethod (pathItem : value) : outcome (option string) :=
  if nullish pathItem then Throw read_message
  else Ok (find (fun m => truthy (prop pathItem m)) httpMethods).

(** The effect on [[pathItem, activeMethod]]: the state [activeMethod] after
    it. *)
Definition activeMethod_effect (pathItem : value) (activeMethod : option string)
  : outcome (option string) :=
  available <- availableMethods pathItem ;;
  Ok match available with
     | first :: _ =>
         match activeMethod with
         | Some m =>
             if negb (truthy (VStr m)) || negb (existsb (String.eqb m) available)
             then Some first
             else activeMethod
         | None => Some first
         end
     | [] => None
     end.

(** [s.toUpperCase()] for a text of ASCII characters. *)
Definition upper (c : ascii) : ascii :=
  let n := nat_of_ascii c in
  if (97 <=? n)%nat && (n <=? 122)%nat then ascii_of_nat (n - 32) else c.

Fixpoint toUpperCase (s : string) : outcome string :=
  match s with
  | EmptyString => Ok EmptyString
  | String c rest =>
      if (nat_of_ascii c <? 128)%nat
      then (r <- toUpperCase rest ;; Ok (String (upper c) r))
      else Unmodelled
  end.

Definition newOp (METHOD : string) : value :=
  VObj [ ("summary", VStr ("New " ++ METHOD ++ " operation"));
         ("responses",
          VObj [("200", VObj [("description", VStr "Successful operation")])]) ].

(** [handleToggleMethod(method, enable)] of the item under the key [path] of
    [paths]: the call it makes, if any, and the state [activeMethod] after
    it. *)
Definition handleToggleMethod (path : string) (pathItem : value)
  (activeMethod : option string) (method : string) (enable : bool)
  : outcome (option App.request * option string) :=
  if enable then
    if negb (truthy (VStr method)) then Ok (None, activeMethod)
    else if nullish pathItem then Throw read_message
    else if truthy (prop pathItem method) then Ok (None, activeMethod)
    else
      METHOD <- toUpperCase method ;;
      Ok (Some (App.onUpdate [SKey "paths"; SKey path; SKey method]
                  (newOp METHOD)),
          Some method)
  else Ok (Some (App.onRemoveItem [SKey "paths"; SKey path; SKey method]),
           activeMethod).

(** *** [EnumEditor] *)

(** [s.trim() === ''] for a text whose characters are ASCII: each of them is
    a tab, a line feed, a vertical tab, a form feed, a carriage return or a
    space.  A character that is not ASCII may be white space or not. *)
Definition is_space (c : ascii) : bool :=
  let n := nat_of_ascii c in
  ((9 <=? n)%nat && (n <=? 13)%nat) || (n =? 32)%nat.

Fixpoint blank (s : string) : outcome bool :=
  match s with
  | EmptyString => Ok true
  | String c rest =>
      if (nat_of_ascii c <? 128)%nat
      then if is_space c then blank rest else Ok false
      else match blank rest with
           | Ok false => Ok false
           | _ => Unmodelled
           end
  end.

(** [schema.enum || []]. *)
Definition currentEnums (schema : value) : value :=
  if truthy (prop schema "enum") then prop schema "enum" else VArr [].

(** [handleAddEnum()] with the text [newEnumValue] of the input: the call of
    [onUpdate] it makes, [None] when it returns before.  [includes] of a
    string is another function, and the editor has thrown on such an [enum]
    when it rendered. *)
Definition handleAddEnum (newEnumValue : string) (schema : value) (path : Path)
  : outcome (option App.request) :=
  empty <- blank newEnumValue ;;
  if empty then Ok None
  else
    match currentEnums schema with
    | VArr xs =>
        if existsb (App.same_primitive (VStr newEnumValue)) xs then Ok None
        else Ok (Some (App.onUpdate (path ++ [SKey "enum"])%list
                         (VArr (xs ++ [VStr newEnumValue])%list)))
    | VStr _ => Unmodelled
    | _ => Throw (App.not_a_function "currentEnums.includes")
    end.





(** *** The paths of a view and the document *)

Fixpoint no_repeat (keys : list string) : bool :=
  match keys with
  | [] => true
  | k :: rest => negb (existsb (String.eqb k) rest) && no_repeat rest
  end.

(** The keys of every object of [v] are distinct, as they are in a
    JavaScript object. *)
Fixpoint distinct_keys (v : value) : bool :=
  match v with
  | VArr xs => forallb distinct_keys xs
  | VObj ps =>
      no_repeat (map fst ps) && forallb (fun kv => distinct_keys (snd kv)) ps
  | _ => true
  end.

(** The schema that [spec] holds at [path] is one that [SchemaView] renders
    as an object, as an array, as a primitive. *)
Inductive kind : Type := an_object | an_array | a_primitive.

Definition kind_at (spec : value) (path : Path) (k : kind) : bool :=
  let schema := Lodash.get spec path in
  let type := type_of_schema schema in
  is_object schema && negb (has_ref schema)
  && match k with
     | an_object => type_is type "object"
     | an_array => negb (type_is type "object") && type_is type "array"
     | a_primitive => negb (type_is type "object") && negb (type_is type "array")
     end.

(** Every node of the view with form controls has, as its [path], a
    location of [spec] with a schema of the kind of the node; a parameter of
    an object is shown under its key of the [properties] there, and the
    items of an array are those of the schema there. *)
Fixpoint addressed (spec : value) (v : view) : bool :=
  match v with
  | ResolvedReference ref inner =>
      truthy (Utils.resolveRef spec ref) && addressed spec inner
  | ObjectView path parameters =>
      kind_at spec path an_object
      && forallb
           (fun kv =>
              truthy (prop (prop (Lodash.get spec path) "properties") (fst kv))
              && addressed spec (snd kv))
           parameters
  | ArrayView path (Some inner) =>
      kind_at spec path an_array
      && truthy (prop (Lodash.get spec path) "items")
      && addressed spec inner
  | ArrayView path None =>
      kind_at spec path an_array
      && negb (truthy (prop (Lodash.get spec path) "items"))
  | PrimitiveView path => kind_at spec path a_primitive
  | _ => true
  end.

End PathItem.

(** ** [src/components/Operation.tsx]: [ExamplesEditor] *)

Module Operation.
Import JS.

(** [handleConvertToMultiple()] for the media type [content]: the call of
    [onUpdate] it makes, [None] when it returns before.  Only a plain object
    has an own property [example]; [{ ...content }] has its properties in
    their order. *)
Definition handleConvertToMultiple (content : value) (contentPath : Path)
  : option App.request :=
  let singleExample := prop content "example" in
  if is_undefined singleExample then None
  else
    match content with
    | VObj ps =>
        let newExamples :=
          VObj [("default_example",
                 VObj [("summary", VStr "Default example");
                       ("value", singleExample)])] in
        Some (App.onUpdate contentPath
                (VObj (own_set (own_delete ps "example") "examples" newExamples)))
    | _ => None
    end.

(** The key of a new example:
    [summary.toLowerCase().replace(/\s+/g, '_') + `_${Date.now() % 1000}`]
    for the summary ['New Example'], with [now] for [Date.now()]. *)
Definition new_example_key (now : N) : string :=
  ("new_example" ++ "_" ++ key_of_N (now mod 1000))%string.

Definition new_example : value :=
  VObj [("summary", VStr "New Example");
        ("value", VObj [("success", VBool true);
                        ("message", VStr "A new example response")])].

(** [handleAddExample()]: the call it makes. *)
Definition handleAddExample (now : N) (content : value) (contentPath : Path)
  : App.request :=
  let examples := prop content "examples" in
  let newExample := VObj [(new_example_key now, new_example)] in
  if negb (truthy examples)
  then App.onUpdate (contentPath ++ [SKey "examples"])%list newExample
  else App.onAddItem (contentPath ++ [SKey "examples"])%list newExample.

End Operation.

(** ** A small environment for examples *)

Module Demo.
Import JS App.

(** Texts with the value [JSON.parse] returns on them; it throws on the
    others of the examples ([a: 1], [hello], [{], the empty text). *)
Definition json_table : list (string * value) :=
  [ ("5", VNum 5); ("null", VNull); ("{}", VObj []); ("[1]", VArr [VNum 1]) ].

(** Texts with what [yaml.load] does on them; the message of the exception is
    abbreviated. *)
Definition yaml_table : list (string * loaded) :=
  [ ("a: 1", Loaded (VObj [("a", VNum 1)]));
    ("hello", Loaded (VStr "hello"));
    ("5", Loaded (VNum 5));
    ("", Loaded VUndef);
    ("{", LoadError "unexpected end of the stream within a flow collection") ].

Fixpoint lookup {A : Type} (table : list (string * A)) (t : string) : option A :=
  match table with
  | [] => None
  | (t', a) :: rest => if String.eqb t' t then Some a else lookup rest t
  end.

(** [Number] on the strings of the examples: a string of decimal digits is
    its number, the empty string is [0], and a string that is no numeral
    ([id], [name]) is [NaN], which [splice] takes for [0].  The table is
    exact on these only: a numeral with a sign, a fraction, an exponent, a
    radix prefix or blanks around it also falls under [0] here, which is not
    what [Number] answers, and no example passes one. *)
Definition digits_to_integer (s : string) : integer_or_infinity :=
  match NilEmpty.uint_of_string s with
  | Some u => Fin (Z.of_N (N.of_uint u))
  | None => Fin 0
  end.

Definition newline : string := String (Ascii.ascii_of_nat 10) EmptyString.

(** The environment of the examples: outside the tables a text is taken to be
    rejected by both parsers, and a value not to serialise. *)
Definition env : Env := {|
  JSON_parse := lookup json_table;
  yaml_load := fun t =>
    match lookup yaml_table t with
    | Some r => r
    | None => LoadError "bad indentation of a mapping entry"
    end;
  JSON_stringify := fun v =>
    match v with
    | VNum 5 => Some "5"
    | VObj [] => Some "{}"
    | _ => None
    end;
  yaml_dump := fun v =>
    match v with
    | VNum 5 => Some ("5" ++ newline)
    | VObj [] => Some ("{}" ++ newline)
    | _ => None
    end;
  Number_of_string := digits_to_integer
|}.

(** A document with a schema, a list of tags and no servers. *)
Definition petstore : value :=
  VObj [ ("openapi", VStr "3.0.0");
         ("tags", VArr [VStr "pets"; VStr "store"; VStr "user"]);
         ("components",
          VObj [ ("schemas",
                  VObj [ ("Pet",
                          VObj [ ("type", VStr "object");
                                 ("required", VArr [VStr "id"]);
                                 ("properties",
                                  VObj [ ("id", VObj [("type", VStr "integer")]);
                                         ("friend",
                                          VObj [("$ref", VStr "#/components/schemas/Pet")]) ]) ]) ]) ]) ].

(** A document whose schema [A] is a reference to itself. *)
Definition loop : value := VObj [("A", VObj [("$ref", VStr "#/A")])].

Definition Pet_path : Path := [SKey "components"; SKey "schemas"; SKey "Pet"].

(** A state of the component with [doc] as the current document. *)
Definition editing (doc : value) (flag : bool) : State :=
  {| specString := "openapi: 3.0.0"; parsedSpec := doc; parseError := None;
     specFormat := yaml; isUpdatingFromView := flag |}.

(** The environment of the examples, knowing also how the array [[1]] is
    printed with two spaces of indentation. *)
Definition env_printing_arrays : Env := {|
  JSON_parse := JSON_parse env;
  yaml_load := yaml_load env;
  JSON_stringify := fun v =>
    match v with
    | VArr [VNum 1] => Some ("[" ++ newline ++ "  1" ++ newline ++ "]")
    | _ => JSON_stringify env v
    end;
  yaml_dump := yaml_dump env;
  Number_of_string := Number_of_string env
|}.

(** The component at rest, with [doc] as its document. *)
Definition at_rest (doc : value) : Component :=
  {| state := editing doc false; pending := false |}.

(** A document with one path, which has a [get] operation whose response
    has a media type with an example. *)
Definition media_type_path : Path :=
  [SKey "paths"; SKey "/pets"; SKey "get"; SKey "responses"; SKey "200";
   SKey "content"; SKey "application/json"].

Definition api : value :=
  VObj [ ("openapi", VStr "3.0.0");
         ("paths",
          VObj [ ("/pets",
                  VObj [ ("get",
                          VObj [ ("summary", VStr "List the pets");
                                 ("responses",
                                  VObj [ ("200",
                                          VObj [ ("description", VStr "The pets");
                                                 ("content",
                                                  VObj [ ("application/json",
                                                          VObj [("example", VNum 5)]) ]) ]) ]) ]) ]) ]);
         ("components",
          VObj [ ("schemas",
                  VObj [ ("Colour", VObj [("type", VStr "string")]) ]) ]) ].

End Demo.

(** * Facts about the value model *)

Section ValueFacts.
Import JS.

(** Induction on values, with the elements of an array and the property
    values of an object as premises. *)
Lemma value_ind (P : value -> Prop)
  (HUndef : P VUndef) (HNull : P VNull)
  (HBool : forall b, P (VBool b)) (HNum : forall n, P (VNum n))
  (HStr : forall s, P (VStr s))
  (HArr : forall xs, Forall P xs -> P (VArr xs))
  (HObj : forall ps, Forall (fun kv => P (snd kv)) ps -> P (VObj ps)) :
  forall v, P v.
Proof.
  refine (fix IH (v : value) : P v :=
            match v with
            | VUndef => HUndef
            | VNull => HNull
            | VBool b => HBool b
            | VNum n => HNum n
            | VStr s => HStr s
            | VArr xs =>
                HArr xs ((fix elements (l : list value) : Forall P l :=
                            match l with
                            | [] => Forall_nil _
                            | x :: rest => Forall_cons x (IH x) (elements rest)
                            end) xs)
            | VObj ps =>
                HObj ps ((fix fields (l : list (string * value))
                            : Forall (fun kv => P (snd kv)) l :=
                            match l with
                            | [] => Forall_nil _
                            | kv :: rest =>
                                Forall_cons kv (IH (snd kv)) (fields rest)
                            end) ps)
            end).
Qed.

Lemma cloneDeep_id (v : value) : Lodash.cloneDeep v = v.
Proof.
  induction v as [ | | b | n | s | xs IH | ps IH ] using value_ind; simpl; auto.
  - f_equal. induction IH as [ | x xs Hx _ IHxs ]; simpl; congruence.
  - f_equal. induction IH as [ | [k x] ps Hx _ IHps ]; simpl in *; congruence.
Qed.

Lemma canonical_N_key (n : N) : canonical_N (key_of_N n) = Some n.
Proof.
  unfold canonical_N, key_of_N. rewrite NilEmpty.usu.
  rewrite DecimalN.Unsigned.of_to. now rewrite String.eqb_refl.
Qed.

Lemma canonical_N_inv (k : string) (n : N) :
  canonical_N k = Some n -> k = key_of_N n.
Proof.
  unfold canonical_N. destruct (NilEmpty.uint_of_string k) as [u | ]; [ | discriminate ].
  destruct (String.eqb_spec (key_of_N (N.of_uint u)) k); [ | discriminate ].
  intros [= <-]. congruence.
Qed.

Lemma array_index_canonical (k : string) (n : N) :
  array_index k = Some n -> canonical_N k = Some n.
Proof.
  unfold array_index. destruct (canonical_N k) as [m | ]; [ | discriminate ].
  destruct (m <? 4294967295)%N; congruence.
Qed.

(** *** Own properties *)

Lemma own_get_replace_same ps k v :
  has_own ps k = true -> own_get (own_replace ps k v) k = Some v.
Proof.
  unfold has_own. induction ps as [ | [k' v'] ps IH ]; simpl; [ discriminate | ].
  destruct (String.eqb_spec k' k); simpl.
  - subst. now rewrite String.eqb_refl.
  - destruct (String.eqb_spec k' k); [ contradiction | auto ].
Qed.

Lemma own_get_replace_other ps k v k' :
  k' <> k -> own_get (own_replace ps k v) k' = own_get ps k'.
Proof.
  intros Hne. induction ps as [ | [k0 v0] ps IH ]; simpl; auto.
  destruct (String.eqb_spec k0 k); simpl.
  - subst. destruct (String.eqb_spec k k'); [ congruence | reflexivity ].
  - now rewrite IH.
Qed.

Lemma own_get_insert_index_same ps n k v :
  own_get ps k = None -> own_get (own_insert_index ps n k v) k = Some v.
Proof.
  induction ps as [ | [k' v'] ps IH ]; simpl; intros Habs.
  - now rewrite String.eqb_refl.
  - destruct (String.eqb_spec k' k) as [ -> | Hne ]; [ discriminate | ].
    destruct (array_index k') as [n' | ]; simpl.
    + destruct (n' <? n)%N; simpl.
      * destruct (String.eqb_spec k' k); [ contradiction | auto ].
      * now rewrite String.eqb_refl.
    + now rewrite String.eqb_refl.
Qed.

Lemma own_get_insert_index_other ps n k v k' :
  k' <> k -> own_get (own_insert_index ps n k v) k' = own_get ps k'.
Proof.
  intros Hne. induction ps as [ | [k0 v0] ps IH ]; simpl.
  - destruct (String.eqb_spec k k'); [ congruence | reflexivity ].
  - destruct (array_index k0) as [n0 | ]; simpl.
    + destruct (n0 <? n)%N; simpl.
      * now rewrite IH.
      * destruct (String.eqb_spec k k'); [ congruence | reflexivity ].
    + destruct (String.eqb_spec k k'); [ congruence | reflexivity ].
Qed.

Lemma own_get_app ps qs k :
  own_get (ps ++ qs) k =
  match own_get ps k with
  | Some v => Some v
  | None => own_get qs k
  end.
Proof.
  induction ps as [ | [k' v'] ps IH ]; simpl; auto.
  destruct (String.eqb k' k); auto.
Qed.

Lemma own_get_set_same ps k v : own_get (own_set ps k v) k = Some v.
Proof.
  unfold own_set. destruct (has_own ps k) eqn:Hown.
  - now apply own_get_replace_same.
  - unfold has_own in Hown.
    destruct (own_get ps k) eqn:Hget; [ discriminate | ].
    destruct (array_index k).
    + now apply own_get_insert_index_same.
    + rewrite own_get_app, Hget. simpl. now rewrite String.eqb_refl.
Qed.

Lemma own_get_set_other ps k v k' :
  k' <> k -> own_get (own_set ps k v) k' = own_get ps k'.
Proof.
  intros Hne. unfold own_set. destruct (has_own ps k).
  - now apply own_get_replace_other.
  - destruct (array_index k).
    + now apply own_get_insert_index_other.
    + rewrite own_get_app. simpl.
      destruct (String.eqb_spec k k'); [ congruence | ].
      now destruct (own_get ps k').
Qed.

Lemma own_get_delete_same ps k : own_get (own_delete ps k) k = None.
Proof.
  induction ps as [ | [k' v'] ps IH ]; simpl; auto.
  destruct (String.eqb_spec k' k); simpl; auto.
  destruct (String.eqb_spec k' k); [ contradiction | auto ].
Qed.

Lemma own_get_delete_other ps k k' :
  k' <> k -> own_get (own_delete ps k) k' = own_get ps k'.
Proof.
  intros Hne. induction ps as [ | [k0 v0] ps IH ]; simpl; auto.
  destruct (String.eqb_spec k0 k); simpl.
  - subst. destruct (String.eqb_spec k k'); [ congruence | auto ].
  - now rewrite IH.
Qed.

Lemma own_delete_absent ps k : own_get ps k = None -> own_delete ps k = ps.
Proof.
  induction ps as [ | [k' v'] ps IH ]; simpl; auto.
  destruct (String.eqb k' k); [ discriminate | ].
  intros H. now rewrite IH.
Qed.

Lemma own_delete_app ps qs k :
  own_delete (ps ++ qs) k = (own_delete ps k ++ own_delete qs k)%list.
Proof.
  induction ps as [ | [k' v'] ps IH ]; simpl; auto.
  destruct (String.eqb k' k); simpl; now rewrite IH.
Qed.

Lemma own_get_update ps k f :
  own_get (own_update ps k f) k = option_map f (own_get ps k).
Proof.
  induction ps as [ | [k' v'] ps IH ]; simpl; auto.
  destruct (String.eqb_spec k' k); simpl.
  - subst. now rewrite String.eqb_refl.
  - destruct (String.eqb_spec k' k); [ contradiction | auto ].
Qed.

Lemma own_update_update ps k f g :
  own_update (own_update ps k f) k g = own_update ps k (fun v => g (f v)).
Proof.
  induction ps as [ | [k' v'] ps IH ]; simpl; auto.
  destruct (String.eqb_spec k' k); simpl.
  - subst. now rewrite String.eqb_refl.
  - destruct (String.eqb_spec k' k); [ contradiction | ]. now rewrite IH.
Qed.

(** *** Arrays *)

Lemma nth_nth_update i f xs :
  i < List.length xs -> nth i (nth_update i f xs) VUndef = f (nth i xs VUndef).
Proof.
  revert i. induction xs as [ | x xs IH ]; intros [ | i ] H; simpl in *; try lia; auto.
  apply IH. lia.
Qed.

Lemma nth_update_update i f g xs :
  nth_update i g (nth_update i f xs) = nth_update i (fun v => g (f v)) xs.
Proof.
  revert i. induction xs as [ | x xs IH ]; intros [ | i ]; simpl; auto.
  now rewrite IH.
Qed.

Lemma length_remove_nth i xs :
  i < List.length xs -> S (List.length (remove_nth i xs)) = List.length xs.
Proof.
  revert i. induction xs as [ | x xs IH ]; intros [ | i ] H; simpl in *; try lia.
  rewrite IH; lia.
Qed.

Lemma nth_remove_nth_before i j xs :
  j < i -> nth j (remove_nth i xs) VUndef = nth j xs VUndef.
Proof.
  revert i j. induction xs as [ | x xs IH ]; intros [ | i ] [ | j ] H; simpl in *;
    auto; try lia.
  apply IH. lia.
Qed.

Lemma nth_remove_nth_after i j xs :
  i <= j -> nth j (remove_nth i xs) VUndef = nth (S j) xs VUndef.
Proof.
  revert i j. induction xs as [ | x xs IH ]; intros [ | i ] [ | j ] H; simpl in *;
    auto; try lia.
  apply IH. lia.
Qed.

Lemma nth_array_write i x xs : nth i (array_write xs i x) VUndef = x.
Proof.
  unfold array_write. destruct (Nat.ltb_spec i (List.length xs)) as [Hlt | Hge].
  - revert i Hlt. induction xs as [ | y xs IH ]; intros [ | i ] H; simpl in *;
      try lia; auto. apply IH. lia.
  - rewrite app_nth2 by lia. rewrite app_nth2; rewrite repeat_length; [ | lia ].
    replace (i - List.length xs - (i - List.length xs)) with 0 by lia.
    reflexivity.
Qed.

End ValueFacts.

(** * Facts about reading and changing a location *)

Section PathFacts.
Import JS.
Local Open Scope list_scope.

Lemma key_of_N_not_length (n : N) : String.eqb (key_of_N n) "length" = false.
Proof.
  destruct (String.eqb_spec (key_of_N n) "length") as [Heq | ]; auto.
  pose proof (canonical_N_key n) as Hc. rewrite Heq in Hc. discriminate.
Qed.

(** An element of an array is read under the numeral of its position. *)
Lemma prop_element xs (n : N) :
  prop (VArr xs) (key_of_N n) = nth (N.to_nat n) xs VUndef.
Proof.
  unfold prop. now rewrite key_of_N_not_length, canonical_N_key.
Qed.

Lemma is_object_not_nullish v : is_object v = true -> nullish v = false.
Proof. now destruct v. Qed.

(** A property read off a value that is no container is no container. *)
Lemma prop_of_scalar o k : is_object o = false -> is_object (prop o k) = false.
Proof.
  destruct o; simpl; auto; try discriminate.
  intros _. destruct (String.eqb k "length"); auto.
  destruct (canonical_N k); auto. unfold char_at.
  now destruct (String.get (N.to_nat n) s).
Qed.

Lemma get_in_of_scalar keys : forall o,
  is_object o = false -> is_object (Lodash.get_in o keys) = false.
Proof.
  induction keys as [ | k rest IH ]; simpl; auto.
  intros o Ho. destruct (nullish o); auto. apply IH. now apply prop_of_scalar.
Qed.

Lemma get_in_app keys : forall o k,
  Lodash.get_in o (keys ++ [k]) =
  if nullish (Lodash.get_in o keys) then VUndef
  else prop (Lodash.get_in o keys) k.
Proof.
  induction keys as [ | k' rest IH ]; simpl; intros o k.
  - reflexivity.
  - destruct (nullish o); auto.
Qed.

(** Reading one step below a container that [get] found. *)
Lemma get_snoc o path s :
  is_object (Lodash.get o path) = true ->
  Lodash.get o (path ++ [s]) = prop (Lodash.get o path) (toKey s).
Proof.
  intros Hobj. destruct path as [ | s0 path ]; [ discriminate | ].
  unfold Lodash.get in *. simpl app. cbv iota.
  change (s0 :: path ++ [s])%list with ((s0 :: path) ++ [s])%list.
  rewrite map_app. simpl map at 2. rewrite get_in_app.
  now rewrite (is_object_not_nullish _ Hobj).
Qed.

(** Changing the container that [o[k]] refers to. *)
Lemma prop_update_prop o k f :
  is_object (prop o k) = true -> prop (update_prop o k f) k = f (prop o k).
Proof.
  destruct o as [ | | b | n | s | xs | ps ]; try discriminate.
  - intros Hobj. rewrite prop_of_scalar in Hobj; [ discriminate | reflexivity ].
  - simpl. destruct (String.eqb_spec k "length"); [ discriminate | ].
    destruct (canonical_N k) as [i | ] eqn:Hi; [ | discriminate ].
    intros Hobj. simpl.
    destruct (String.eqb_spec k "length"); [ contradiction | ]. rewrite Hi.
    apply nth_nth_update.
    destruct (Nat.ltb_spec (N.to_nat i) (List.length xs)); auto.
    rewrite nth_overflow in Hobj by lia. discriminate.
  - simpl. rewrite own_get_update. now destruct (own_get ps k).
Qed.

Lemma update_prop_is_object o k f :
  is_object o = true -> is_object (update_prop o k f) = true.
Proof.
  destruct o; simpl; auto. now destruct (canonical_N k).
Qed.

Lemma get_in_is_object_head o k rest :
  is_object (Lodash.get_in o (k :: rest)) = true ->
  is_object o = true /\ is_object (prop o k) = true.
Proof.
  simpl. intros H. split.
  - destruct (is_object o) eqn:Ho; auto.
    destruct (nullish o); [ discriminate | ].
    rewrite get_in_of_scalar in H; auto. now apply prop_of_scalar.
  - destruct (nullish o); [ discriminate | ].
    destruct (is_object (prop o k)) eqn:Hp; auto.
    rewrite get_in_of_scalar in H; auto.
Qed.

(** After the change, the location reads as the changed container. *)
Lemma get_in_modify_at keys : forall o f,
  is_object (Lodash.get_in o keys) = true ->
  Lodash.get_in (App.modify_at keys f o) keys = f (Lodash.get_in o keys).
Proof.
  induction keys as [ | k rest IH ]; intros o f Hobj.
  - reflexivity.
  - destruct (get_in_is_object_head _ _ _ Hobj) as [Ho Hp].
    simpl in *.
    rewrite (is_object_not_nullish _ Ho) in *.
    rewrite (is_object_not_nullish _ (update_prop_is_object _ k _ Ho)).
    rewrite prop_update_prop by assumption. now apply IH.
Qed.

Lemma get_modify_at o path f :
  is_object (Lodash.get o path) = true ->
  Lodash.get (App.modify_at (map toKey path) f o) path = f (Lodash.get o path).
Proof.
  destruct path as [ | s path ]; [ discriminate | ].
  unfold Lodash.get. apply get_in_modify_at.
Qed.

Lemma update_prop_update_prop o k f g :
  update_prop (update_prop o k f) k g = update_prop o k (fun v => g (f v)).
Proof.
  destruct o as [ | | b | n | s | xs | ps ]; simpl; auto.
  - destruct (canonical_N k) eqn:Hk; simpl; rewrite Hk; [ | reflexivity ].
    now rewrite nth_update_update.
  - now rewrite own_update_update.
Qed.

Lemma update_prop_ext o k f g :
  (forall v, f v = g v) -> update_prop o k f = update_prop o k g.
Proof.
  intros Hfg. destruct o as [ | | b | n | s | xs | ps ]; simpl; auto.
  - destruct (canonical_N k); auto. f_equal.
    generalize (N.to_nat n). induction xs as [ | x xs IH ]; intros [ | i ];
      simpl; auto; now rewrite ?Hfg, ?IH.
  - f_equal. induction ps as [ | [k' v'] ps IH ]; simpl; auto.
    destruct (String.eqb k' k); now rewrite ?Hfg, ?IH.
Qed.

Lemma modify_at_modify_at keys : forall o f g,
  App.modify_at keys g (App.modify_at keys f o) =
  App.modify_at keys (fun v => g (f v)) o.
Proof.
  induction keys as [ | k rest IH ]; intros o f g; simpl.
  - reflexivity.
  - rewrite update_prop_update_prop. apply update_prop_ext. intros v. apply IH.
Qed.

Lemma is_object_truthy v : is_object v = true -> truthy v = true.
Proof. now destruct v. Qed.

Lemma get_of_scalar o path :
  is_object o = false -> is_object (Lodash.get o path) = false.
Proof.
  intros Ho. destruct path; [ reflexivity | ].
  unfold Lodash.get. now apply get_in_of_scalar.
Qed.

Lemma falsy_not_object v : truthy v = false -> is_object v = false.
Proof. now destruct v. Qed.

(** A document in which [get] finds a container is present. *)
Lemma get_object_truthy o path :
  is_object (Lodash.get o path) = true -> truthy o = true.
Proof.
  intros Hobj. destruct (truthy o) eqn:Ho; auto.
  rewrite (get_of_scalar o path (falsy_not_object _ Ho)) in Hobj. discriminate.
Qed.

End PathFacts.

(** * The sync controller: [parseSpec] and the serialising effect *)

Section ControllerFacts.
Import JS App.
Local Open Scope list_scope.

Variable env : Env.

Lemma message_or_fallback_nonempty (m : string) : message_or_fallback m <> "".
Proof.
  unfold message_or_fallback. destruct (String.eqb_spec m ""); auto.
  discriminate.
Qed.

Lemma parseSpec_armed (t : string) (s : State) :
  isUpdatingFromView s = true ->
  parseSpec env t s = set_isUpdatingFromView false s.
Proof. unfold parseSpec. now intros ->. Qed.

Lemma parseSpec_clear (t : string) (s : State) :
  isUpdatingFromView s = false -> parseSpec env t s = parse_text env t s.
Proof. unfold parseSpec. now intros ->. Qed.

Lemma parse_text_flag (t : string) (s : State) :
  isUpdatingFromView (parse_text env t s) = isUpdatingFromView s.
Proof.
  unfold parse_text. destruct (JSON_parse env t); [ reflexivity | ].
  now destruct (load_object env t).
Qed.

(** [parseSpec] always returns with the flag down. *)
Lemma parseSpec_disarms (t : string) (s : State) :
  isUpdatingFromView (parseSpec env t s) = false.
Proof.
  unfold parseSpec. destruct (isUpdatingFromView s) eqn:Hflag; [ reflexivity | ].
  now rewrite parse_text_flag.
Qed.

(** Only the effect raises the flag. *)
Lemma transition_keeps_flag_down (s : State) (e : event) :
  is_EffectRuns e = false ->
  isUpdatingFromView s = false ->
  isUpdatingFromView (transition env s e) = false.
Proof.
  destruct e; simpl; auto; try discriminate.
  intros _ _. apply parseSpec_disarms.
Qed.

Lemma run_keeps_flag_down (es : list event) : forall s,
  forallb (fun e => negb (is_EffectRuns e)) es = true ->
  isUpdatingFromView s = false ->
  isUpdatingFromView (run env s es) = false.
Proof.
  induction es as [ | e es IH ]; simpl; intros s Hes Hs; auto.
  apply andb_prop in Hes as [He Hes]. apply IH; auto.
  apply transition_keeps_flag_down; auto. now destruct (is_EffectRuns e).
Qed.

(** Only [parseSpec] lowers the flag. *)
Lemma transition_keeps_flag_up (s : State) (e : event) :
  is_ParseFires e = false ->
  isUpdatingFromView s = true ->
  isUpdatingFromView (transition env s e) = true.
Proof.
  destruct e; simpl; auto; try discriminate.
  intros _ Hs. unfold serialize_effect.
  destruct (negb (truthy (parsedSpec s))); auto.
  now destruct (serialize env s).
Qed.

Lemma run_keeps_flag_up (es : list event) : forall s,
  forallb (fun e => negb (is_ParseFires e)) es = true ->
  isUpdatingFromView s = true ->
  isUpdatingFromView (run env s es) = true.
Proof.
  induction es as [ | e es IH ]; simpl; intros s Hes Hs; auto.
  apply andb_prop in Hes as [He Hes]. apply IH; auto.
  apply transition_keeps_flag_up; auto. now destruct (is_ParseFires e).
Qed.

Lemma serialize_effect_arms (s : State) :
  truthy (parsedSpec s) = true ->
  isUpdatingFromView (serialize_effect env s) = true.
Proof.
  unfold serialize_effect. intros ->. simpl. now destruct (serialize env s).
Qed.

Lemma run_app (s : State) (es fs : list event) :
  run env s (es ++ fs) = run env (run env s es) fs.
Proof. unfold run. apply fold_left_app. Qed.

End ControllerFacts.

(** * Claims about the sync controller *)

Section ControllerClaims.
Import JS App.
Local Open Scope list_scope.

(** C1, as stated, fails: with the petstore document current, the text [{]
    is rejected by [JSON.parse] and by [yaml.load], and [parseSpec] leaves
    [null] as the document, not the petstore. *)
Lemma C1_document_not_kept :
  JSON_parse Demo.env "{" = None /\
  (exists m, yaml_load Demo.env "{" = LoadError m) /\
  parsedSpec (Demo.editing Demo.petstore false) = Demo.petstore /\
  parsedSpec (parseSpec Demo.env "{" (Demo.editing Demo.petstore false))
    <> Demo.petstore.
Proof.
  split; [ reflexivity | ]. split; [ eexists; reflexivity | ].
  split; [ reflexivity | ]. vm_compute. discriminate.
Qed.

(** C1, amended: when the flag is down and a text is rejected by both
    [JSON.parse] and [yaml.load], [parseSpec] surfaces a non-empty error
    message and resets the document to [null], whatever the document was; the
    format tag, the text and the flag are as before. *)
Theorem C1_unparsable_text_resets_document
  (env : Env) (t : string) (s : State) (m : string) :
  isUpdatingFromView s = false ->
  JSON_parse env t = None ->
  yaml_load env t = LoadError m ->
  parsedSpec (parseSpec env t s) = VNull /\
  (exists e, parseError (parseSpec env t s) = Some e /\ e <> "") /\
  specFormat (parseSpec env t s) = specFormat s /\
  specString (parseSpec env t s) = specString s /\
  isUpdatingFromView (parseSpec env t s) = false.
Proof.
  intros Hflag Hjson Hyaml.
  rewrite parseSpec_clear by assumption.
  unfold parse_text, load_object. rewrite Hjson, Hyaml. simpl.
  repeat split; auto.
  exists (message_or_fallback m). split; [ reflexivity | ].
  apply message_or_fallback_nonempty.
Qed.

(** The amended C1 on the text [{], with the petstore document current. *)
Lemma C1_unparsable_text_resets_document_witness :
  parsedSpec (parseSpec Demo.env "{" (Demo.editing Demo.petstore false)) = VNull /\
  (exists e, parseError (parseSpec Demo.env "{" (Demo.editing Demo.petstore false))
             = Some e /\ e <> "") /\
  specFormat (parseSpec Demo.env "{" (Demo.editing Demo.petstore false)) = yaml /\
  specString (parseSpec Demo.env "{" (Demo.editing Demo.petstore false))
    = "openapi: 3.0.0" /\
  isUpdatingFromView (parseSpec Demo.env "{" (Demo.editing Demo.petstore false))
    = false.
Proof.
  apply (C1_unparsable_text_resets_document Demo.env "{"
           (Demo.editing Demo.petstore false)
           "unexpected end of the stream within a flow collection");
    reflexivity.
Defined.

(** C7, as stated, fails: on the text [hello] only the YAML parser succeeds,
    yet the format tag stays [json], the document is not the parsed value and
    an error is set. *)
Lemma C7_yaml_scalar_not_recorded :
  JSON_parse Demo.env "hello" = None /\
  yaml_load Demo.env "hello" = Loaded (VStr "hello") /\
  let s := setSpecFormat json (Demo.editing Demo.petstore false) in
  specFormat (parseSpec Demo.env "hello" s) <> yaml /\
  parsedSpec (parseSpec Demo.env "hello" s) <> VStr "hello" /\
  parseError (parseSpec Demo.env "hello" s) <> None.
Proof.
  split; [ reflexivity | ]. split; [ reflexivity | ].
  vm_compute. repeat split; discriminate.
Qed.

(** C7, amended: with the flag down, [parseSpec] tries [JSON.parse] first and
    what [yaml.load] would do is of no account when it succeeds; when
    [JSON.parse] succeeds the format tag is [json], when it fails and
    [yaml.load] returns an object or an array the tag is [yaml]; in both
    cases the document is the parsed value and the error is cleared. *)
Theorem C7_parse_order_and_format
  (env : Env) (t : string) (s : State) (v : value) :
  isUpdatingFromView s = false ->
  (JSON_parse env t = Some v ->
     (forall env', JSON_parse env' = JSON_parse env ->
                   parseSpec env' t s = parseSpec env t s) /\
     specFormat (parseSpec env t s) = json /\
     parsedSpec (parseSpec env t s) = v /\
     parseError (parseSpec env t s) = None) /\
  (JSON_parse env t = None -> yaml_load env t = Loaded v -> is_object v = true ->
     specFormat (parseSpec env t s) = yaml /\
     parsedSpec (parseSpec env t s) = v /\
     parseError (parseSpec env t s) = None).
Proof.
  intros Hflag. split.
  - intros Hjson. split.
    + intros env' Henv. rewrite !parseSpec_clear by assumption.
      unfold parse_text. now rewrite Henv, Hjson.
    + rewrite parseSpec_clear by assumption.
      unfold parse_text. rewrite Hjson. auto.
  - intros Hjson Hyaml Hobj. rewrite parseSpec_clear by assumption.
    unfold parse_text, load_object. rewrite Hjson, Hyaml, Hobj. auto.
Qed.

(** The amended C7 on the texts [[1]] (JSON) and [a: 1] (YAML only). *)
Lemma C7_parse_order_and_format_witness :
  (specFormat (parseSpec Demo.env "[1]" (Demo.editing Demo.petstore false)) = json /\
   parsedSpec (parseSpec Demo.env "[1]" (Demo.editing Demo.petstore false))
     = VArr [VNum 1]) /\
  (specFormat (parseSpec Demo.env "a: 1"
                 (setSpecFormat json (Demo.editing Demo.petstore false))) = yaml /\
   parsedSpec (parseSpec Demo.env "a: 1"
                 (setSpecFormat json (Demo.editing Demo.petstore false)))
     = VObj [("a", VNum 1)]).
Proof.
  split.
  - destruct (C7_parse_order_and_format Demo.env "[1]"
                (Demo.editing Demo.petstore false) (VArr [VNum 1]) eq_refl)
      as [Hjson _].
    destruct (Hjson eq_refl) as (_ & Hf & Hd & _). split; assumption.
  - destruct (C7_parse_order_and_format Demo.env "a: 1"
                (setSpecFormat json (Demo.editing Demo.petstore false))
                (VObj [("a", VNum 1)]) eq_refl)
      as [_ Hyaml].
    destruct (Hyaml eq_refl eq_refl eq_refl) as (Hf & Hd & _). split; assumption.
Defined.

(** C10: the test that the root is an object guards the YAML branch only.
    With the flag down, a text that [JSON.parse] turns into a value that is
    no object becomes the document, tag [json], no error; a text that only
    [yaml.load] accepts, as such a value, leaves [null] as the document and
    the error ['Invalid YAML: content must be an object.']. *)
Theorem C10_object_root_only_for_yaml
  (env : Env) (t : string) (s : State) (v : value) :
  isUpdatingFromView s = false ->
  is_object v = false ->
  (JSON_parse env t = Some v ->
     parsedSpec (parseSpec env t s) = v /\
     specFormat (parseSpec env t s) = json /\
     parseError (parseSpec env t s) = None) /\
  (JSON_parse env t = None -> yaml_load env t = Loaded v ->
     parsedSpec (parseSpec env t s) = VNull /\
     specFormat (parseSpec env t s) = specFormat s /\
     parseError (parseSpec env t s)
       = Some "Invalid YAML: content must be an object.").
Proof.
  intros Hflag Hobj. split.
  - intros Hjson. rewrite parseSpec_clear by assumption.
    unfold parse_text. rewrite Hjson. auto.
  - intros Hjson Hyaml. rewrite parseSpec_clear by assumption.
    unfold parse_text, load_object. rewrite Hjson, Hyaml, Hobj. auto.
Qed.

(** C10 on the texts [5] (JSON) and [hello] (YAML only). *)
Lemma C10_object_root_only_for_yaml_witness :
  (parsedSpec (parseSpec Demo.env "5" (Demo.editing Demo.petstore false)) = VNum 5 /\
   specFormat (parseSpec Demo.env "5" (Demo.editing Demo.petstore false)) = json /\
   parseError (parseSpec Demo.env "5" (Demo.editing Demo.petstore false)) = None) /\
  (parsedSpec (parseSpec Demo.env "hello" (Demo.editing Demo.petstore false)) = VNull /\
   parseError (parseSpec Demo.env "hello" (Demo.editing Demo.petstore false))
     = Some "Invalid YAML: content must be an object.").
Proof.
  split.
  - destruct (C10_object_root_only_for_yaml Demo.env "5"
                (Demo.editing Demo.petstore false) (VNum 5) eq_refl eq_refl)
      as [Hjson _].
    exact (Hjson eq_refl).
  - destruct (C10_object_root_only_for_yaml Demo.env "hello"
                (Demo.editing Demo.petstore false) (VStr "hello") eq_refl eq_refl)
      as [_ Hyaml].
    destruct (Hyaml eq_refl eq_refl) as (Hd & _ & He). split; assumption.
Defined.

(** C3: the user's edit is consumed in the place of an echo.  The component
    is at rest with no document and the flag down.  The user types [{}]:
    the timer expires, [parseSpec] reads the object [{}], and the effect
    raises the flag and serialises the object to [{}], the text that is
    there already, so that no text change follows and no call of
    [parseSpec] is scheduled.  The user then types [[1]], which [JSON.parse]
    reads as an array: when the timer expires [parseSpec] returns at the
    flag.  The text is [[1]], the document is still [{}], no error is
    shown, and the edit is never parsed. *)
Theorem C3_user_edit_consumed_as_echo :
  let c0 := Demo.at_rest VNull in
  let c1 := timer_fires Demo.env (user_edit "{}" c0) in
  let c2 := timer_fires Demo.env (user_edit "[1]" c1) in
  (isUpdatingFromView (state c0) = false /\ pending c0 = false) /\
  (specString (state c1) = "{}" /\ parsedSpec (state c1) = VObj [] /\
   isUpdatingFromView (state c1) = true /\ pending c1 = false) /\
  (JSON_parse Demo.env "[1]" = Some (VArr [VNum 1]) /\
   specString (state c2) = "[1]" /\ parsedSpec (state c2) = VObj [] /\
   parseError (state c2) = None /\
   isUpdatingFromView (state c2) = false /\ pending c2 = false).
Proof. repeat split. Qed.

End ControllerClaims.

(** * The reference resolver *)

Section ResolverFacts.
Import JS Utils.
Local Open Scope list_scope.

Lemma split_nonempty sep s : split sep s <> [].
Proof.
  destruct s as [ | c s ]; simpl; [ discriminate | ].
  destruct (Ascii.eqb c sep); [ discriminate | ].
  destruct (split sep s); discriminate.
Qed.

(** [split] cuts exactly at the separators. *)
Lemma join_split sep s : join sep (split sep s) = s.
Proof.
  induction s as [ | c s IH ]; simpl; auto.
  destruct (Ascii.eqb_spec c sep) as [-> | Hne].
  - pose proof (split_nonempty sep s) as Hs.
    destruct (split sep s) as [ | h t ]; [ contradiction | ].
    simpl in *. destruct t; rewrite IH; reflexivity.
  - pose proof (split_nonempty sep s) as Hs.
    destruct (split sep s) as [ | h t ]; [ contradiction | ].
    destruct t; simpl in *; now rewrite <- IH.
Qed.

Lemma split_segments sep s :
  Forall (fun segment => contains sep segment = false) (split sep s).
Proof.
  induction s as [ | c s IH ]; simpl.
  - constructor; auto.
  - destruct (Ascii.eqb_spec c sep) as [-> | Hne].
    + constructor; auto.
    + pose proof (split_nonempty sep s) as Hs.
      destruct (split sep s) as [ | h t ]; [ contradiction | ].
      inversion IH; subst. constructor; auto. simpl.
      destruct (Ascii.eqb_spec c sep); [ contradiction | auto ].
Qed.

Lemma startsWith_hash_slash ref :
  startsWith ref "#/" = true <-> exists rest, ref = ("#/" ++ rest)%string.
Proof.
  unfold startsWith. split.
  - intros H. apply prefix_correct in H.
    destruct ref as [ | a [ | b rest ] ]; simpl in H; try discriminate.
    exists rest. now injection H as -> -> _.
  - intros [rest ->]. apply prefix_correct. simpl. now destruct rest.
Qed.

End ResolverFacts.

Section ResolverClaim.
Import JS.
Local Open Scope list_scope.

Lemma get_in_undefined (keys : list string) :
  Lodash.get_in VUndef keys = VUndef.
Proof. now destruct keys. Qed.

Lemma array_index_not_length (k : string) (i : N) :
  array_index k = Some i ->
  String.eqb k "length" = false /\ canonical_N k = Some i.
Proof.
  intros Hi. pose proof (array_index_canonical _ _ Hi) as Hk.
  split; [ | exact Hk ].
  rewrite (canonical_N_inv _ _ Hk). apply key_of_N_not_length.
Qed.

(** On a walk that reads locations only, [get] reads the node that the
    specification locates, and [undefined] where there is none. *)
Lemma get_in_locate (keys : list string) : forall o,
  Lodash.reads_locations o keys = true ->
  Lodash.get_in o keys
  = match Spec.locate o keys with
    | Some node => node
    | None => VUndef
    end.
Proof.
  induction keys as [ | k rest IH ]; intros o Hreads; [ reflexivity | ].
  destruct o as [ | | b | n | s | xs | ps ]; try discriminate; try reflexivity.
  - cbn [Lodash.reads_locations] in Hreads. cbn [Lodash.get_in nullish].
    cbn [Spec.locate Spec.child].
    destruct (array_index k) as [i | ] eqn:Hi; [ | discriminate ].
    destruct (array_index_not_length _ _ Hi) as [Hlength Hcanonical].
    unfold prop. rewrite Hlength, Hcanonical.
    destruct (nth_error xs (N.to_nat i)) as [c | ] eqn:Hnth.
    + rewrite (nth_error_nth _ _ VUndef Hnth) in *. now apply IH.
    + apply nth_error_None in Hnth. rewrite nth_overflow by exact Hnth.
      apply get_in_undefined.
  - cbn [Lodash.reads_locations] in Hreads. cbn [Lodash.get_in nullish].
    cbn [Spec.locate Spec.child]. unfold prop.
    destruct (own_get ps k) as [c | ]; [ now apply IH | ].
    apply get_in_undefined.
Qed.

Lemma substring_after_prefix (rest : string) :
  Utils.substring_from 2 ("#/" ++ rest)%string = rest.
Proof. reflexivity. Qed.

End ResolverClaim.

(** C8, as the claim states it, fails where property access reads something
    that is no location of the document: under the sequence [tags] of the
    petstore document there is no location [length], and the scalar
    [openapi] has no location below it, yet [resolveRef] returns the number
    of the tags and the first character of the version, not [null]. *)
Lemma C8_length_and_character_resolve :
  (Spec.resolve Demo.petstore "#/tags/length" = None /\
   Utils.resolveRef Demo.petstore "#/tags/length" = JS.VNum 3) /\
  (Spec.resolve Demo.petstore "#/openapi/0" = None /\
   Utils.resolveRef Demo.petstore "#/openapi/0" = JS.VStr "3").
Proof. repeat split. Qed.

(** C8: [resolveRef] returns [null] for a [ref] that does not start with
    [#/].  For [#/] followed by [rest] it walks from the root along the
    pieces of [rest] between the [/] - joined by [/] they give [rest] back
    and none holds a [/].  Where the walk reads locations of the document
    only (each step a key of a mapping, own or naming no inherited member,
    or an index of a sequence), [resolveRef] returns the node that the
    specification's [resolve] finds at that location, and [null] where that
    location is absent or holds [null] or [undefined].  The function is a
    function of [spec] and [ref] alone: it reads, and writes nothing. *)
Theorem C8_resolveRef (spec : JS.value) (ref : string) :
  (Utils.startsWith ref "#/" = false ->
   Utils.resolveRef spec ref = JS.VNull /\ Spec.resolve spec ref = None) /\
  (forall rest, ref = ("#/" ++ rest)%string ->
     Utils.join "/" (Utils.split "/" rest) = rest /\
     Forall (fun piece => Utils.contains "/" piece = false) (Utils.split "/" rest) /\
     Spec.resolve spec ref = Spec.locate spec (Utils.split "/" rest) /\
     (Lodash.reads_locations spec (Utils.split "/" rest) = true ->
      Utils.resolveRef spec ref
      = match Spec.resolve spec ref with
        | Some node => if JS.nullish node then JS.VNull else node
        | None => JS.VNull
        end)).
Proof.
  split.
  - unfold Utils.resolveRef, Spec.resolve. now intros ->.
  - intros rest ->. split; [ apply join_split | ].
    split; [ apply split_segments | ].
    assert (Hprefix : Utils.startsWith ("#/" ++ rest)%string "#/" = true)
      by (apply startsWith_hash_slash; now exists rest).
    assert (Hspec : Spec.resolve spec ("#/" ++ rest)%string
                    = Spec.locate spec (Utils.split "/" rest)).
    { unfold Spec.resolve. now rewrite Hprefix, substring_after_prefix. }
    split; [ exact Hspec | ]. intros Hreads. rewrite Hspec.
    unfold Utils.resolveRef. rewrite Hprefix. cbn [negb].
    unfold Utils.ref_steps, Lodash.get_or. rewrite substring_after_prefix.
    assert (Hget : Lodash.get spec (map JS.SKey (Utils.split "/" rest))
                   = Lodash.get_in spec (Utils.split "/" rest)).
    { pose proof (split_nonempty "/"%char rest) as Hne.
      unfold Lodash.get. rewrite map_map. cbn [JS.toKey]. rewrite map_id.
      now destruct (Utils.split "/" rest). }
    rewrite Hget, (get_in_locate _ _ Hreads).
    destruct (Spec.locate spec (Utils.split "/" rest)) as [node | ];
      [ now destruct node | reflexivity ].
Qed.

(** C8 on the petstore document: no prefix, an absent schema, the property
    [id] of the schema [Pet]. *)
Lemma C8_resolveRef_witness :
  Utils.resolveRef Demo.petstore "components/schemas/Pet" = JS.VNull /\
  Utils.resolveRef Demo.petstore "#/components/schemas/Dog" = JS.VNull /\
  Utils.resolveRef Demo.petstore "#/components/schemas/Pet/properties/id"
  = JS.VObj [("type", JS.VStr "integer")].
Proof.
  split; [ | split ].
  - destruct (C8_resolveRef Demo.petstore "components/schemas/Pet") as [Hout _].
    exact (proj1 (Hout eq_refl)).
  - destruct (C8_resolveRef Demo.petstore "#/components/schemas/Dog") as [_ Hin].
    destruct (Hin "components/schemas/Dog" eq_refl) as (_ & _ & _ & Hfound).
    exact (Hfound eq_refl).
  - destruct (C8_resolveRef Demo.petstore
                "#/components/schemas/Pet/properties/id") as [_ Hin].
    destruct (Hin "components/schemas/Pet/properties/id" eq_refl)
      as (_ & _ & _ & Hfound).
    exact (Hfound eq_refl).
Defined.

(** * Claims about the mutation engine *)

Section MutationClaims.
Import JS App.
Local Open Scope list_scope.

Lemma last_step (parent : Path) (itemKey : step) :
  last (map Some (parent ++ [itemKey])) None = Some itemKey.
Proof. rewrite map_app. simpl. apply last_last. Qed.

(** What [handleRemoveItemByPath] returns when the parent is an array. *)
Lemma remove_from_array env parent itemKey d xs :
  Lodash.get d parent = VArr xs ->
  handleRemoveItemByPath env (parent ++ [itemKey]) d =
  modify_at (map toKey parent)
    (fun _ => VArr (splice1 xs (Number_of_step env itemKey))) d.
Proof.
  intros Hparent. unfold handleRemoveItemByPath.
  rewrite (get_object_truthy d parent) by now rewrite Hparent.
  rewrite cloneDeep_id, removelast_last, last_step, Hparent. reflexivity.
Qed.

(** What it returns when the parent is a plain object. *)
Lemma remove_from_object env parent itemKey d ps :
  Lodash.get d parent = VObj ps ->
  handleRemoveItemByPath env (parent ++ [itemKey]) d =
  modify_at (map toKey parent) (fun _ => VObj (own_delete ps (toKey itemKey))) d.
Proof.
  intros Hparent. unfold handleRemoveItemByPath.
  rewrite (get_object_truthy d parent) by now rewrite Hparent.
  rewrite cloneDeep_id, removelast_last, last_step, Hparent. reflexivity.
Qed.

Lemma splice1_in_range xs i :
  i < List.length xs -> splice1 xs (Fin (Z.of_nat i)) = remove_nth i xs.
Proof.
  intros Hi. unfold splice1, splice_position.
  destruct (Z.ltb_spec (Z.of_nat i) 0); [ lia | ].
  rewrite Nat2Z.id. f_equal. lia.
Qed.

(** The root is not a parent: for a path of one step the parent path is
    empty, [get] reads [undefined] there, and the document is returned as it
    was. *)
Lemma remove_at_root env itemKey d :
  truthy d = true -> handleRemoveItemByPath env [itemKey] d = d.
Proof.
  intros Hd. unfold handleRemoveItemByPath. now rewrite Hd, cloneDeep_id.
Qed.

(** C5, as the claim states it, fails for a path of one step: the root of
    the petstore document is a mapping with the key [tags], and
    [handleRemoveItemByPath] on [['tags']] returns the document with the key
    still there. *)
Lemma C5_top_level_key_not_removed :
  handleRemoveItemByPath Demo.env [SKey "tags"] Demo.petstore = Demo.petstore /\
  prop Demo.petstore "tags" = VArr [VStr "pets"; VStr "store"; VStr "user"].
Proof. split; reflexivity. Qed.

(** C5: [handleRemoveItemByPath] on the path [parent ++ [itemKey]], the
    parent being what [get] reads at [parent].
    - The parent is an array and the last step is the number [i] of one of
      its elements, or a string that [Number] reads as [i]: exactly that
      element goes; the array is one shorter, the positions before [i] read
      as before, and every position [j] after [i] is read, afterwards, at
      [j - 1].
    - The parent is a plain object: the key is deleted, the other keys read
      as before, and the path reads [undefined] afterwards (for a key that
      does not name an inherited member).
    - The parent is absent (or is no container at all) in a document that is
      present: the document is returned as it was.
    - The path has one step: the parent path is empty, which [get] reads as
      [undefined], and the document is returned as it was, whatever its
      root.
    The handler returns a document in every case; it has no failing
    outcome. *)
Theorem C5_RemoveItem (env : Env) (parent : Path) (d : value) :
  (forall xs i,
     Lodash.get d parent = VArr xs ->
     i < List.length xs ->
     let r := handleRemoveItemByPath env (parent ++ [SIdx (N.of_nat i)]) d in
     Lodash.get r parent = VArr (remove_nth i xs) /\
     S (List.length (remove_nth i xs)) = List.length xs /\
     (forall j, j < i ->
        Lodash.get r (parent ++ [SIdx (N.of_nat j)])
        = Lodash.get d (parent ++ [SIdx (N.of_nat j)])) /\
     (forall j, i < j ->
        Lodash.get r (parent ++ [SIdx (N.of_nat (j - 1))])
        = Lodash.get d (parent ++ [SIdx (N.of_nat j)]))) /\
  (forall xs s i,
     Lodash.get d parent = VArr xs ->
     Number_of_string env s = Fin (Z.of_nat i) ->
     handleRemoveItemByPath env (parent ++ [SKey s]) d
     = handleRemoveItemByPath env (parent ++ [SIdx (N.of_nat i)]) d) /\
  (forall ps itemKey,
     Lodash.get d parent = VObj ps ->
     let r := handleRemoveItemByPath env (parent ++ [itemKey]) d in
     Lodash.get r parent = VObj (own_delete ps (toKey itemKey)) /\
     (inherited_name (toKey itemKey) = false ->
      Lodash.get r (parent ++ [itemKey]) = VUndef) /\
     (forall s, toKey s <> toKey itemKey ->
        Lodash.get r (parent ++ [s]) = Lodash.get d (parent ++ [s]))) /\
  (forall itemKey,
     truthy d = true -> is_object (Lodash.get d parent) = false ->
     handleRemoveItemByPath env (parent ++ [itemKey]) d = d) /\
  (forall itemKey,
     truthy d = true -> handleRemoveItemByPath env [itemKey] d = d).
Proof.
  split; [ | split; [ | split; [ | split ] ] ].
  - intros xs i Hparent Hi r.
    assert (Hr : Lodash.get r parent = VArr (remove_nth i xs)).
    { subst r. rewrite (remove_from_array _ _ _ _ xs) by assumption.
      rewrite get_modify_at by now rewrite Hparent.
      simpl Number_of_step. now rewrite nat_N_Z, splice1_in_range. }
    split; [ exact Hr | ]. split; [ now apply length_remove_nth | ].
    split; intros j Hj.
    + rewrite !get_snoc by now rewrite ?Hr, ?Hparent.
      rewrite Hr, Hparent. simpl toKey. rewrite !prop_element, !Nat2N.id.
      now apply nth_remove_nth_before.
    + rewrite !get_snoc by now rewrite ?Hr, ?Hparent.
      rewrite Hr, Hparent. simpl toKey. rewrite !prop_element, !Nat2N.id.
      rewrite nth_remove_nth_after by lia. f_equal. lia.
  - intros xs s i Hparent Hnum.
    rewrite !(remove_from_array _ _ _ _ xs) by assumption.
    simpl Number_of_step. now rewrite Hnum, nat_N_Z.
  - intros ps itemKey Hparent r.
    assert (Hr : Lodash.get r parent = VObj (own_delete ps (toKey itemKey))).
    { subst r. rewrite (remove_from_object _ _ _ _ ps) by assumption.
      now rewrite get_modify_at by now rewrite Hparent. }
    split; [ exact Hr | ]. split.
    + intros _. rewrite get_snoc by now rewrite Hr.
      rewrite Hr. simpl. now rewrite own_get_delete_same.
    + intros s Hs. rewrite !get_snoc by now rewrite ?Hr, ?Hparent.
      rewrite Hr, Hparent. simpl. now rewrite own_get_delete_other.
  - intros itemKey Hd Hparent. unfold handleRemoveItemByPath.
    rewrite Hd, cloneDeep_id, removelast_last. simpl negb. cbv iota.
    destruct (Lodash.get d parent); try discriminate; reflexivity.
  - intros itemKey Hd. now apply remove_at_root.
Qed.

(** C5 on the petstore document: the second of the three tags, the schema
    [Pet], a server of the absent [servers], the key [openapi] of the
    root. *)
Lemma C5_RemoveItem_witness :
  (Lodash.get
     (handleRemoveItemByPath Demo.env ([SKey "tags"] ++ [SIdx 1]) Demo.petstore)
     [SKey "tags"] = VArr [VStr "pets"; VStr "user"] /\
   Lodash.get
     (handleRemoveItemByPath Demo.env ([SKey "tags"] ++ [SIdx 1]) Demo.petstore)
     ([SKey "tags"] ++ [SIdx 1]) = VStr "user" /\
   handleRemoveItemByPath Demo.env ([SKey "tags"] ++ [SKey "1"]) Demo.petstore
   = handleRemoveItemByPath Demo.env ([SKey "tags"] ++ [SIdx 1]) Demo.petstore) /\
  Lodash.get
    (handleRemoveItemByPath Demo.env
       ([SKey "components"; SKey "schemas"] ++ [SKey "Pet"]) Demo.petstore)
    ([SKey "components"; SKey "schemas"] ++ [SKey "Pet"]) = VUndef /\
  handleRemoveItemByPath Demo.env ([SKey "servers"] ++ [SIdx 0]) Demo.petstore
  = Demo.petstore /\
  handleRemoveItemByPath Demo.env [SKey "openapi"] Demo.petstore
  = Demo.petstore.
Proof.
  destruct (C5_RemoveItem Demo.env [SKey "tags"] Demo.petstore)
    as (Harr & Hstring & _).
  destruct (C5_RemoveItem Demo.env [SKey "components"; SKey "schemas"]
              Demo.petstore) as (_ & _ & Hobj & _).
  destruct (C5_RemoveItem Demo.env [SKey "servers"] Demo.petstore)
    as (_ & _ & _ & Habsent & Hroot).
  split; [ | split; [ | split ] ].
  - destruct (Harr [VStr "pets"; VStr "store"; VStr "user"] 1 eq_refl)
      as (Hr & _ & _ & Hafter); [ simpl; lia | ].
    split; [ exact Hr | ]. split.
    + transitivity (Lodash.get Demo.petstore ([SKey "tags"] ++ [SIdx 2]));
        [ apply (Hafter 2); lia | reflexivity ].
    + exact (Hstring [VStr "pets"; VStr "store"; VStr "user"] "1" 1
               eq_refl eq_refl).
  - destruct (Hobj _ (SKey "Pet") eq_refl) as (_ & Hgone & _).
    exact (Hgone eq_refl).
  - exact (Habsent (SIdx 0) eq_refl eq_refl).
  - exact (Hroot (SKey "openapi") eq_refl).
Defined.

(** What [handleAddItem] returns when the collection is a plain object and
    the payload has a first entry. *)
Lemma add_to_object path k v rest d ps :
  Lodash.get d path = VObj ps ->
  stores ps k = true ->
  handleAddItem path (VObj ((k, v) :: rest)) d =
  Ok (modify_at (map toKey path) (fun _ => VObj (own_set ps k v)) d).
Proof.
  intros Hcollection Hstores. unfold handleAddItem.
  rewrite (get_object_truthy d path) by now rewrite Hcollection.
  rewrite cloneDeep_id, Hcollection. simpl. rewrite Hcollection.
  cbn [bind fst snd]. now rewrite Hstores.
Qed.

(** A key other than [__proto__] is stored. *)
Lemma stores_other ps k : k <> "__proto__" -> stores ps k = true.
Proof.
  intros Hk. unfold stores. now destruct (String.eqb_spec k "__proto__").
Qed.

Lemma safe_key_stored ps k : Lodash.unsafe_key k = false -> stores ps k = true.
Proof.
  intros Hk. apply stores_other. intros ->. discriminate.
Qed.

(** The root is not a collection: at the empty path [get] reads
    [undefined], [set] writes nothing, and the document is returned as it
    was. *)
Lemma add_at_root item d :
  truthy d = true -> handleAddItem [] item d = Ok d.
Proof.
  intros Hd. unfold handleAddItem. rewrite Hd, cloneDeep_id. simpl.
  unfold Lodash.set. now destruct (is_object d).
Qed.

(** C6, as the claim states it, fails for the empty path: the root of the
    petstore document is a mapping, and [handleAddItem] on [[]] returns the
    document without the pair of the payload. *)
Lemma C6_root_mapping_not_merged :
  handleAddItem [] (VObj [("x-tag", VNum 1)]) Demo.petstore = Ok Demo.petstore /\
  prop Demo.petstore "x-tag" = VUndef /\
  prop Demo.petstore "openapi" = VStr "3.0.0".
Proof. repeat split. Qed.

(** C6: the collection that [get] reads at [path] is a plain object and the
    payload is a plain object whose first entry is [(k, v)], with a key that
    an assignment stores ([__proto__] is stored only in a collection that
    has it).  [handleAddItem] returns a document, never an exception,
    whatever the other entries [rest] of the payload and whether or not the
    collection has the key [k] already.  In the document returned the
    collection is the former one with [k] set to [v]: the key [k] reads [v],
    replacing what it read before, and every other key, those of [rest]
    included, reads as before.  At the empty path [get] reads no collection:
    the document is returned as it was, whatever its root. *)
Theorem C6_AddItem_into_mapping
  (path : Path) (k : string) (v : value) (rest ps : list (string * value))
  (d : value) :
  (Lodash.get d path = VObj ps ->
   stores ps k = true ->
   exists r,
     handleAddItem path (VObj ((k, v) :: rest)) d = Ok r /\
     Lodash.get r path = VObj (own_set ps k v) /\
     Lodash.get r (path ++ [SKey k]) = v /\
     (forall k', k' <> k ->
        Lodash.get r (path ++ [SKey k']) = Lodash.get d (path ++ [SKey k']))) /\
  (truthy d = true -> handleAddItem [] (VObj ((k, v) :: rest)) d = Ok d).
Proof.
  split; [ | now apply add_at_root ]. intros Hcollection Hstores.
  exists (modify_at (map toKey path) (fun _ => VObj (own_set ps k v)) d).
  assert (Hr : Lodash.get
                 (modify_at (map toKey path) (fun _ => VObj (own_set ps k v)) d)
                 path = VObj (own_set ps k v))
    by now rewrite get_modify_at by now rewrite Hcollection.
  split; [ now apply add_to_object | ]. split; [ exact Hr | ]. split.
  - rewrite get_snoc by now rewrite Hr.
    rewrite Hr. simpl. now rewrite own_get_set_same.
  - intros k' Hk'. rewrite !get_snoc by now rewrite ?Hr, ?Hcollection.
    rewrite Hr, Hcollection. simpl. now rewrite own_get_set_other.
Qed.

(** C6 on the petstore document: a payload of two entries, the first naming
    the existing schema [Pet]; the same payload at the empty path. *)
Lemma C6_AddItem_into_mapping_witness :
  (exists r,
     handleAddItem [SKey "components"; SKey "schemas"]
       (VObj [("Pet", VObj [("type", VStr "string")]); ("Dog", VObj [])])
       Demo.petstore = Ok r /\
     Lodash.get r ([SKey "components"; SKey "schemas"] ++ [SKey "Pet"])
       = VObj [("type", VStr "string")] /\
     Lodash.get r ([SKey "components"; SKey "schemas"] ++ [SKey "Dog"]) = VUndef) /\
  handleAddItem []
    (VObj [("Pet", VObj [("type", VStr "string")]); ("Dog", VObj [])])
    Demo.petstore = Ok Demo.petstore.
Proof.
  let schemas :=
    match eval vm_compute in
      (Lodash.get Demo.petstore [SKey "components"; SKey "schemas"]) with
    | VObj ?l => l
    end in
  destruct (C6_AddItem_into_mapping [SKey "components"; SKey "schemas"]
              "Pet" (VObj [("type", VStr "string")]) [("Dog", VObj [])]
              schemas Demo.petstore) as [Hmerge Hroot].
  split; [ | exact (Hroot eq_refl) ].
  destruct (Hmerge eq_refl eq_refl) as (r & Hok & _ & Hset & Hothers).
  exists r. split; [ exact Hok | ]. split; [ exact Hset | ].
  rewrite (Hothers "Dog"); [ reflexivity | discriminate ].
Defined.

(** *** [handleToggleRequired] *)

Lemma indexOf_none xs k : indexOf xs k = None <-> occurrences k xs = 0.
Proof.
  induction xs as [ | x xs IH ]; simpl; [ tauto | ].
  destruct x; try (destruct (indexOf xs k); simpl; split; intros H;
                   try discriminate; try (apply IH in H; discriminate);
                   tauto).
  destruct (String.eqb s k); simpl.
  - split; discriminate.
  - destruct (indexOf xs k); simpl; split; intros H;
      try discriminate; try (apply IH in H; discriminate); tauto.
Qed.

Lemma occurrences_remove_nth xs k : forall i,
  indexOf xs k = Some i ->
  S (occurrences k (remove_nth i xs)) = occurrences k xs.
Proof.
  induction xs as [ | x xs IH ]; simpl; [ discriminate | ].
  intros i. destruct x;
    try (destruct (indexOf xs k) eqn:E; simpl; [ | discriminate ];
         intros [= <-]; simpl; now apply IH).
  destruct (String.eqb s k) eqn:Hs.
  - intros [= <-]. reflexivity.
  - destruct (indexOf xs k) eqn:E; simpl; [ | discriminate ].
    intros [= <-]. simpl. rewrite Hs. now apply IH.
Qed.

Lemma indexOf_pushed xs k : indexOf (xs ++ [VStr k]) k <> None.
Proof.
  rewrite indexOf_none. induction xs as [ | x xs IH ]; simpl.
  - now rewrite String.eqb_refl.
  - destruct x; auto. destruct (String.eqb s k); simpl; auto.
Qed.

(** Leaving the array alone a second time. *)
Lemma push_or_splice_again xs k b :
  (b = false -> occurrences k xs <= 1) ->
  push_or_splice (push_or_splice xs k b) k b = push_or_splice xs k b.
Proof.
  intros Hocc. unfold push_or_splice at 2.
  destruct (indexOf xs k) as [i | ] eqn:Hi; destruct b.
  - reflexivity.
  - pose proof (occurrences_remove_nth _ _ _ Hi) as Hrem.
    assert (Hnone : indexOf (remove_nth i xs) k = None)
      by (apply indexOf_none; specialize (Hocc eq_refl); lia).
    unfold push_or_splice. now rewrite Hnone, Hi.
  - unfold push_or_splice. rewrite Hi.
    destruct (indexOf (xs ++ [VStr k]) k) eqn:E; auto.
    now apply indexOf_pushed in E.
  - reflexivity.
Qed.

Lemma push_or_splice_true_nonempty xs k : push_or_splice xs k true <> [].
Proof.
  unfold push_or_splice. destruct (indexOf xs k) eqn:Hi.
  - destruct xs; [ discriminate | discriminate ].
  - now destruct xs.
Qed.

Lemma own_delete_replace ps k v : own_delete (own_replace ps k v) k = own_delete ps k.
Proof.
  induction ps as [ | [k' v'] ps IH ]; simpl; auto.
  destruct (String.eqb_spec k' k); simpl.
  - subst. now rewrite String.eqb_refl.
  - destruct (String.eqb_spec k' k); [ contradiction | ]. now rewrite IH.
Qed.

Lemma own_delete_insert_index ps n k v :
  own_delete (own_insert_index ps n k v) k = own_delete ps k.
Proof.
  induction ps as [ | [k' v'] ps IH ]; simpl.
  - now rewrite String.eqb_refl.
  - destruct (array_index k'); simpl.
    + destruct (n0 <? n)%N; simpl.
      * now rewrite IH.
      * now rewrite String.eqb_refl.
    + now rewrite String.eqb_refl.
Qed.

Lemma own_delete_set ps k v : own_delete (own_set ps k v) k = own_delete ps k.
Proof.
  unfold own_set. destruct (has_own ps k).
  - apply own_delete_replace.
  - destruct (array_index k).
    + apply own_delete_insert_index.
    + rewrite own_delete_app. simpl. rewrite String.eqb_refl. apply app_nil_r.
Qed.

Lemma own_delete_delete ps k : own_delete (own_delete ps k) k = own_delete ps k.
Proof. apply own_delete_absent, own_get_delete_same. Qed.

(** [toggle_required] on a schema without a truthy [required]. *)
Lemma toggle_required_fresh ps k b :
  truthy (prop (VObj ps) "required") = false ->
  toggle_required ps k b =
  if b then Ok (VObj (own_update (own_set ps "required" (VArr [])) "required"
                        (fun _ => VArr [VStr k])))
  else Ok (VObj (own_delete ps "required")).
Proof.
  intros Hreq. unfold toggle_required. rewrite Hreq. simpl negb. cbv iota.
  simpl prop. rewrite own_get_set_same. unfold push_or_splice. simpl.
  destruct b; [ reflexivity | ]. now rewrite own_delete_set.
Qed.

(** [toggle_required] on a schema with a truthy [required]. *)
Lemma toggle_required_kept ps k b req :
  own_get ps "required" = Some req ->
  truthy req = true ->
  toggle_required ps k b =
  match req with
  | VArr xs =>
      match push_or_splice xs k b with
      | [] => Ok (VObj (own_delete ps "required"))
      | ys => Ok (VObj (own_update ps "required" (fun _ => VArr ys)))
      end
  | VStr s =>
      match String.index 0 k s with
      | None => if b then Throw (not_a_function "requiredArray.push")
                else Ok (VObj ps)
      | Some _ => if b then Ok (VObj ps)
                  else Throw (not_a_function "requiredArray.splice")
      end
  | _ => Throw (not_a_function "requiredArray.indexOf")
  end.
Proof.
  intros Hreq Htruthy. unfold toggle_required. simpl prop.
  rewrite Hreq, Htruthy. simpl negb. cbv iota. now rewrite Hreq.
Qed.

(** A second application to the schema that the first returned returns it
    again. *)
Lemma toggle_required_again ps k b s1 :
  toggle_required ps k b = Ok s1 ->
  (b = false ->
   forall xs, prop (VObj ps) "required" = VArr xs -> occurrences k xs <= 1) ->
  exists ps1, s1 = VObj ps1 /\ toggle_required ps1 k b = Ok (VObj ps1).
Proof.
  intros Hfirst Hocc.
  destruct (truthy (prop (VObj ps) "required")) eqn:Htruthy.
  - simpl in Htruthy, Hocc.
    destruct (own_get ps "required") as [req | ] eqn:Hreq; [ | discriminate ].
    rewrite (toggle_required_kept _ _ _ req Hreq Htruthy) in Hfirst.
    destruct req as [ | | c | n | s | xs | qs ]; try discriminate.
    + exists ps. split.
      * destruct (index 0 k s); destruct b; congruence.
      * rewrite (toggle_required_kept _ _ _ _ Hreq Htruthy).
        destruct (index 0 k s); destruct b; congruence.
    + assert (Hagain := push_or_splice_again xs k b
                          (fun Hb => Hocc Hb xs eq_refl)).
      destruct (push_or_splice xs k b) as [ | y ys ] eqn:Hys.
      * injection Hfirst as <-. exists (own_delete ps "required").
        split; [ reflexivity | ].
        destruct b; [ now apply push_or_splice_true_nonempty in Hys | ].
        rewrite toggle_required_fresh
          by (simpl; now rewrite own_get_delete_same).
        now rewrite own_delete_delete.
      * injection Hfirst as <-.
        exists (own_update ps "required" (fun _ => VArr (y :: ys))).
        split; [ reflexivity | ].
        rewrite (toggle_required_kept _ _ _ (VArr (y :: ys)))
          by (auto; now rewrite own_get_update, Hreq).
        rewrite Hagain. rewrite own_update_update. reflexivity.
  - rewrite toggle_required_fresh in Hfirst by assumption.
    destruct b; injection Hfirst as <-.
    + eexists. split; [ reflexivity | ].
      rewrite (toggle_required_kept _ _ _ (VArr [VStr k]))
        by (auto; now rewrite own_get_update, own_get_set_same).
      unfold push_or_splice. simpl. rewrite String.eqb_refl.
      now rewrite own_update_update.
    + eexists. split; [ reflexivity | ].
      rewrite toggle_required_fresh
        by (simpl; now rewrite own_get_delete_same).
      now rewrite own_delete_delete.
Qed.

(** The schema returned never holds an empty [required]; toggling the only
    member off leaves no [required] at all. *)
Lemma toggle_required_not_empty ps k b ps1 :
  toggle_required ps k b = Ok (VObj ps1) ->
  own_get ps1 "required" <> Some (VArr []) /\
  (forall xs, own_get ps "required" = Some (VArr xs) ->
              push_or_splice xs k b = [] -> own_get ps1 "required" = None).
Proof.
  intros Hfirst.
  destruct (truthy (prop (VObj ps) "required")) eqn:Htruthy.
  - simpl in Htruthy.
    destruct (own_get ps "required") as [req | ] eqn:Hreq; [ | discriminate ].
    rewrite (toggle_required_kept _ _ _ req Hreq Htruthy) in Hfirst.
    destruct req as [ | | c | n | s | xs | qs ]; try discriminate.
    + assert (ps1 = ps)
        by (destruct (index 0 k s); destruct b; congruence).
      subst ps1. rewrite Hreq. split; [ discriminate | intros xs [=] ].
    + destruct (push_or_splice xs k b) as [ | y ys ] eqn:Hys;
        injection Hfirst as <-.
      * rewrite own_get_delete_same. split; [ discriminate | reflexivity ].
      * rewrite own_get_update, Hreq. simpl. split; [ discriminate | ].
        intros xs' [= <-]. congruence.
  - rewrite toggle_required_fresh in Hfirst by assumption.
    destruct b; injection Hfirst as <-.
    + rewrite own_get_update, own_get_set_same. simpl.
      split; [ discriminate | ].
      intros xs Hxs. simpl in Htruthy. now rewrite Hxs in Htruthy.
    + rewrite own_get_delete_same. split; [ discriminate | reflexivity ].
Qed.

(** What [handleToggleRequired] returns when the schema is a plain
    object. *)
Lemma toggle_on_object path k b d ps :
  Lodash.get d path = VObj ps ->
  handleToggleRequired path k b d =
  schema1 <- toggle_required ps k b ;;
  Ok (modify_at (map toKey path) (fun _ => schema1) d).
Proof.
  intros Hschema. unfold handleToggleRequired.
  rewrite (get_object_truthy d path) by now rewrite Hschema.
  now rewrite cloneDeep_id, Hschema.
Qed.

(** C4, as stated, fails: with [a] twice in the Required-set of the schema
    [S], toggling [a] off once leaves one [a], toggling it off twice leaves
    no Required-set. *)
Lemma C4_twice_differs_from_once :
  let d := VObj [("S", VObj [("required", VArr [VStr "a"; VStr "a"])])] in
  exists once twice,
    handleToggleRequired [SKey "S"] "a" false d = Ok once /\
    handleToggleRequired [SKey "S"] "a" false once = Ok twice /\
    required_set [SKey "S"] once = VArr [VStr "a"] /\
    required_set [SKey "S"] twice = VUndef /\
    required_set [SKey "S"] twice <> required_set [SKey "S"] once.
Proof.
  simpl. eexists. eexists. split; [ reflexivity | ].
  split; [ reflexivity | ]. split; [ reflexivity | ].
  split; [ reflexivity | ]. vm_compute. discriminate.
Qed.

(** C4, amended: let [handleToggleRequired] return the document [once].
    Applied to [once] it returns [once] again, so the Required-set is that
    of one application, provided that, when the key is toggled off, it
    occurs at most once in the Required-set of the schema.  Where the schema
    is a plain object, the schema returned never has an empty sequence as its
    [required]; when the removal empties the Required-set the schema
    returned has no [required] at all. *)
Theorem C4_ToggleRequired_idempotent
  (schemaPath : Path) (propertyKey : string) (makeRequired : bool)
  (d once : value) :
  handleToggleRequired schemaPath propertyKey makeRequired d = Ok once ->
  (makeRequired = false ->
   forall xs, required_set schemaPath d = VArr xs ->
              occurrences propertyKey xs <= 1) ->
  handleToggleRequired schemaPath propertyKey makeRequired once = Ok once /\
  (forall ps, Lodash.get d schemaPath = VObj ps ->
     exists ps1,
       Lodash.get once schemaPath = VObj ps1 /\
       own_get ps1 "required" <> Some (VArr []) /\
       (forall xs i,
          own_get ps "required" = Some (VArr xs) ->
          makeRequired = false ->
          indexOf xs propertyKey = Some i ->
          remove_nth i xs = [] ->
          own_get ps1 "required" = None)).
Proof.
  intros Hfirst Hocc.
  destruct (truthy d) eqn:Hd.
  2:{ unfold handleToggleRequired in Hfirst. rewrite Hd in Hfirst.
      injection Hfirst as <-. split; [ reflexivity | ].
      intros ps Hschema.
      pose proof (get_of_scalar d schemaPath (falsy_not_object _ Hd)) as Hno.
      rewrite Hschema in Hno. discriminate. }
  destruct (Lodash.get d schemaPath) as [ | | c | n | s | xs | ps ] eqn:Hschema.
  1-5: (unfold handleToggleRequired in Hfirst |- *;
        rewrite Hd, cloneDeep_id, Hschema in Hfirst; injection Hfirst as <-;
        rewrite Hd, cloneDeep_id, Hschema; split; [ reflexivity | ];
        intros ? [=]).
  - unfold handleToggleRequired in Hfirst |- *.
    rewrite Hd, cloneDeep_id, Hschema in Hfirst.
    destruct makeRequired; [ discriminate | ]. injection Hfirst as <-.
    rewrite Hd, cloneDeep_id, Hschema. split; [ reflexivity | intros ? [=] ].
  - rewrite (toggle_on_object _ _ _ _ ps Hschema) in Hfirst.
    destruct (toggle_required ps propertyKey makeRequired) as [s1 | e | ] eqn:Ht;
      simpl in Hfirst; try discriminate.
    injection Hfirst as <-.
    assert (Hobj : is_object (Lodash.get d schemaPath) = true)
      by now rewrite Hschema.
    destruct (toggle_required_again _ _ _ _ Ht) as (ps1 & -> & Hagain).
    { intros Hb xs Hxs. apply (Hocc Hb). unfold required_set.
      rewrite get_snoc by assumption. now rewrite Hschema. }
    assert (Hread : Lodash.get
                      (modify_at (map toKey schemaPath) (fun _ => VObj ps1) d)
                      schemaPath = VObj ps1)
      by now rewrite get_modify_at.
    split.
    + rewrite (toggle_on_object _ _ _ _ ps1) by assumption.
      rewrite Hagain. simpl. now rewrite modify_at_modify_at.
    + intros ps' [= <-]. exists ps1. split; [ exact Hread | ].
      destruct (toggle_required_not_empty _ _ _ _ Ht) as [Hne Hgone].
      split; [ exact Hne | ].
      intros xs i Hreq -> Hi Hempty. apply (Hgone xs Hreq).
      unfold push_or_splice. now rewrite Hi.
Qed.

(** The amended C4 on a schema whose only required property is toggled
    off. *)
Lemma C4_ToggleRequired_idempotent_witness :
  let once := VObj [("S", VObj [("type", VStr "object")])] in
  handleToggleRequired [SKey "S"] "id" false once = Ok once /\
  (exists ps1,
     Lodash.get once [SKey "S"] = VObj ps1 /\ own_get ps1 "required" = None).
Proof.
  intros once.
  destruct (C4_ToggleRequired_idempotent [SKey "S"] "id" false
              (VObj [("S", VObj [("type", VStr "object");
                                 ("required", VArr [VStr "id"])])])
              once eq_refl) as [Hagain Hschema].
  - intros _ xs [= <-]. simpl. lia.
  - split; [ exact Hagain | ].
    destruct (Hschema _ eq_refl) as (ps1 & Hread & _ & Hgone).
    exists ps1. split; [ exact Hread | ].
    apply (Hgone [VStr "id"] 0); reflexivity.
Defined.

(** *** [handleAddItem] on a location that is absent *)

Lemma prop_assign o k v o' :
  assign o k v = Ok o' -> prop o' k = v /\ is_object o' = true.
Proof.
  destruct o as [ | | c | n | s | xs | ps ]; simpl; try discriminate.
  - destruct (array_index k) as [i | ] eqn:Hi; [ | discriminate ].
    intros [= <-]. split; [ | reflexivity ].
    apply array_index_canonical, canonical_N_inv in Hi. subst k.
    rewrite prop_element. apply nth_array_write.
  - intros [= <-]. simpl. now rewrite own_get_set_same.
Qed.

(** [get] after [set], along a path without the keys that [set] refuses. *)
Lemma get_in_set_in keys : forall o v o',
  is_object o = true ->
  keys <> [] ->
  forallb (fun k => negb (Lodash.unsafe_key k)) keys = true ->
  Lodash.set_in o keys v = Ok o' ->
  Lodash.get_in o' keys = v /\ is_object o' = true.
Proof.
  induction keys as [ | key rest IH ]; intros o v o' Ho Hne Hsafe Hset;
    [ contradiction | ].
  simpl in Hsafe. apply andb_prop in Hsafe as [Hkey Hrest].
  simpl in Hset. destruct (Lodash.unsafe_key key); [ discriminate | ].
  destruct rest as [ | next rest ].
  - destruct (prop_assign _ _ _ _ Hset) as [Hprop Ho'].
    split; [ | exact Ho' ]. simpl.
    now rewrite (is_object_not_nullish _ Ho'), Hprop.
  - set (newValue := if is_object (prop o key) then prop o key
                     else if Lodash.isIndex next then VArr [] else VObj [])
      in Hset.
    assert (Hnew : is_object newValue = true).
    { subst newValue. destruct (is_object (prop o key)) eqn:E; auto.
      now destruct (Lodash.isIndex next). }
    destruct (Lodash.set_in newValue (next :: rest) v) as [child | | ] eqn:Hchild;
      try discriminate.
    simpl in Hset.
    destruct (IH _ _ _ Hnew ltac:(discriminate) Hrest Hchild) as [Hget _].
    destruct (prop_assign _ _ _ _ Hset) as [Hprop Ho'].
    split; [ | exact Ho' ].
    change (Lodash.get_in o' (key :: next :: rest))
      with (if nullish o' then VUndef
            else Lodash.get_in (prop o' key) (next :: rest)).
    now rewrite (is_object_not_nullish _ Ho'), Hprop.
Qed.

(** Whenever [handleAddItem] is given an item that is no array for a
    location that reads [undefined], and returns a document, the location
    holds the item twice. *)
Lemma AddItem_on_absent_path_doubles (path : Path) (item d r : value) :
  is_object d = true ->
  path <> [] ->
  forallb (fun s => negb (Lodash.unsafe_key (toKey s))) path = true ->
  Lodash.get d path = VUndef ->
  isArray item = false ->
  handleAddItem path item d = Ok r ->
  Lodash.get r path = VArr [item; item].
Proof.
  intros Hd Hne Hsafe Habsent Hitem Hadd.
  unfold handleAddItem in Hadd.
  rewrite (is_object_truthy _ Hd), cloneDeep_id, Habsent, Hitem in Hadd.
  simpl in Hadd. unfold Lodash.set in Hadd. rewrite Hd in Hadd.
  destruct (Lodash.set_in d (map toKey path) (VArr [item])) as [n1 | | ] eqn:Hset;
    try discriminate.
  simpl in Hadd.
  assert (Hcreated : Lodash.get n1 path = VArr [item]).
  { destruct path as [ | s path ]; [ contradiction | ]. unfold Lodash.get.
    eapply get_in_set_in; eauto; [ discriminate | ].
    clear - Hsafe. revert Hsafe. generalize (s :: path).
    induction l as [ | s0 l IH ]; simpl; auto.
    intros H. apply andb_prop in H as [-> H]. simpl. now apply IH. }
  rewrite Hcreated in Hadd. injection Hadd as <-.
  now rewrite get_modify_at by now rewrite Hcreated.
Qed.

(** C2 fails on the code: the petstore document has no [servers]; adding a
    server, which is no array, leaves a [servers] of two elements, the
    server twice, not a sequence of one element. *)
Theorem C2_added_item_appears_twice :
  let server := VObj [("url", VStr "https://example.com/v1")] in
  Lodash.get Demo.petstore [SKey "servers"] = VUndef /\
  isArray server = false /\
  exists r,
    handleAddItem [SKey "servers"] server Demo.petstore = Ok r /\
    Lodash.get r [SKey "servers"] = VArr [server; server] /\
    Lodash.get r [SKey "servers"] <> VArr [server].
Proof.
  intros server. split; [ reflexivity | ]. split; [ reflexivity | ].
  eexists. split; [ reflexivity | ]. split; [ reflexivity | ].
  vm_compute. discriminate.
Qed.
End MutationClaims.

(** * [SchemaView]: circular references and termination *)

Section SchemaViewFacts.
Import JS PathItem.
Local Open Scope list_scope.

(** *** What a read can reach *)

Lemma size_member x xs : In x xs -> size x <= list_sum (map size xs).
Proof.
  induction xs as [ | y xs IH ]; simpl; [ tauto | ].
  intros [-> | H]; [ lia | ]. specialize (IH H). lia.
Qed.

Lemma size_field k v (ps : list (string * value)) :
  In (k, v) ps -> size v <= list_sum (map (fun kv => size (snd kv)) ps).
Proof.
  induction ps as [ | [k' v'] ps IH ]; simpl; [ tauto | ].
  intros [[= -> ->] | H]; [ lia | ]. specialize (IH H). lia.
Qed.

Lemma own_get_In ps k v : own_get ps k = Some v -> exists k', In (k', v) ps /\ k' = k.
Proof.
  induction ps as [ | [k' v'] ps IH ]; simpl; [ discriminate | ].
  destruct (String.eqb_spec k' k).
  - intros [= ->]. exists k'. auto.
  - intros H. destruct (IH H) as (k0 & Hin & Hk). exists k0. auto.
Qed.

Lemma refs_in_member x xs : In x xs -> incl (refs_in x) (flat_map refs_in xs).
Proof.
  intros Hin r Hr. apply in_flat_map. now exists x.
Qed.

Lemma refs_in_field k v (ps : list (string * value)) : In (k, v) ps -> incl (refs_in v) (refs_in (VObj ps)).
Proof.
  intros Hin r Hr. simpl. apply in_flat_map. exists (k, v). split; auto.
  apply in_or_app. now right.
Qed.

Lemma nth_member (xs : list value) i :
  nth i xs VUndef = VUndef \/ In (nth i xs VUndef) xs.
Proof.
  destruct (Nat.ltb_spec i (List.length xs)).
  - right. now apply nth_In.
  - left. now apply nth_overflow.
Qed.

(** A property of a container is smaller than the container and holds no
    reference that the container does not hold. *)
Lemma prop_smaller o k :
  is_object o = true ->
  size (prop o k) < size o /\ incl (refs_in (prop o k)) (refs_in o).
Proof.
  destruct o as [ | | c | n | s | xs | ps ]; try discriminate; intros _.
  - simpl prop. destruct (String.eqb k "length").
    + simpl. split; [ lia | apply incl_nil_l ].
    + destruct (canonical_N k) as [i | ].
      * destruct (nth_member xs (N.to_nat i)) as [-> | Hin].
        -- simpl. split; [ lia | apply incl_nil_l ].
        -- split; [ | now apply refs_in_member ].
           pose proof (size_member _ _ Hin). simpl. lia.
      * simpl. split; [ lia | apply incl_nil_l ].
  - simpl prop. destruct (own_get ps k) as [v | ] eqn:Hget.
    + destruct (own_get_In _ _ _ Hget) as (k' & Hin & _).
      split; [ | now apply (refs_in_field k') ].
      pose proof (size_field _ _ _ Hin). simpl. lia.
    + simpl. split; [ lia | apply incl_nil_l ].
Qed.

Lemma prop_of_scalar_small o k :
  is_object o = false -> size (prop o k) = 0 /\ refs_in (prop o k) = [].
Proof.
  intros Ho. pose proof (prop_of_scalar o k Ho) as Hp.
  destruct (prop o k); try discriminate; auto.
Qed.

Lemma prop_not_larger o k :
  size (prop o k) <= size o /\ incl (refs_in (prop o k)) (refs_in o).
Proof.
  destruct (is_object o) eqn:Ho.
  - destruct (prop_smaller o k Ho). split; [ lia | assumption ].
  - destruct (prop_of_scalar_small o k Ho) as [-> ->].
    split; [ lia | apply incl_nil_l ].
Qed.

Lemma get_in_not_larger keys : forall o,
  size (Lodash.get_in o keys) <= size o /\
  incl (refs_in (Lodash.get_in o keys)) (refs_in o).
Proof.
  induction keys as [ | k rest IH ]; intros o; simpl.
  - split; [ lia | apply incl_refl ].
  - destruct (nullish o).
    + simpl. split; [ lia | apply incl_nil_l ].
    + destruct (IH (prop o k)) as [Hs Hr].
      destruct (prop_not_larger o k) as [Hs' Hr'].
      split; [ lia | eapply incl_tran; eauto ].
Qed.

Lemma resolveRef_not_larger spec ref :
  size (Utils.resolveRef spec ref) <= size spec /\
  incl (refs_in (Utils.resolveRef spec ref)) (refs_in spec).
Proof.
  unfold Utils.resolveRef.
  destruct (negb (Utils.startsWith ref "#/")).
  - simpl. split; [ lia | apply incl_nil_l ].
  - unfold Lodash.get_or, Lodash.get.
    destruct (Utils.ref_steps ref) as [ | s p ].
    + simpl. split; [ lia | apply incl_nil_l ].
    + destruct (get_in_not_larger (map toKey (s :: p)) spec) as [Hs Hr].
      destruct (Lodash.get_in spec (map toKey (s :: p)));
        try (split; assumption); simpl; split; try lia; apply incl_nil_l.
Qed.

Lemma indexed_member xs : forall i k v, In (k, v) (indexed i xs) -> In v xs.
Proof.
  induction xs as [ | x xs IH ]; simpl; intros i k v; [ tauto | ].
  intros [[= _ ->] | H]; [ now left | right; eauto ].
Qed.

Lemma chars_scalar s : forall v, In v (chars s) -> is_object v = false.
Proof.
  induction s as [ | c s IH ]; simpl; intros v; [ tauto | ].
  intros [<- | H]; auto.
Qed.

(** What [Object.entries] lists is not larger than the value listed. *)
Lemma entries_not_larger o k v :
  In (k, v) (entries o) ->
  size v <= size o /\ incl (refs_in v) (refs_in o).
Proof.
  destruct o as [ | | c | n | s | xs | ps ]; simpl; try tauto.
  - intros Hin. apply indexed_member, chars_scalar in Hin.
    destruct v; try discriminate; simpl; split; try lia; apply incl_nil_l.
  - intros Hin. apply indexed_member in Hin.
    pose proof (size_member _ _ Hin). split; [ lia | now apply refs_in_member ].
  - intros Hin. pose proof (size_field _ _ _ Hin).
    split; [ lia | now apply (refs_in_field k) ].
Qed.

(** The reference of a reference object is among the references of the
    object. *)
Lemma ref_in_refs ps ref :
  own_get ps "$ref" = Some (VStr ref) -> In ref (refs_in (VObj ps)).
Proof.
  induction ps as [ | [k v] ps IH ]; simpl; [ discriminate | ].
  destruct (String.eqb k "$ref") eqn:Hk.
  - intros [= ->]. apply in_or_app. left. apply in_or_app. left.
    unfold ref_of_entry. simpl. rewrite Hk. now left.
  - intros H. apply in_or_app. right. now apply IH.
Qed.

(** *** The chain of references grows *)

Lemma existsb_snoc (r ref : string) visited :
  existsb (String.eqb r) (visited ++ [ref])
  = existsb (String.eqb r) visited || String.eqb r ref.
Proof. rewrite existsb_app. simpl. now rewrite orb_false_r. Qed.

Lemma unvisited_le universe visited ref :
  unvisited universe (visited ++ [ref]) <= unvisited universe visited.
Proof.
  unfold unvisited. induction universe as [ | u us IH ]; simpl; auto.
  rewrite existsb_snoc.
  destruct (existsb (String.eqb u) visited); simpl; auto.
  destruct (String.eqb u ref); simpl; lia.
Qed.

(** A reference that is new to the chain leaves one fewer to visit. *)
Lemma unvisited_decreases universe visited ref :
  In ref universe ->
  existsb (String.eqb ref) visited = false ->
  unvisited universe (visited ++ [ref]) < unvisited universe visited.
Proof.
  intros Hin Hnew. induction universe as [ | u us IH ]; [ contradiction | ].
  pose proof (unvisited_le us visited ref) as Hle.
  unfold unvisited in *. simpl. rewrite existsb_snoc.
  destruct Hin as [-> | Hin].
  - rewrite Hnew, String.eqb_refl. simpl. lia.
  - specialize (IH Hin).
    destruct (existsb (String.eqb u) visited); simpl; auto.
    destruct (String.eqb u ref); simpl; lia.
Qed.

Lemma unvisited_bound universe visited :
  unvisited universe visited <= List.length universe.
Proof. unfold unvisited. apply filter_length_le. Qed.

(** *** Enough fuel *)

(** With [universe] holding the references of the document and of the schema,
    and [bound] above their sizes, fuel above
    [unvisited * (bound + 1) + size schema] yields a complete view. *)
Lemma SchemaView_complete (spec : value) (universe : list string) (bound : nat) :
  incl (refs_in spec) universe ->
  size spec <= bound ->
  forall fuel schema path visitedRefs,
    incl (refs_in schema) universe ->
    size schema <= bound ->
    unvisited universe visitedRefs * S bound + size schema < fuel ->
    complete (SchemaView fuel spec schema path visitedRefs) = true.
Proof.
  intros Hspec_refs Hspec_size.
  induction fuel as [ | fuel IH ]; intros schema path visitedRefs Hrefs Hsize Hfuel;
    [ lia | ].
  cbn [SchemaView].
  destruct (is_object schema) eqn:Hobj; [ | reflexivity ]. simpl negb. cbv iota.
  destruct (has_ref schema) eqn:Href.
  - destruct schema as [ | | c | n | s | xs | ps ]; try discriminate.
    simpl prop. unfold has_ref, has_own in Href.
    destruct (own_get ps "$ref") as [r | ] eqn:Hget; [ | discriminate ].
    destruct r as [ | | c | n | ref | xs | qs ]; try reflexivity.
    destruct (existsb (String.eqb ref) visitedRefs) eqn:Hvisited;
      [ reflexivity | ].
    destruct (negb (truthy (Utils.resolveRef spec ref))); [ reflexivity | ].
    cbn [complete].
    destruct (resolveRef_not_larger spec ref) as [Hrs Hrr].
    assert (Hin : In ref universe) by (apply Hrefs; now apply ref_in_refs).
    pose proof (unvisited_decreases _ _ _ Hin Hvisited) as Hless.
    apply IH.
    + eapply incl_tran; eauto.
    + lia.
    + assert (unvisited universe (visitedRefs ++ [ref]) * S bound + S bound
              <= unvisited universe visitedRefs * S bound) by nia.
      lia.
  - destruct (type_is (type_of_schema schema) "object").
    + destruct (prop_smaller schema "properties" Hobj) as [Hps Hpr].
      set (properties := prop schema "properties") in *.
      set (shown := if truthy properties
                    then filter (fun kv => truthy (snd kv)) (entries properties)
                    else []).
      assert (Hshown : forall k v, In (k, v) shown ->
                         size v < size schema /\ incl (refs_in v) (refs_in schema)).
      { intros k v Hin. subst shown.
        destruct (truthy properties); [ | contradiction ].
        apply filter_In in Hin as [Hin _].
        destruct (entries_not_larger _ _ _ Hin) as [Hvs Hvr].
        split; [ lia | eapply incl_tran; eauto ]. }
      destruct shown as [ | kv rest ] eqn:Hlist; [ reflexivity | ].
      destruct (negb (includes_callable (prop schema "required")));
        [ reflexivity | ].
      cbn [complete]. apply forallb_forall. intros [k w] Hin.
      apply in_map_iff in Hin as ([k' v] & [= <- <-] & Hin). simpl.
      destruct (Hshown _ _ Hin) as [Hvs Hvr]. apply IH.
      * eapply incl_tran; eauto.
      * lia.
      * lia.
    + destruct (type_is (type_of_schema schema) "array");
        [ | now destruct (EnumEditor_throws schema) ].
      destruct (itemSchema_throws (prop schema "items")); [ reflexivity | ].
      destruct (truthy (prop schema "items")); [ | reflexivity ].
      cbn [complete].
      destruct (prop_smaller schema "items" Hobj) as [Hps Hpr]. apply IH.
      * eapply incl_tran; eauto.
      * lia.
      * lia.
Qed.

(** Fuel above [enough_fuel] suffices, whatever the chain so far. *)
Lemma SchemaView_enough_fuel spec schema path visitedRefs fuel :
  enough_fuel spec schema < fuel ->
  complete (SchemaView fuel spec schema path visitedRefs) = true.
Proof.
  intros Hfuel. unfold enough_fuel in Hfuel.
  apply (SchemaView_complete spec (refs_in spec ++ refs_in schema)
           (size spec + size schema)).
  - apply incl_appl, incl_refl.
  - lia.
  - apply incl_appr, incl_refl.
  - lia.
  - pose proof (unvisited_bound (refs_in spec ++ refs_in schema) visitedRefs).
    nia.
Qed.

(** A complete view does not depend on the fuel that was left over. *)
Lemma SchemaView_stable (spec : value) : forall fuel schema path visitedRefs extra,
  complete (SchemaView fuel spec schema path visitedRefs) = true ->
  SchemaView (fuel + extra) spec schema path visitedRefs
  = SchemaView fuel spec schema path visitedRefs.
Proof.
  induction fuel as [ | fuel IH ]; intros schema path visitedRefs extra Hdone;
    [ discriminate | ].
  change (S fuel + extra) with (S (fuel + extra)).
  cbn [SchemaView] in Hdone |- *.
  destruct (negb (is_object schema)); [ reflexivity | ].
  destruct (has_ref schema).
  - destruct (prop schema "$ref"); try reflexivity.
    destruct (existsb (String.eqb s) visitedRefs); [ reflexivity | ].
    destruct (negb (truthy (Utils.resolveRef spec s))); [ reflexivity | ].
    cbn [complete] in Hdone. now rewrite IH.
  - destruct (type_is (type_of_schema schema) "object").
    + destruct (if truthy (prop schema "properties")
                then filter (fun kv => truthy (snd kv))
                       (entries (prop schema "properties"))
                else []) as [ | kv shown ]; [ reflexivity | ].
      destruct (negb (includes_callable (prop schema "required")));
        [ reflexivity | ].
      cbn [complete] in Hdone. f_equal. apply map_ext_in. intros [k v] Hin.
      simpl. f_equal. apply IH.
      rewrite forallb_forall in Hdone.
      apply (Hdone (k, SchemaView fuel spec v
                         (path ++ [SKey "properties"; SKey k]) visitedRefs)).
      apply in_map_iff. now exists (k, v).
    + destruct (type_is (type_of_schema schema) "array");
        [ | now destruct (EnumEditor_throws schema) ].
      destruct (itemSchema_throws (prop schema "items")); [ reflexivity | ].
      destruct (truthy (prop schema "items")); [ | reflexivity ].
      cbn [complete] in Hdone. now rewrite IH.
Qed.
End SchemaViewFacts.

(** C9: [SchemaView] on a reference object whose [$ref] is already among
    [visitedRefs] renders the circular-reference notice, which is not the
    invalid-reference notice, and renders nothing below it: one unit of fuel
    is enough, so no nested [SchemaView] is rendered.  A reference that is
    new and resolves is followed with the reference added to [visitedRefs].
    Hence [SchemaView] terminates on every document, schema and chain: fuel
    above [enough_fuel spec schema] always yields a complete view, the same
    one however much fuel is added. *)
Theorem C9_circular_reference_is_terminal
  (spec : JS.value) (ps : list (string * JS.value)) (ref : string)
  (path : JS.Path) (visitedRefs : list string) :
  JS.own_get ps "$ref" = Some (JS.VStr ref) ->
  (existsb (String.eqb ref) visitedRefs = true ->
     forall fuel,
       PathItem.SchemaView (S fuel) spec (JS.VObj ps) path visitedRefs
       = PathItem.CircularReference ref /\
       PathItem.CircularReference ref <> PathItem.InvalidReference ref) /\
  (existsb (String.eqb ref) visitedRefs = false ->
     forall fuel,
       PathItem.SchemaView (S fuel) spec (JS.VObj ps) path visitedRefs
       = if JS.truthy (Utils.resolveRef spec ref)
         then PathItem.ResolvedReference ref
                (PathItem.SchemaView fuel spec (Utils.resolveRef spec ref)
                   (Utils.schemaPathFromRef ref) (visitedRefs ++ [ref]))
         else PathItem.InvalidReference ref) /\
  (forall fuel,
     PathItem.enough_fuel spec (JS.VObj ps) < fuel ->
     PathItem.complete
       (PathItem.SchemaView fuel spec (JS.VObj ps) path visitedRefs) = true /\
     forall extra,
       PathItem.SchemaView (fuel + extra) spec (JS.VObj ps) path visitedRefs
       = PathItem.SchemaView fuel spec (JS.VObj ps) path visitedRefs).
Proof.
  intros Href. split; [ | split ].
  - intros Hvisited fuel. split; [ | discriminate ].
    cbn [PathItem.SchemaView]. unfold PathItem.has_ref, JS.has_own. simpl.
    now rewrite Href, Hvisited.
  - intros Hnew fuel.
    cbn [PathItem.SchemaView]. unfold PathItem.has_ref, JS.has_own. simpl.
    rewrite Href, Hnew. now destruct (JS.truthy (Utils.resolveRef spec ref)).
  - intros fuel Hfuel.
    pose proof (SchemaView_enough_fuel spec (JS.VObj ps) path visitedRefs fuel
                  Hfuel) as Hdone.
    split; [ exact Hdone | ]. intros extra. now apply SchemaView_stable.
Qed.

(** C9 on the document whose schema [A] refers to itself. *)
Lemma C9_circular_reference_is_terminal_witness :
  PathItem.SchemaView 1 Demo.loop (JS.VObj [("$ref", JS.VStr "#/A")]) []
    ["#/A"] = PathItem.CircularReference "#/A" /\
  PathItem.SchemaView 2 Demo.loop (JS.VObj [("$ref", JS.VStr "#/A")]) [] []
    = PathItem.ResolvedReference "#/A" (PathItem.CircularReference "#/A") /\
  PathItem.complete
    (PathItem.SchemaView 10 Demo.loop (JS.VObj [("$ref", JS.VStr "#/A")]) [] [])
    = true.
Proof.
  destruct (C9_circular_reference_is_terminal Demo.loop
              [("$ref", JS.VStr "#/A")] "#/A" [] ["#/A"] eq_refl)
    as (Hcircular & _ & _).
  destruct (C9_circular_reference_is_terminal Demo.loop
              [("$ref", JS.VStr "#/A")] "#/A" [] [] eq_refl)
    as (_ & Hfollow & Hends).
  split; [ | split ].
  - exact (proj1 (Hcircular eq_refl 0)).
  - rewrite (Hfollow eq_refl 1). reflexivity.
  - apply Hends. vm_compute. lia.
Defined.

(** * More about the mutation engine *)

Section LocationFacts.
Import JS App.
Local Open Scope list_scope.

Lemma own_get_update_other ps k f k' :
  k' <> k -> own_get (own_update ps k f) k' = own_get ps k'.
Proof.
  intros Hne. induction ps as [ | [k0 v0] ps IH ]; simpl; auto.
  destruct (String.eqb_spec k0 k); simpl.
  - subst. destruct (String.eqb_spec k k'); [ congruence | reflexivity ].
  - now rewrite IH.
Qed.

Lemma own_update_fixed ps k f :
  (forall v, own_get ps k = Some v -> f v = v) -> own_update ps k f = ps.
Proof.
  induction ps as [ | [k' v'] ps IH ]; simpl; auto.
  destruct (String.eqb k' k); intros H.
  - now rewrite H.
  - now rewrite IH.
Qed.

Lemma nth_update_fixed i f xs :
  (i < List.length xs -> f (nth i xs VUndef) = nth i xs VUndef) ->
  nth_update i f xs = xs.
Proof.
  revert i. induction xs as [ | x xs IH ]; intros [ | i ]; simpl; auto; intros H.
  - rewrite H; auto. lia.
  - rewrite IH; auto. intros Hi. apply H. lia.
Qed.

Lemma length_nth_update i f xs :
  List.length (nth_update i f xs) = List.length xs.
Proof.
  revert i. induction xs as [ | x xs IH ]; intros [ | i ]; simpl; auto.
Qed.

Lemma nth_nth_update_other i j f xs :
  i <> j -> nth j (nth_update i f xs) VUndef = nth j xs VUndef.
Proof.
  revert i j. induction xs as [ | x xs IH ]; intros [ | i ] [ | j ] H;
    simpl; auto; try lia.
Qed.

Lemma nth_update_beyond i f xs :
  List.length xs <= i -> nth_update i f xs = xs.
Proof.
  revert i. induction xs as [ | x xs IH ]; intros [ | i ] H; simpl in *;
    auto; try lia.
  rewrite IH; auto. lia.
Qed.

(** Reading the key that [update_prop] changed: the changed value, or what
    was read before when the key names no element or property. *)
Lemma prop_update_prop_cases o k g :
  prop (update_prop o k g) k = g (prop o k) \/
  prop (update_prop o k g) k = prop o k.
Proof.
  destruct o as [ | | b | n | s | xs | ps ]; try (now right).
  - unfold update_prop. destruct (canonical_N k) as [i | ] eqn:Hi;
      [ | now right ].
    unfold prop. rewrite Hi.
    destruct (String.eqb k "length").
    { right. unfold length_of. now rewrite length_nth_update. }
    destruct (Nat.ltb_spec (N.to_nat i) (List.length xs)).
    + left. now apply nth_nth_update.
    + right. now rewrite nth_update_beyond.
  - simpl. rewrite own_get_update. destruct (own_get ps k); simpl; auto.
Qed.

Lemma prop_update_prop_other o k k' g :
  k' <> k -> prop (update_prop o k g) k' = prop o k'.
Proof.
  intros Hne. destruct o as [ | | b | n | s | xs | ps ]; try reflexivity.
  - unfold update_prop. destruct (canonical_N k) as [i | ] eqn:Hi;
      [ | reflexivity ].
    unfold prop, length_of. rewrite length_nth_update.
    destruct (String.eqb k' "length"); auto.
    destruct (canonical_N k') as [j | ] eqn:Hj; auto.
    apply nth_nth_update_other. intros Heq.
    apply canonical_N_inv in Hi, Hj. apply N2Nat.inj in Heq. congruence.
  - simpl. now rewrite own_get_update_other.
Qed.

Lemma nullish_update_prop o k g : nullish (update_prop o k g) = nullish o.
Proof. destruct o; simpl; auto. now destruct (canonical_N k). Qed.

(** A change at one location is not seen at a location that parts ways with
    it. *)
Lemma get_in_modify_at_diverges keys : forall others o f,
  diverges keys others = true ->
  Lodash.get_in (modify_at keys f o) others = Lodash.get_in o others.
Proof.
  induction keys as [ | k keys IH ]; intros [ | k' others ] o f Hd;
    try discriminate.
  simpl in *. rewrite nullish_update_prop. destruct (nullish o); auto.
  destruct (String.eqb_spec k k') as [<- | Hne].
  - destruct (prop_update_prop_cases o k (modify_at keys f)) as [-> | ->]; auto.
  - rewrite prop_update_prop_other by congruence. reflexivity.
Qed.

Lemma get_modify_at_diverges p q o f :
  paths_diverge p q = true ->
  Lodash.get (modify_at (map toKey p) f o) q = Lodash.get o q.
Proof.
  intros Hd. destruct q as [ | s q ]; [ reflexivity | ].
  unfold Lodash.get. now apply get_in_modify_at_diverges.
Qed.

(** Putting back what is read changes nothing. *)
Lemma update_prop_same o k g :
  is_object (prop o k) = true -> g (prop o k) = prop o k ->
  update_prop o k g = o.
Proof.
  intros Hobj Hg. destruct o as [ | | b | n | s | xs | ps ]; simpl in *; auto.
  - destruct (String.eqb k "length"); [ discriminate | ].
    destruct (canonical_N k) as [i | ]; auto. f_equal.
    apply nth_update_fixed. auto.
  - f_equal. apply own_update_fixed. intros v Hv. now rewrite Hv in Hg.
Qed.

Lemma modify_at_same keys : forall o,
  is_object (Lodash.get_in o keys) = true ->
  modify_at keys (fun _ => Lodash.get_in o keys) o = o.
Proof.
  induction keys as [ | k keys IH ]; intros o Hobj; [ reflexivity | ].
  destruct (get_in_is_object_head _ _ _ Hobj) as [Ho Hp].
  simpl in *. rewrite (is_object_not_nullish _ Ho) in *.
  apply update_prop_same; auto.
Qed.

Lemma modify_at_put_back o path x :
  Lodash.get o path = x -> is_object x = true ->
  modify_at (map toKey path) (fun _ => x) o = o.
Proof.
  intros Hget Hobj. destruct path as [ | s path ]; [ subst; discriminate | ].
  unfold Lodash.get in Hget. subst x. now apply modify_at_same.
Qed.

End LocationFacts.

Section MutationExtras.
Import JS App.
Local Open Scope list_scope.

Lemma safe_keys_map (path : Path) :
  forallb (fun s => negb (Lodash.unsafe_key (toKey s))) path = true ->
  forallb (fun k => negb (Lodash.unsafe_key k)) (map toKey path) = true.
Proof.
  induction path as [ | s path IH ]; simpl; auto.
  intros H. apply andb_prop in H as [-> H]. simpl. now apply IH.
Qed.

(** X1: [handleSpecUpdate] followed by [get] at the same path returns the
    value written, for a document that is an object or an array, a path that
    is not empty and has none of the keys [set] refuses ([__proto__],
    [constructor], [prototype]), whenever the handler returns a document. *)
Theorem X1_update_then_get (path : Path) (v d r : value) :
  is_object d = true ->
  path <> [] ->
  forallb (fun s => negb (Lodash.unsafe_key (toKey s))) path = true ->
  handleSpecUpdate path v d = Ok r ->
  Lodash.get r path = v.
Proof.
  intros Hd Hne Hsafe Hupdate. unfold handleSpecUpdate in Hupdate.
  rewrite (is_object_truthy _ Hd), cloneDeep_id in Hupdate. simpl in Hupdate.
  unfold Lodash.set in Hupdate. rewrite Hd in Hupdate.
  destruct path as [ | s path ]; [ contradiction | ]. unfold Lodash.get.
  eapply get_in_set_in; eauto; [ discriminate | now apply safe_keys_map ].
Qed.

(** X1 on the petstore document: a title is written where there was no
    [info]. *)
Lemma X1_update_then_get_witness :
  exists r,
    handleSpecUpdate [SKey "info"; SKey "title"] (VStr "Pets") Demo.petstore
    = Ok r /\
    Lodash.get r [SKey "info"; SKey "title"] = VStr "Pets".
Proof.
  eexists. split; [ reflexivity | ].
  apply (X1_update_then_get [SKey "info"; SKey "title"] (VStr "Pets")
           Demo.petstore); try reflexivity. discriminate.
Defined.






Lemma rename_frame p q oldKey newKey d r :
  truthy d = true ->
  paths_diverge p q = true ->
  handleRenameKey p oldKey newKey d = Some (Ok r) ->
  Lodash.get r q = Lodash.get d q.
Proof.
  intros Hd Hpq Hrename. unfold handleRenameKey in Hrename.
  destruct (String.eqb oldKey newKey); [ discriminate | ].
  rewrite Hd, cloneDeep_id in Hrename. simpl in Hrename.
  injection Hrename as Hrename.
  destruct (Lodash.get d p) as [ | | c | n | s | xs | ps ];
    try (injection Hrename as <-; reflexivity).
  - destruct (String.eqb oldKey "length"); [ discriminate | ].
    destruct (canonical_N oldKey); [ | discriminate ].
    destruct (in_array xs oldKey); [ discriminate | ].
    now injection Hrename as <-.
  - destruct (own_get ps oldKey).
    + destruct (stores _ newKey); [ | discriminate ].
      injection Hrename as <-. now apply get_modify_at_diverges.
    + destruct (inherited_name oldKey); [ discriminate | ].
      now injection Hrename as <-.
Qed.



(** X4: [handleAddItem] on a collection that is an array appends the item
    once, at the end: the array is one longer, every former position reads
    as before, and the new last position reads the item. *)
Theorem X4_AddItem_appends (path : Path) (item d : value) (xs : list value) :
  Lodash.get d path = VArr xs ->
  exists r,
    handleAddItem path item d = Ok r /\
    Lodash.get r path = VArr (xs ++ [item]) /\
    (forall i, i < List.length xs ->
       Lodash.get r (path ++ [SIdx (N.of_nat i)])
       = Lodash.get d (path ++ [SIdx (N.of_nat i)])) /\
    Lodash.get r (path ++ [SIdx (N.of_nat (List.length xs))]) = item.
Proof.
  intros Hcollection.
  exists (modify_at (map toKey path) (fun _ => VArr (xs ++ [item])) d).
  assert (Hr : Lodash.get
                 (modify_at (map toKey path) (fun _ => VArr (xs ++ [item])) d)
                 path = VArr (xs ++ [item]))
    by now rewrite get_modify_at by now rewrite Hcollection.
  split.
  - unfold handleAddItem.
    rewrite (get_object_truthy d path) by now rewrite Hcollection.
    rewrite cloneDeep_id, Hcollection. simpl. now rewrite Hcollection.
  - split; [ exact Hr | ]. split.
    + intros i Hi. rewrite !get_snoc by now rewrite ?Hr, ?Hcollection.
      rewrite Hr, Hcollection. simpl toKey. rewrite !prop_element, Nat2N.id.
      now apply app_nth1.
    + rewrite get_snoc by now rewrite Hr.
      rewrite Hr. simpl toKey. rewrite prop_element, Nat2N.id.
      rewrite app_nth2 by lia. now rewrite Nat.sub_diag.
Qed.

(** X4 on the petstore document: a fourth tag. *)
Lemma X4_AddItem_appends_witness :
  exists r,
    handleAddItem [SKey "tags"] (VStr "admin") Demo.petstore = Ok r /\
    Lodash.get r [SKey "tags"]
    = VArr [VStr "pets"; VStr "store"; VStr "user"; VStr "admin"].
Proof.
  destruct (X4_AddItem_appends [SKey "tags"] (VStr "admin") Demo.petstore
              [VStr "pets"; VStr "store"; VStr "user"] eq_refl)
    as (r & Hok & Hr & _).
  exists r. split; assumption.
Defined.

(** X5: [handleAddItem] does nothing when the location holds a value that is
    neither [undefined] nor an object nor an array - [null], as for a key
    left empty in YAML, a string, a number, a boolean: the document is
    returned as it was, whatever the item. *)
Theorem X5_AddItem_on_scalar_collection (path : Path) (item d : value) :
  truthy d = true ->
  is_undefined (Lodash.get d path) = false ->
  is_object (Lodash.get d path) = false ->
  handleAddItem path item d = Ok d.
Proof.
  intros Hd Hdef Hscalar. unfold handleAddItem.
  rewrite Hd, cloneDeep_id, Hdef. simpl.
  destruct (Lodash.get d path); try discriminate; reflexivity.
Qed.

Lemma X5_AddItem_on_scalar_collection_witness :
  handleAddItem [SKey "servers"] (VObj [("url", VStr "/")])
    (VObj [("servers", VNull)])
  = Ok (VObj [("servers", VNull)]).
Proof.
  apply X5_AddItem_on_scalar_collection; reflexivity.
Defined.

(** *** [handleRenameKey] *)

(** X6: [handleRenameKey] on a plain object that [get] finds at [path] and
    that has the old key, the two keys being different and the new key one
    that an assignment stores ([__proto__] is stored only in an object that
    has it): the value moves to the new key, replacing what the new key
    held, and every other key reads as before; the old key reads [undefined]
    afterwards unless it names a member the object inherits.  At the empty
    path [get] finds no object: in the root nothing is renamed. *)
Theorem X6_RenameKey_moves_value
  (path : Path) (oldKey newKey : string) (d : value) :
  oldKey <> newKey ->
  (forall ps val,
     Lodash.get d path = VObj ps ->
     own_get ps oldKey = Some val ->
     stores (own_delete ps oldKey) newKey = true ->
     exists r,
       handleRenameKey path oldKey newKey d = Some (Ok r) /\
       Lodash.get r (path ++ [SKey newKey]) = val /\
       (inherited_name oldKey = false ->
        Lodash.get r (path ++ [SKey oldKey]) = VUndef) /\
       (forall k, k <> oldKey -> k <> newKey ->
          Lodash.get r (path ++ [SKey k]) = Lodash.get d (path ++ [SKey k]))) /\
  (truthy d = true -> handleRenameKey [] oldKey newKey d = Some (Ok d)).
Proof.
  intros Hne. split.
  - intros ps val Hobj Hold Hstores.
    set (ps1 := own_set (own_delete ps oldKey) newKey val).
    exists (modify_at (map toKey path) (fun _ => VObj ps1) d).
    assert (Hr : Lodash.get (modify_at (map toKey path) (fun _ => VObj ps1) d)
                   path = VObj ps1)
      by now rewrite get_modify_at by now rewrite Hobj.
    split.
    + unfold handleRenameKey.
      destruct (String.eqb_spec oldKey newKey); [ contradiction | ].
      rewrite (get_object_truthy d path) by now rewrite Hobj.
      now rewrite cloneDeep_id, Hobj, Hold, Hstores.
    + split; [ | split ].
      * rewrite get_snoc by now rewrite Hr.
        rewrite Hr. simpl. subst ps1. now rewrite own_get_set_same.
      * intros _. rewrite get_snoc by now rewrite Hr.
        rewrite Hr. simpl. subst ps1.
        rewrite own_get_set_other by assumption.
        now rewrite own_get_delete_same.
      * intros k Hk1 Hk2. rewrite !get_snoc by now rewrite ?Hr, ?Hobj.
        rewrite Hr, Hobj. simpl. subst ps1.
        rewrite own_get_set_other by assumption.
        now rewrite own_get_delete_other.
  - intros Hd. unfold handleRenameKey.
    destruct (String.eqb_spec oldKey newKey); [ contradiction | ].
    now rewrite Hd, cloneDeep_id.
Qed.

(** X6 on the petstore document: the schema [Pet] becomes [Animal]; the key
    [tags] of the root stays. *)
Lemma X6_RenameKey_moves_value_witness :
  (exists r,
     handleRenameKey [SKey "components"; SKey "schemas"] "Pet" "Animal"
       Demo.petstore = Some (Ok r) /\
     Lodash.get r ([SKey "components"; SKey "schemas"] ++ [SKey "Animal"])
     = Lodash.get Demo.petstore Demo.Pet_path /\
     Lodash.get r ([SKey "components"; SKey "schemas"] ++ [SKey "Pet"]) = VUndef) /\
  handleRenameKey [] "tags" "labels" Demo.petstore = Some (Ok Demo.petstore).
Proof.
  destruct (X6_RenameKey_moves_value [SKey "components"; SKey "schemas"]
              "Pet" "Animal" Demo.petstore) as [Hmove Hroot];
    [ discriminate | ].
  destruct (X6_RenameKey_moves_value [] "tags" "labels" Demo.petstore)
    as [_ Hroot']; [ discriminate | ].
  split; [ | exact (Hroot' eq_refl) ].
  let schemas :=
    match eval vm_compute in
      (Lodash.get Demo.petstore [SKey "components"; SKey "schemas"]) with
    | VObj ?l => l
    end in
  destruct (Hmove schemas (Lodash.get Demo.petstore Demo.Pet_path)
              eq_refl eq_refl eq_refl) as (r & Hok & Hnew & Hold & _).
  exists r. split; [ exact Hok | ]. split; [ exact Hnew | exact (Hold eq_refl) ].
Defined.

(** X7: where [handleRenameKey] changes nothing.  With equal keys it
    returns before [setParsedSpec].  With different keys and a present
    document it returns the document as it was when the location holds a
    plain object that neither has the old key nor inherits a member of that
    name ([toString], [constructor], ...: [oldKey in obj] holds for those,
    and the handler stores the member under the new key), or holds no object
    at all - which is also the case of the empty path. *)
Theorem X7_RenameKey_without_effect
  (path : Path) (oldKey newKey : string) (d : value) :
  (oldKey = newKey -> handleRenameKey path oldKey newKey d = None) /\
  (oldKey <> newKey -> truthy d = true ->
   (forall ps, Lodash.get d path = VObj ps -> own_get ps oldKey = None ->
      inherited_name oldKey = false ->
      handleRenameKey path oldKey newKey d = Some (Ok d)) /\
   (is_object (Lodash.get d path) = false ->
      handleRenameKey path oldKey newKey d = Some (Ok d))).
Proof.
  split.
  - intros ->. unfold handleRenameKey. now rewrite String.eqb_refl.
  - intros Hne Hd. unfold handleRenameKey.
    destruct (String.eqb_spec oldKey newKey); [ contradiction | ].
    rewrite Hd, cloneDeep_id. simpl. split.
    + intros ps -> -> ->. reflexivity.
    + intros Hscalar. destruct (Lodash.get d path); try discriminate;
        reflexivity.
Qed.

Lemma X7_RenameKey_without_effect_witness :
  handleRenameKey [SKey "components"; SKey "schemas"] "Pet" "Pet" Demo.petstore
  = None /\
  handleRenameKey [SKey "components"; SKey "schemas"] "Dog" "Cat" Demo.petstore
  = Some (Ok Demo.petstore) /\
  handleRenameKey [SKey "openapi"] "a" "b" Demo.petstore
  = Some (Ok Demo.petstore).
Proof.
  split; [ | split ].
  - destruct (X7_RenameKey_without_effect [SKey "components"; SKey "schemas"]
                "Pet" "Pet" Demo.petstore) as [Hsame _].
    exact (Hsame eq_refl).
  - destruct (X7_RenameKey_without_effect [SKey "components"; SKey "schemas"]
                "Dog" "Cat" Demo.petstore) as [_ Hdiff].
    destruct Hdiff as [Habsent _]; [ discriminate | reflexivity | ].
    exact (Habsent _ eq_refl eq_refl eq_refl).
  - destruct (X7_RenameKey_without_effect [SKey "openapi"] "a" "b"
                Demo.petstore) as [_ Hdiff].
    destruct Hdiff as [_ Hscalar]; [ discriminate | reflexivity | ].
    exact (Hscalar eq_refl).
Defined.

Lemma diverges_after_prefix (common : list string) (k k' : string)
  (rest rest' : list string) :
  k <> k' ->
  diverges (common ++ k :: rest) (common ++ k' :: rest') = true.
Proof.
  intros Hne. induction common as [ | c common IH ]; simpl.
  - now destruct (String.eqb_spec k k').
  - now rewrite String.eqb_refl.
Qed.

(** X8: renaming a property of a schema, as the key field of [SchemaView]
    does with [onRenameKey(path.concat('properties'), key, newKey)], leaves
    the Required-set of the schema as it was: a property listed as required
    stays listed under its old name. *)
Theorem X8_RenameKey_leaves_required
  (schemaPath : Path) (oldKey newKey : string) (d r : value) :
  truthy d = true ->
  handleRenameKey (schemaPath ++ [SKey "properties"]) oldKey newKey d
  = Some (Ok r) ->
  required_set schemaPath r = required_set schemaPath d.
Proof.
  intros Hd Hrename. unfold required_set.
  eapply rename_frame; eauto.
  unfold paths_diverge. rewrite !map_app. simpl.
  apply diverges_after_prefix. discriminate.
Qed.

(** X8 on the petstore document: [id] becomes [key] and stays required as
    [id]. *)
Lemma X8_RenameKey_leaves_required_witness :
  exists r,
    handleRenameKey (Demo.Pet_path ++ [SKey "properties"]) "id" "key"
      Demo.petstore = Some (Ok r) /\
    required_set Demo.Pet_path r = VArr [VStr "id"].
Proof.
  eexists. split; [ reflexivity | ].
  rewrite (X8_RenameKey_leaves_required Demo.Pet_path "id" "key"
             Demo.petstore _ eq_refl eq_refl).
  reflexivity.
Defined.

(** *** Round trips *)

Lemma own_replace_as_update ps k v :
  own_replace ps k v = own_update ps k (fun _ => v).
Proof.
  induction ps as [ | [k' v'] ps IH ]; simpl; auto.
  destruct (String.eqb k' k); now rewrite ?IH.
Qed.

Lemma replace_nth_as_update i v xs :
  replace_nth i v xs = nth_update i (fun _ => v) xs.
Proof.
  revert i. induction xs as [ | x xs IH ]; intros [ | i ]; simpl; auto.
  now rewrite IH.
Qed.

(** Assigning to a key that holds a container replaces the container. *)
Lemma assign_over_container o k child u :
  is_object (prop o k) = true ->
  assign o k child = Ok u ->
  u = update_prop o k (fun _ => child).
Proof.
  destruct o as [ | | b | n | s | xs | ps ]; simpl; try discriminate.
  - destruct (String.eqb k "length"); [ discriminate | ].
    destruct (array_index k) as [i | ] eqn:Hi; [ | discriminate ].
    rewrite (array_index_canonical _ _ Hi). intros Hobj [= <-].
    unfold array_write.
    destruct (Nat.ltb_spec (N.to_nat i) (List.length xs)).
    + now rewrite replace_nth_as_update.
    + rewrite nth_overflow in Hobj by lia. discriminate.
  - intros Hobj [= <-]. unfold own_set, has_own.
    destruct (own_get ps k); [ | discriminate ].
    now rewrite own_replace_as_update.
Qed.

Lemma update_prop_ext_at o k f g :
  f (prop o k) = g (prop o k) ->
  is_object (prop o k) = true ->
  update_prop o k f = update_prop o k g.
Proof.
  intros Hfg Hobj. destruct o as [ | | b | n | s | xs | ps ]; simpl in *; auto.
  - destruct (String.eqb k "length"); [ discriminate | ].
    destruct (canonical_N k) as [i | ]; auto. f_equal.
    revert Hfg Hobj. generalize (N.to_nat i). clear.
    induction xs as [ | x xs IH ]; intros [ | j ]; simpl; auto.
    + now intros ->.
    + intros H1 H2. now rewrite IH.
  - f_equal. destruct (own_get ps k) as [v | ] eqn:Hget; [ | discriminate ].
    revert Hget. clear Hobj. induction ps as [ | [k' v'] ps IH ]; simpl; auto.
    destruct (String.eqb k' k).
    + intros [= ->]. now rewrite Hfg.
    + intros H. now rewrite IH.
Qed.

(** [set] below a plain object that [get] finds writes the key on that
    object and touches nothing else. *)
Lemma set_in_under_object keys : forall o k v u ps,
  Lodash.get_in o keys = VObj ps ->
  forallb (fun key => negb (Lodash.unsafe_key key)) (keys ++ [k]) = true ->
  Lodash.set_in o (keys ++ [k]) v = Ok u ->
  u = modify_at keys (fun _ => VObj (own_set ps k v)) o.
Proof.
  induction keys as [ | key rest IH ]; intros o k v u ps Hget Hsafe Hset.
  - simpl in *. subst o. apply andb_prop in Hsafe as [Hk _].
    destruct (Lodash.unsafe_key k); [ discriminate | ]. now injection Hset as <-.
  - assert (Hobj : is_object (Lodash.get_in o (key :: rest)) = true)
      by now rewrite Hget.
    destruct (get_in_is_object_head _ _ _ Hobj) as [Ho Hp].
    simpl in Hget. rewrite (is_object_not_nullish _ Ho) in Hget.
    simpl in Hsafe. apply andb_prop in Hsafe as [Hkey Hsafe].
    change ((key :: rest) ++ [k]) with (key :: (rest ++ [k])) in Hset.
    simpl in Hset. destruct (Lodash.unsafe_key key); [ discriminate | ].
    destruct (rest ++ [k]) as [ | next more ] eqn:Hrest;
      [ now destruct rest | ].
    rewrite Hp in Hset.
    destruct (Lodash.set_in (prop o key) (next :: more) v) as [child | | ]
      eqn:Hchild; try discriminate.
    simpl in Hset. rewrite <- Hrest in Hchild, Hsafe.
    specialize (IH _ _ _ _ _ Hget Hsafe Hchild).
    rewrite (assign_over_container _ _ _ _ Hp Hset).
    simpl. apply update_prop_ext_at; auto.
Qed.

Lemma get_object_root o path :
  is_object (Lodash.get o path) = true -> is_object o = true.
Proof.
  intros Hobj. destruct (is_object o) eqn:Ho; auto.
  now rewrite (get_of_scalar o path Ho) in Hobj.
Qed.

(** X9: writing a key that a plain object does not have and removing it
    again gives the document back, for an object that [get] finds at the
    path [parent].  The key is written by [handleSpecUpdate] or, as the
    first entry of a payload, by [handleAddItem]; it is removed by
    [handleRemoveItemByPath].  The root is no such object: [get] finds
    nothing at the empty path, so that after [handleSpecUpdate] has written
    a key of the root, [handleRemoveItemByPath] on the same one-step path
    returns the document with the key still there. *)
Theorem X9_write_then_remove_restores
  (env : Env) (parent : Path) (k : string) (v d : value)
  (ps rest : list (string * value)) :
  (Lodash.get d parent = VObj ps ->
   own_get ps k = None ->
   forallb (fun s => negb (Lodash.unsafe_key (toKey s))) (parent ++ [SKey k])
   = true ->
   (forall u, handleSpecUpdate (parent ++ [SKey k]) v d = Ok u ->
              handleRemoveItemByPath env (parent ++ [SKey k]) u = d) /\
   (forall u, handleAddItem parent (VObj ((k, v) :: rest)) d = Ok u ->
              handleRemoveItemByPath env (parent ++ [SKey k]) u = d)) /\
  (Lodash.unsafe_key k = false ->
   exists u,
     handleSpecUpdate [SKey k] v (VObj ps) = Ok u /\
     handleRemoveItemByPath env [SKey k] u = u /\
     prop u k = v).
Proof.
  split.
  - intros Hparent Habsent Hsafe.
    assert (Hobj : is_object (Lodash.get d parent) = true)
      by now rewrite Hparent.
    assert (Hback : forall u,
              u = modify_at (map toKey parent)
                    (fun _ => VObj (own_set ps k v)) d ->
              handleRemoveItemByPath env (parent ++ [SKey k]) u = d).
    { intros u ->.
      rewrite (remove_from_object _ _ _ _ (own_set ps k v))
        by now rewrite get_modify_at.
      rewrite modify_at_modify_at. simpl toKey.
      rewrite own_delete_set, own_delete_absent by assumption.
      now apply modify_at_put_back. }
    assert (Hk : Lodash.unsafe_key k = false).
    { rewrite forallb_app in Hsafe. apply andb_prop in Hsafe as [_ Hsafe].
      simpl in Hsafe. now destruct (Lodash.unsafe_key k). }
    split; intros u Hu; apply Hback.
    + unfold handleSpecUpdate in Hu.
      rewrite (get_object_truthy _ _ Hobj), cloneDeep_id in Hu. simpl in Hu.
      unfold Lodash.set in Hu.
      rewrite (get_object_root d parent Hobj) in Hu.
      rewrite map_app in Hu. simpl map in Hu.
      apply safe_keys_map in Hsafe. rewrite map_app in Hsafe.
      simpl map in Hsafe.
      apply (set_in_under_object (map toKey parent) d k v u ps); auto.
      destruct parent as [ | s parent ]; [ discriminate | exact Hparent ].
    + rewrite (add_to_object _ _ _ _ _ ps Hparent) in Hu
        by now apply safe_key_stored.
      now injection Hu as <-.
  - intros Hk. exists (VObj (own_set ps k v)). split; [ | split ].
    + unfold handleSpecUpdate. rewrite cloneDeep_id. unfold Lodash.set.
      simpl. now rewrite Hk.
    + apply remove_at_root. reflexivity.
    + simpl. now rewrite own_get_set_same.
Qed.

(** X9 on the petstore document: a schema [Dog] is written and removed; a
    key [info] of the root is written and not removed. *)
Lemma X9_write_then_remove_restores_witness :
  (exists u,
     handleSpecUpdate ([SKey "components"; SKey "schemas"] ++ [SKey "Dog"])
       (VObj [("type", VStr "object")]) Demo.petstore = Ok u /\
     handleRemoveItemByPath Demo.env
       ([SKey "components"; SKey "schemas"] ++ [SKey "Dog"]) u = Demo.petstore) /\
  (exists u,
     handleSpecUpdate [SKey "info"] (VObj []) Demo.petstore = Ok u /\
     handleRemoveItemByPath Demo.env [SKey "info"] u = u /\
     prop u "info" = VObj []).
Proof.
  split.
  - eexists. split; [ reflexivity | ].
    let schemas :=
      match eval vm_compute in
        (Lodash.get Demo.petstore [SKey "components"; SKey "schemas"]) with
      | VObj ?l => l
      end in
    destruct (X9_write_then_remove_restores Demo.env
                [SKey "components"; SKey "schemas"] "Dog"
                (VObj [("type", VStr "object")]) Demo.petstore schemas [])
      as [Hinner _].
    destruct (Hinner eq_refl eq_refl eq_refl) as [Hupdate _].
    apply Hupdate. reflexivity.
  - let ps := match eval cbv delta [Demo.petstore] in Demo.petstore with
              | VObj ?l => l
              end in
    destruct (X9_write_then_remove_restores Demo.env [] "info" (VObj [])
                Demo.petstore ps []) as [_ Hroot].
    exact (Hroot eq_refl).
Defined.

(** X10: appending an item to an array with [handleAddItem] and removing
    the last position with [handleRemoveItemByPath] gives the document
    back. *)
Theorem X10_append_then_remove_restores
  (env : Env) (path : Path) (item d u : value) (xs : list value) :
  Lodash.get d path = VArr xs ->
  handleAddItem path item d = Ok u ->
  handleRemoveItemByPath env (path ++ [SIdx (N.of_nat (List.length xs))]) u = d.
Proof.
  intros Hcollection Hadd. unfold handleAddItem in Hadd.
  rewrite (get_object_truthy d path) in Hadd by now rewrite Hcollection.
  rewrite cloneDeep_id, Hcollection in Hadd. simpl in Hadd.
  rewrite Hcollection in Hadd. injection Hadd as <-.
  rewrite (remove_from_array _ _ _ _ (xs ++ [item]))
    by now rewrite get_modify_at by now rewrite Hcollection.
  rewrite modify_at_modify_at. simpl Number_of_step.
  rewrite nat_N_Z, splice1_in_range by (rewrite length_app; simpl; lia).
  replace (remove_nth (List.length xs) (xs ++ [item])) with xs.
  - apply modify_at_put_back; auto.
  - clear. induction xs as [ | x xs IH ]; simpl; auto. now rewrite <- IH.
Qed.

Lemma X10_append_then_remove_restores_witness :
  exists u,
    handleAddItem [SKey "tags"] (VStr "admin") Demo.petstore = Ok u /\
    handleRemoveItemByPath Demo.env ([SKey "tags"] ++ [SIdx (N.of_nat 3)]) u
    = Demo.petstore.
Proof.
  eexists. split; [ reflexivity | ].
  apply (X10_append_then_remove_restores Demo.env [SKey "tags"] (VStr "admin")
           Demo.petstore _ [VStr "pets"; VStr "store"; VStr "user"]);
    reflexivity.
Defined.
End MutationExtras.

(** * The component: edits, echoes and the debounce timer *)

Section ComponentExtras.
Import JS App.
Local Open Scope list_scope.

Variable env : Env.

Lemma parse_text_success t v f s :
  parses_to env t v f -> is_object v = true ->
  parse_text env t s
  = setSpecFormat f (setParseError None (setParsedSpec v s)).
Proof.
  unfold parses_to, parse_text, load_object. destruct f.
  - now intros ->.
  - intros [-> ->] ->. reflexivity.
Qed.

Lemma serialize_effect_on_object s :
  is_object (parsedSpec s) = true ->
  serialize_effect env s
  = match serialize_as env (specFormat s) (parsedSpec s) with
    | Some newString => setSpecString newString (set_isUpdatingFromView true s)
    | None => set_isUpdatingFromView true s
    end.
Proof.
  intros Hobj. unfold serialize_effect, serialize, serialize_as.
  rewrite (is_object_truthy _ Hobj). simpl. now destruct (specFormat s).
Qed.

(** The component after the user's text [t] was parsed into the container
    [v], the flag having been down. *)
Lemma user_text_parsed c t v f :
  isUpdatingFromView (state c) = false ->
  t <> specString (state c) ->
  parses_to env t v f -> is_object v = true ->
  timer_fires env (user_edit t c)
  = match serialize_as env f v with
    | Some t' =>
        {| state := {| specString := t'; parsedSpec := v; parseError := None;
                       specFormat := f; isUpdatingFromView := true |};
           pending := negb (String.eqb t' t) |}
    | None =>
        {| state := {| specString := t; parsedSpec := v; parseError := None;
                       specFormat := f; isUpdatingFromView := true |};
           pending := false |}
    end.
Proof.
  intros Hflag Htext Hparse Hobj. unfold user_edit.
  destruct (String.eqb_spec t (specString (state c))); [ contradiction | ].
  unfold timer_fires. simpl. rewrite Hflag.
  rewrite (parse_text_success _ _ _ _ Hparse Hobj). simpl.
  unfold Object_is_new. rewrite Hobj. simpl.
  unfold after_document_change. rewrite serialize_effect_on_object by exact Hobj.
  simpl. destruct (serialize_as env f v); simpl; [ reflexivity | ].
  now rewrite String.eqb_refl.
Qed.

(** X11: an edit that is lost.  The user's text [t1] parses into an object
    or an array whose serialisation is [t1] itself, or fails; the effect
    then raises the flag and no text change follows that would lower it.
    The next text [t2] the user types, whatever it is, makes [parseSpec]
    return at the flag: the text is [t2], the document is still that of
    [t1], and no error is shown. *)
Theorem X11_edit_after_silent_echo_is_not_parsed
  (c : Component) (t1 t2 : string) (v1 : value) (f : SpecFormat) :
  isUpdatingFromView (state c) = false ->
  t1 <> specString (state c) ->
  parses_to env t1 v1 f -> is_object v1 = true ->
  (serialize_as env f v1 = Some t1 \/ serialize_as env f v1 = None) ->
  t2 <> t1 ->
  let c1 := timer_fires env (user_edit t1 c) in
  let c2 := timer_fires env (user_edit t2 c1) in
  (parsedSpec (state c1) = v1 /\ isUpdatingFromView (state c1) = true /\
   pending c1 = false) /\
  (specString (state c2) = t2 /\ parsedSpec (state c2) = v1 /\
   parseError (state c2) = None /\ specFormat (state c2) = f /\
   isUpdatingFromView (state c2) = false /\ pending c2 = false).
Proof.
  intros Hflag Htext Hparse Hobj Hserial Hnew c1 c2.
  assert (Hc1 : c1 = {| state := {| specString := t1; parsedSpec := v1;
                                    parseError := None; specFormat := f;
                                    isUpdatingFromView := true |};
                        pending := false |}).
  { subst c1. rewrite (user_text_parsed _ _ _ _ Hflag Htext Hparse Hobj).
    destruct Hserial as [-> | ->]; [ | reflexivity ].
    now rewrite String.eqb_refl. }
  subst c2. rewrite Hc1. split; [ repeat split | ].
  unfold user_edit. simpl.
  destruct (String.eqb_spec t2 t1); [ contradiction | ].
  unfold timer_fires. simpl. repeat split.
Qed.

(** X12: the regular round.  The user's text [t1] parses into an object or
    an array that is serialised to a different text.  The effect publishes
    that text and schedules [parseSpec], whose next call only lowers the flag:
    the component is then at rest with the serialised text, the document of
    [t1], no error and the flag down, and the next text the user types is
    parsed. *)
Theorem X12_echo_is_consumed_and_next_edit_parsed
  (c : Component) (t1 t1' : string) (v1 : value) (f : SpecFormat) :
  isUpdatingFromView (state c) = false ->
  t1 <> specString (state c) ->
  parses_to env t1 v1 f -> is_object v1 = true ->
  serialize_as env f v1 = Some t1' -> t1' <> t1 ->
  let c2 := timer_fires env (timer_fires env (user_edit t1 c)) in
  c2 = {| state := {| specString := t1'; parsedSpec := v1; parseError := None;
                      specFormat := f; isUpdatingFromView := false |};
          pending := false |} /\
  (forall t2 v2 f2,
     t2 <> t1' -> parses_to env t2 v2 f2 -> is_object v2 = true ->
     parsedSpec (state (timer_fires env (user_edit t2 c2))) = v2).
Proof.
  intros Hflag Htext Hparse Hobj Hserial Hdiff c2.
  assert (Hc2 : c2 = {| state := {| specString := t1'; parsedSpec := v1;
                                    parseError := None; specFormat := f;
                                    isUpdatingFromView := false |};
                        pending := false |}).
  { subst c2. rewrite (user_text_parsed _ _ _ _ Hflag Htext Hparse Hobj).
    rewrite Hserial. destruct (String.eqb_spec t1' t1); [ contradiction | ].
    reflexivity. }
  split; [ exact Hc2 | ]. intros t2 v2 f2 Ht2 Hparse2 Hobj2.
  rewrite Hc2. match goal with
  | |- context [user_edit t2 ?c0] =>
      rewrite (user_text_parsed c0 t2 v2 f2 eq_refl Ht2 Hparse2 Hobj2)
  end.
  now destruct (serialize_as env f2 v2).
Qed.

(** X13: a form edit.  A handler returns the object or array [v], which is
    serialised to [t'].  When [t'] differs from the current text, or a call
    of [parseSpec] was scheduled already, the next call of [parseSpec] only
    lowers the flag: the document is [v], the text is [t'] - a text the user
    had typed meanwhile is overwritten and never parsed. *)
Theorem X13_form_edit_is_kept
  (c : Component) (v : value) (t' : string) :
  is_object v = true ->
  serialize_as env (specFormat (state c)) v = Some t' ->
  (pending c = true \/ t' <> specString (state c)) ->
  let c1 := timer_fires env (form_edit env v c) in
  parsedSpec (state c1) = v /\ specString (state c1) = t' /\
  isUpdatingFromView (state c1) = false /\ pending c1 = false /\
  parseError (state c1) = parseError (state c) /\
  specFormat (state c1) = specFormat (state c).
Proof.
  intros Hobj Hserial Hpending c1. subst c1. unfold form_edit.
  unfold Object_is_new. rewrite Hobj. simpl negb.
  unfold after_document_change.
  rewrite serialize_effect_on_object by exact Hobj. simpl.
  rewrite Hserial. simpl.
  assert (Hp : pending c || negb (String.eqb t' (specString (state c))) = true).
  { destruct Hpending as [-> | Hne]; [ reflexivity | ].
    destruct (String.eqb_spec t' (specString (state c))); [ contradiction | ].
    apply orb_true_r. }
  unfold timer_fires. simpl. rewrite Hp. simpl. repeat split.
Qed.

(** X14: a text that neither parser accepts.  With the flag down, after the
    timer the text is still the one the user typed, the document is [null],
    a non-empty error is set, the flag is down and nothing is scheduled; the
    next text the user types is parsed. *)
Theorem X14_parse_error_keeps_the_text
  (c : Component) (t m : string) :
  isUpdatingFromView (state c) = false ->
  t <> specString (state c) ->
  JSON_parse env t = None -> load_object env t = LoadError m ->
  let c1 := timer_fires env (user_edit t c) in
  c1 = {| state := {| specString := t; parsedSpec := VNull;
                      parseError := Some (message_or_fallback m);
                      specFormat := specFormat (state c);
                      isUpdatingFromView := false |};
          pending := false |} /\
  message_or_fallback m <> "" /\
  (forall t2 v2 f2,
     t2 <> t -> parses_to env t2 v2 f2 -> is_object v2 = true ->
     parsedSpec (state (timer_fires env (user_edit t2 c1))) = v2).
Proof.
  intros Hflag Htext Hjson Hyaml c1.
  assert (Hc1 : c1 = {| state := {| specString := t; parsedSpec := VNull;
                                    parseError := Some (message_or_fallback m);
                                    specFormat := specFormat (state c);
                                    isUpdatingFromView := false |};
                        pending := false |}).
  { subst c1. destruct c as [[text doc err fmt flag] scheduled].
    simpl in Hflag, Htext. subst flag. unfold user_edit. simpl.
    destruct (String.eqb_spec t text); [ contradiction | ].
    unfold timer_fires. simpl.
    unfold parse_text. rewrite Hjson, Hyaml. simpl.
    unfold after_document_change, serialize_effect. simpl.
    rewrite String.eqb_refl.
    destruct (negb (Object_is_new doc VNull) || negb (same_format fmt fmt));
      reflexivity. }
  split; [ exact Hc1 | ]. split; [ apply message_or_fallback_nonempty | ].
  intros t2 v2 f2 Ht2 Hparse2 Hobj2. rewrite Hc1.
  match goal with
  | |- context [user_edit t2 ?c0] =>
      rewrite (user_text_parsed c0 t2 v2 f2 eq_refl Ht2 Hparse2 Hobj2)
  end.
  now destruct (serialize_as env f2 v2).
Qed.

End ComponentExtras.

(** X11 in the environment of the examples: the text [{}] is printed as it
    was typed, and the text [[1]] typed next is not parsed. *)
Lemma X11_edit_after_silent_echo_is_not_parsed_witness :
  let c1 := App.timer_fires Demo.env (App.user_edit "{}" (Demo.at_rest JS.VNull)) in
  let c2 := App.timer_fires Demo.env (App.user_edit "[1]" c1) in
  App.specString (App.state c2) = "[1]" /\
  App.parsedSpec (App.state c2) = JS.VObj [].
Proof.
  destruct (X11_edit_after_silent_echo_is_not_parsed Demo.env
              (Demo.at_rest JS.VNull) "{}" "[1]" (JS.VObj []) App.json)
    as (_ & Htext & Hdoc & _);
    try reflexivity; try discriminate.
  - left. reflexivity.
  - split; assumption.
Defined.

(** X12 in the environment that prints arrays: [[1]] is printed on three
    lines, the echo is consumed and [{}] typed next is parsed. *)
Lemma X12_echo_is_consumed_and_next_edit_parsed_witness :
  let c2 := App.timer_fires Demo.env_printing_arrays
              (App.timer_fires Demo.env_printing_arrays
                 (App.user_edit "[1]" (Demo.at_rest JS.VNull))) in
  App.isUpdatingFromView (App.state c2) = false /\
  App.parsedSpec
    (App.state (App.timer_fires Demo.env_printing_arrays (App.user_edit "{}" c2)))
  = JS.VObj [].
Proof.
  destruct (X12_echo_is_consumed_and_next_edit_parsed Demo.env_printing_arrays
              (Demo.at_rest JS.VNull) "[1]"
              ("[" ++ Demo.newline ++ "  1" ++ Demo.newline ++ "]")
              (JS.VArr [JS.VNum 1]) App.json)
    as (Hrest & Hnext); try reflexivity; try discriminate.
  cbv zeta. split.
  - now rewrite Hrest.
  - apply (Hnext "{}" (JS.VObj []) App.json); try reflexivity. discriminate.
Defined.

(** X13 in the environment of the examples: the handler returns [{}] while
    the text is another one. *)
Lemma X13_form_edit_is_kept_witness :
  let c1 := App.timer_fires Demo.env
              (App.form_edit Demo.env (JS.VObj [])
                 {| App.state := App.setSpecFormat App.json
                                   (Demo.editing Demo.petstore false);
                    App.pending := false |}) in
  App.parsedSpec (App.state c1) = JS.VObj [] /\
  App.specString (App.state c1) = "{}".
Proof.
  destruct (X13_form_edit_is_kept Demo.env
              {| App.state := App.setSpecFormat App.json
                                (Demo.editing Demo.petstore false);
                 App.pending := false |} (JS.VObj []) "{}")
    as (Hdoc & Htext & _); try reflexivity.
  - right. discriminate.
  - split; assumption.
Defined.

(** X14 in the environment of the examples: the text [{]. *)
Lemma X14_parse_error_keeps_the_text_witness :
  let c1 := App.timer_fires Demo.env
              (App.user_edit "{" (Demo.at_rest Demo.petstore)) in
  App.specString (App.state c1) = "{" /\
  App.parsedSpec (App.state c1) = JS.VNull /\
  App.pending c1 = false.
Proof.
  destruct (X14_parse_error_keeps_the_text Demo.env
              (Demo.at_rest Demo.petstore) "{"
              "unexpected end of the stream within a flow collection")
    as (Hc1 & _); try reflexivity; try discriminate.
  cbv zeta. now rewrite Hc1.
Defined.

(** * The schema editor: references, added parameters, types *)

Section SchemaEditing.
Import JS App PathItem.
Local Open Scope list_scope.

(** X15: an edit made through a reference is what the reference resolves to
    afterwards.  [SchemaView] edits a resolved schema at
    [schemaPathFromRef(ref)]; after [handleSpecUpdate] has written [v] there,
    [resolveRef] returns [v] for the same [ref], and [null] when [v] is
    [undefined]. *)
Theorem X15_edit_through_reference (ref : string) (v d r : value) :
  Utils.startsWith ref "#/" = true ->
  is_object d = true ->
  forallb (fun s => negb (Lodash.unsafe_key (toKey s)))
    (Utils.schemaPathFromRef ref) = true ->
  handleSpecUpdate (Utils.schemaPathFromRef ref) v d = Ok r ->
  Utils.resolveRef r ref = if is_undefined v then VNull else v.
Proof.
  intros Href Hd Hsafe Hupdate. unfold Utils.resolveRef.
  unfold Utils.schemaPathFromRef in *. rewrite Href in *. simpl negb in *.
  cbv iota in *. unfold handleSpecUpdate in Hupdate.
  rewrite (is_object_truthy _ Hd), cloneDeep_id in Hupdate. simpl in Hupdate.
  unfold Lodash.set in Hupdate. rewrite Hd in Hupdate.
  assert (Hne : map toKey (Utils.ref_steps ref) <> []).
  { unfold Utils.ref_steps. rewrite map_map.
    pose proof (split_nonempty "/"%char (Utils.substring_from 2 ref)) as Hs.
    destruct (Utils.split "/"%char (Utils.substring_from 2 ref));
      [ contradiction | discriminate ]. }
  destruct (get_in_set_in _ _ _ _ Hd Hne (safe_keys_map _ Hsafe) Hupdate)
    as [Hget _].
  unfold Lodash.get_or, Lodash.get.
  destruct (Utils.ref_steps ref) as [ | s steps ] eqn:Hsteps;
    [ now contradiction Hne | ].
  rewrite Hget. now destruct v.
Qed.

(** *** The key that [addParameter] chooses *)

Lemma NoDup_map_injective {A B : Type} (f : A -> B) (l : list A) :
  (forall a b, f a = f b -> a = b) -> NoDup l -> NoDup (map f l).
Proof.
  intros Hinj. induction 1 as [ | a l Hnotin Hnodup IH ]; simpl; constructor; auto.
  intros Hin. apply in_map_iff in Hin as (b & Hb & Hin).
  apply Hinj in Hb. now subst b.
Qed.

Lemma append_cancel (base a b : string) :
  (base ++ a)%string = (base ++ b)%string -> a = b.
Proof.
  induction base as [ | c base IH ]; simpl; auto. intros [= H]. auto.
Qed.

Lemma append_not_self (base a : string) :
  (base ++ a)%string = base -> a = EmptyString.
Proof.
  induction base as [ | c base IH ]; simpl; auto. intros [= H]. auto.
Qed.

Lemma key_of_N_injective (n m : N) : key_of_N n = key_of_N m -> n = m.
Proof.
  intros H. pose proof (canonical_N_key n) as Hn.
  rewrite H, canonical_N_key in Hn. now injection Hn.
Qed.

Lemma key_of_N_nonempty (n : N) : key_of_N n <> EmptyString.
Proof.
  intros H. pose proof (canonical_N_key n) as Hn. rewrite H in Hn.
  vm_compute in Hn. discriminate.
Qed.

Lemma candidate_injective (base : string) (i j : nat) :
  candidate base i = candidate base j -> i = j.
Proof.
  destruct i as [ | i ], j as [ | j ]; unfold candidate, numbered; auto.
  - intros H. symmetry in H. apply append_not_self in H.
    now apply key_of_N_nonempty in H.
  - intros H. apply append_not_self in H. now apply key_of_N_nonempty in H.
  - intros H. apply append_cancel, key_of_N_injective in H. lia.
Qed.

Lemma own_get_key (ps : list (string * value)) (k : string) (v : value) :
  own_get ps k = Some v -> In k (map fst ps).
Proof.
  induction ps as [ | [k' v'] ps IH ]; simpl; [ discriminate | ].
  destruct (String.eqb_spec k' k); auto.
Qed.

(** No more candidates than properties can all be taken. *)
Lemma taken_candidates (ps : list (string * value)) (base : string) (j : nat) :
  (forall j', j' < j -> truthy (prop (VObj ps) (candidate base j')) = true) ->
  j <= List.length ps.
Proof.
  intros Htaken.
  assert (Hincl : incl (map (candidate base) (seq 0 j)) (map fst ps)).
  { intros k Hk. apply in_map_iff in Hk as (j' & <- & Hj').
    apply in_seq in Hj'. specialize (Htaken j' ltac:(lia)). simpl in Htaken.
    destruct (own_get ps (candidate base j')) eqn:Hget; [ | discriminate ].
    eapply own_get_key; eauto. }
  assert (Hnodup : NoDup (map (candidate base) (seq 0 j))).
  { apply NoDup_map_injective; [ | apply seq_NoDup ].
    intros a b. apply candidate_injective. }
  pose proof (NoDup_incl_length Hnodup Hincl) as Hlen.
  now rewrite !length_map, length_seq in Hlen.
Qed.

Lemma free_key_found (ps : list (string * value)) (base : string) :
  forall fuel j,
  (forall j', j' < j -> truthy (prop (VObj ps) (candidate base j')) = true) ->
  List.length ps < fuel + j ->
  exists j'', j <= j'' <= List.length ps /\
    free_key fuel (VObj ps) base (candidate base j) (N.of_nat (S j))
    = Some (candidate base j'') /\
    truthy (prop (VObj ps) (candidate base j'')) = false /\
    (forall j', j' < j'' ->
       truthy (prop (VObj ps) (candidate base j')) = true).
Proof.
  induction fuel as [ | fuel IH ]; intros j Htaken Hfuel.
  - apply taken_candidates in Htaken. lia.
  - cbn [free_key].
    destruct (truthy (prop (VObj ps) (candidate base j))) eqn:Hj.
    + assert (Hnext : forall j', j' < S j ->
                truthy (prop (VObj ps) (candidate base j')) = true).
      { intros j' Hj'. destruct (Nat.eq_dec j' j) as [-> | ]; auto.
        apply Htaken. lia. }
      destruct (IH (S j) Hnext ltac:(lia)) as (j'' & Hrange & Hfree & Hrest).
      exists j''. split; [ lia | ]. split; auto.
    + exists j. pose proof (taken_candidates _ _ _ Htaken). auto.
Qed.

Lemma base_key_not_numeral (t : addType) (suffix : string) :
  canonical_N (base_key t ++ suffix)%string = None.
Proof.
  unfold canonical_N.
  assert (H : NilEmpty.uint_of_string (base_key t ++ suffix)%string = None).
  { destruct t; simpl;
      repeat match goal with
             | |- context [NilEmpty.uint_of_string ?s] =>
                 destruct (NilEmpty.uint_of_string s); simpl
             end; reflexivity. }
  now rewrite H.
Qed.

Lemma candidate_not_numeral (t : addType) (j : nat) :
  canonical_N (candidate (base_key t) j) = None.
Proof.
  destruct j; unfold candidate, numbered.
  - rewrite <- (base_key_not_numeral t EmptyString). f_equal.
    now destruct t.
  - apply base_key_not_numeral.
Qed.

Lemma candidate_stored (t : addType) (j : nat) ps :
  stores ps (candidate (base_key t) j) = true.
Proof.
  apply stores_other. destruct t, j; unfold candidate, numbered; simpl;
    discriminate.
Qed.

Lemma base_key_not_length (t : addType) :
  String.eqb (base_key t) "length" = false.
Proof. now destruct t. Qed.

(** X16: the loop of [addParameter] ends, within as many rounds as the
    schema has properties, and the key it chooses is the first of
    [newParameter], [newParameter1], [newParameter2], ... ([newObject], ...
    for an object) under which the properties hold nothing, or a value that
    is falsy. *)
Theorem X16_addParameter_chooses_first_free_key
  (t : addType) (schema : value) (path : Path) (fuel : nat) :
  List.length (entries (currentProperties schema)) < fuel ->
  exists j,
    j <= List.length (entries (currentProperties schema)) /\
    addParameter fuel t schema path
    = Some (onAddItem (path ++ [SKey "properties"])
              (VObj [(candidate (base_key t) j, newItem t)])) /\
    truthy (prop (currentProperties schema) (candidate (base_key t) j)) = false /\
    (forall j', j' < j ->
       truthy (prop (currentProperties schema) (candidate (base_key t) j'))
       = true).
Proof.
  intros Hfuel. unfold addParameter.
  destruct (currentProperties schema) as [ | | b | n | s | xs | ps ] eqn:Hcp.
  1-6: exists 0; split; [ lia | ];
       destruct fuel as [ | fuel ]; [ simpl in Hfuel; lia | ];
       cbn [free_key candidate]; simpl prop;
       rewrite ?base_key_not_length;
       rewrite ?(candidate_not_numeral t 0 : canonical_N (base_key t) = None);
       simpl;
       repeat split; auto; intros; lia.
  destruct (free_key_found ps (base_key t) fuel 0) as (j & Hj & Hfree & Hfalsy & Htaken).
  - intros; lia.
  - simpl in Hfuel. lia.
  - exists j. simpl entries. split; [ lia | ].
    change (candidate (base_key t) 0) with (base_key t) in Hfree.
    change (N.of_nat 1) with 1%N in Hfree. rewrite Hfree. auto.
Qed.

Lemma truthy_values_own (ps : list (string * value)) (k : string) (v : value) :
  forallb (fun kv => truthy (snd kv)) ps = true ->
  own_get ps k = Some v -> truthy v = true.
Proof.
  induction ps as [ | [k' v'] ps IH ]; simpl; [ discriminate | ].
  intros H. apply andb_prop in H as [Hv Hps].
  destruct (String.eqb k' k); auto. now intros [= <-].
Qed.

(** X17: [addParameter] followed by [handleAddItem] keeps every property of
    the schema.  The schema at [path] has the plain object [ps] as its
    [properties], with no value that is falsy: the key chosen is not one of
    [ps], and in the document returned the properties are those of [ps], in
    their order, followed by the new one. *)
Theorem X17_addParameter_keeps_the_properties
  (t : addType) (path : Path) (d schema : value)
  (ps : list (string * value)) :
  Lodash.get d path = schema ->
  prop schema "properties" = VObj ps ->
  forallb (fun kv => truthy (snd kv)) ps = true ->
  exists newKey r,
    addParameter (S (List.length ps)) t schema path
    = Some (onAddItem (path ++ [SKey "properties"])
              (VObj [(newKey, newItem t)])) /\
    handleAddItem (path ++ [SKey "properties"]) (VObj [(newKey, newItem t)]) d
    = Ok r /\
    own_get ps newKey = None /\
    Lodash.get r (path ++ [SKey "properties"])
    = VObj (ps ++ [(newKey, newItem t)]).
Proof.
  intros Hschema Hproperties Htruthy.
  assert (Hobj : is_object schema = true).
  { destruct (is_object schema) eqn:Hs; auto.
    apply (prop_of_scalar _ "properties") in Hs.
    now rewrite Hproperties in Hs. }
  assert (Hcollection : Lodash.get d (path ++ [SKey "properties"]) = VObj ps).
  { rewrite get_snoc by now rewrite Hschema. now rewrite Hschema. }
  destruct (free_key_found ps (base_key t) (S (List.length ps)) 0)
    as (j & _ & Hfree & Hfalsy & _); [ intros; lia | lia | ].
  assert (Habsent : own_get ps (candidate (base_key t) j) = None).
  { simpl in Hfalsy.
    destruct (own_get ps (candidate (base_key t) j)) as [v | ] eqn:Hget; auto.
    now rewrite (truthy_values_own _ _ _ Htruthy Hget) in Hfalsy. }
  exists (candidate (base_key t) j).
  exists (modify_at (map toKey (path ++ [SKey "properties"]))
            (fun _ => VObj (own_set ps (candidate (base_key t) j) (newItem t)))
            d).
  split; [ | split; [ | split ] ]; auto.
  - unfold addParameter, currentProperties. rewrite Hproperties. simpl truthy.
    cbv iota. change (candidate (base_key t) 0) with (base_key t) in Hfree.
    change (N.of_nat 1) with 1%N in Hfree. now rewrite Hfree.
  - apply add_to_object; [ exact Hcollection | apply candidate_stored ].
  - rewrite get_modify_at by now rewrite Hcollection.
    unfold own_set, has_own, array_index.
    now rewrite Habsent, candidate_not_numeral.
Qed.

End SchemaEditing.

(** * The type menu and the checkbox of a schema *)

Section PropertyFacts.
Import JS.

Lemma prop_set_same ps k v : prop (VObj (own_set ps k v)) k = v.
Proof. simpl. now rewrite own_get_set_same. Qed.

Lemma prop_set_other ps k v k' :
  k' <> k -> prop (VObj (own_set ps k v)) k' = prop (VObj ps) k'.
Proof. intros H. simpl. now rewrite own_get_set_other. Qed.

Lemma prop_delete_same ps k : prop (VObj (own_delete ps k)) k = VUndef.
Proof. simpl. now rewrite own_get_delete_same. Qed.

Lemma prop_delete_other ps k k' :
  k' <> k -> prop (VObj (own_delete ps k)) k' = prop (VObj ps) k'.
Proof. intros H. simpl. now rewrite own_get_delete_other. Qed.

End PropertyFacts.

Ltac literal_keys :=
  solve [ discriminate | congruence | intros ->; simpl in *; congruence ].

Ltac read_props_in H :=
  repeat first
    [ rewrite prop_set_same in H
    | rewrite prop_delete_same in H
    | rewrite prop_set_other in H by literal_keys
    | rewrite prop_delete_other in H by literal_keys ].

Ltac read_props :=
  repeat first
    [ rewrite prop_set_same
    | rewrite prop_delete_same
    | rewrite prop_set_other by literal_keys
    | rewrite prop_delete_other by literal_keys ].

Section TypeMenu.
Import JS App PathItem.
Local Open Scope list_scope.

Lemma assign_object ps k v : assign (VObj ps) k v = Ok (VObj (own_set ps k v)).
Proof. reflexivity. Qed.

Lemma delete_key_object ps k : delete_key (VObj ps) k = VObj (own_delete ps k).
Proof. reflexivity. Qed.

(** What [handleTypeChange] passes to [onUpdate] for a schema that is a
    plain object: a plain object again; the call never throws. *)
Lemma handleTypeChange_object (value : string) (ps : list (string * JS.value))
  (path : Path) :
  exists ps',
    handleTypeChange value (VObj ps) path = Ok (onUpdate path (VObj ps')).
Proof.
  unfold handleTypeChange. rewrite cloneDeep_id.
  destruct (String.eqb value "enum").
  - destruct (negb (truthy (prop (VObj ps) "type"))
              || negb (includes ["string"; "number"; "integer"; "boolean"]
                         (prop (VObj ps) "type")));
      rewrite ?assign_object; cbn [bind]; rewrite assign_object; cbn [bind];
      match goal with
      | |- context [if ?c then _ else _] => destruct c
      end; rewrite ?assign_object; cbn [bind]; eauto.
  - rewrite delete_key_object. destruct (type_and_format value) as [newType newFormat].
    rewrite assign_object. cbn [bind].
    destruct (truthy newFormat); rewrite ?assign_object, ?delete_key_object;
      cbn [bind];
      destruct (String.eqb newType "object");
      rewrite ?delete_key_object;
      try match goal with
          | |- context [if negb ?c then _ else _] => destruct c
          end; cbn [negb]; rewrite ?assign_object; cbn [bind]; eauto;
      destruct (String.eqb newType "array");
      rewrite ?delete_key_object;
      try match goal with
          | |- context [if negb ?c then _ else _] => destruct c
          end; cbn [negb]; rewrite ?assign_object; cbn [bind]; eauto.
Qed.

(** A choice other than [enum]: the type and the format are those of the
    choice, the constraint [enum] is gone, and only [items] and [properties]
    may change besides. *)
Lemma handleTypeChange_plain (value newType : string) (newFormat : JS.value)
  (ps : list (string * JS.value)) (path : Path) :
  String.eqb value "enum" = false ->
  type_and_format value = (newType, newFormat) ->
  exists ps',
    handleTypeChange value (VObj ps) path = Ok (onUpdate path (VObj ps')) /\
    prop (VObj ps') "enum" = VUndef /\
    prop (VObj ps') "type" = VStr newType /\
    prop (VObj ps') "format" = (if truthy newFormat then newFormat else VUndef) /\
    (forall k, k <> "type" -> k <> "enum" -> k <> "format" -> k <> "items" ->
               k <> "properties" ->
               prop (VObj ps') k = prop (VObj ps) k) /\
    prop (VObj ps') "properties"
    = (if String.eqb newType "object"
       then if truthy (prop (VObj ps) "properties")
            then prop (VObj ps) "properties" else VObj []
       else VUndef) /\
    prop (VObj ps') "items"
    = (if String.eqb newType "object" then VUndef
       else if String.eqb newType "array"
            then if truthy (prop (VObj ps) "items")
                 then prop (VObj ps) "items"
                 else VObj [("type", VStr "string")]
            else VUndef).
Proof.
  intros Hvalue Hsplit. unfold handleTypeChange.
  rewrite cloneDeep_id, Hvalue, Hsplit, delete_key_object, assign_object.
  cbn [bind].
  destruct (truthy newFormat); rewrite ?assign_object, ?delete_key_object;
    cbn [bind];
    destruct (String.eqb newType "object");
    rewrite ?delete_key_object;
    try match goal with
        | |- context [if negb (truthy ?c) then _ else _] =>
            let H := fresh "Hold" in
            destruct (truthy c) eqn:H; read_props_in H
        end; cbn [negb]; rewrite ?assign_object; cbn [bind];
    try (eexists; split; [ reflexivity | ];
         repeat split; intros; read_props; rewrite ?Hold; reflexivity);
    destruct (String.eqb newType "array");
    rewrite ?delete_key_object;
    try match goal with
        | |- context [if negb (truthy ?c) then _ else _] =>
            let H := fresh "Hold" in
            destruct (truthy c) eqn:H; read_props_in H
        end; cbn [negb]; rewrite ?assign_object; cbn [bind];
    eexists; (split; [ reflexivity | ]);
    repeat split; intros; read_props; rewrite ?Hold; reflexivity.
Qed.

(** The choice [enum]: the schema gets a constraint [enum], its type is kept
    when it is one of [string], [number], [integer] and [boolean] and is
    [string] otherwise, and nothing else changes. *)
Lemma handleTypeChange_enum (ps : list (string * JS.value)) (path : Path) :
  exists ps',
    handleTypeChange "enum" (VObj ps) path = Ok (onUpdate path (VObj ps')) /\
    truthy (prop (VObj ps') "enum") = true /\
    prop (VObj ps') "type"
    = (if includes ["string"; "number"; "integer"; "boolean"]
            (prop (VObj ps) "type")
       then prop (VObj ps) "type" else VStr "string") /\
    (forall k, k <> "type" -> k <> "enum" ->
               prop (VObj ps') k = prop (VObj ps) k).
Proof.
  unfold handleTypeChange. rewrite cloneDeep_id.
  change (String.eqb "enum" "enum") with true. cbv iota.
  assert (Hlisted : forall v,
            includes ["string"; "number"; "integer"; "boolean"] v = true ->
            truthy v = true).
  { intros [ | | b | n | s | xs | qs ]; simpl; try discriminate.
    destruct s; [ discriminate | reflexivity ]. }
  destruct (includes ["string"; "number"; "integer"; "boolean"]
              (prop (VObj ps) "type")) eqn:Hincl.
  - rewrite (Hlisted _ Hincl). cbn [negb orb bind].
    rewrite assign_object. cbn [bind].
    match goal with
    | |- context [if ?c then assign _ _ _ else _] => destruct c
    end; rewrite ?assign_object; cbn [bind];
      (eexists; split; [ reflexivity | ]); read_props;
      (split; [ | split; [ reflexivity | intros; now read_props ] ]);
      try reflexivity.
    now destruct (truthy (prop (VObj ps) "enum")) eqn:He.
  - rewrite orb_true_r. rewrite assign_object. cbn [bind].
    rewrite assign_object. cbn [bind].
    match goal with
    | |- context [if ?c then assign _ _ _ else _] => destruct c
    end; rewrite ?assign_object; cbn [bind];
      (eexists; split; [ reflexivity | ]); read_props;
      (split; [ | split; [ reflexivity | intros; now read_props ] ]);
      try reflexivity.
    now destruct (truthy (prop (VObj ps) "enum")) eqn:He.
Qed.

(** X18: the type menu shows the choice just made.  For a schema that is a
    plain object and each value of [combinedTypes], [handleTypeChange] passes
    to [onUpdate] a schema on which [getCurrentTypeValue] returns that value;
    for the value [enum] this needs a schema whose type is not [boolean]. *)
Theorem X18_type_menu_shows_the_choice
  (value : string) (ps : list (string * JS.value)) (path : Path) :
  In value (map snd combinedTypes) ->
  (value = "enum" -> type_is (prop (VObj ps) "type") "boolean" = false) ->
  exists newSchema,
    handleTypeChange value (VObj ps) path = Ok (onUpdate path newSchema) /\
    getCurrentTypeValue newSchema = Ok (VStr value).
Proof.
  intros Hmenu Hboolean.
  assert (Hplain : forall newType newFormat shown,
            String.eqb value "enum" = false ->
            type_and_format value = (newType, newFormat) ->
            getCurrentTypeValue
              (VObj [("type", VStr newType);
                     ("format", if truthy newFormat then newFormat else VUndef)])
            = Ok shown ->
            exists newSchema,
              handleTypeChange value (VObj ps) path
              = Ok (onUpdate path newSchema) /\
              getCurrentTypeValue newSchema = Ok shown).
  { intros newType newFormat shown Hvalue Hsplit Hshown.
    destruct (handleTypeChange_plain value newType newFormat ps path Hvalue Hsplit)
      as (ps' & Hcall & Henum & Htype & Hformat & _).
    exists (VObj ps'). split; [ exact Hcall | ].
    unfold getCurrentTypeValue, type_of_schema in *.
    rewrite Henum, Htype, Hformat. exact Hshown. }
  simpl in Hmenu.
  destruct Hmenu as [<- | [<- | [<- | [<- | [<- | [<- | [<- | [<- | [<- | [<- | [<- | [] ]]]]]]]]]]];
    try (eapply Hplain; reflexivity).
  destruct (handleTypeChange_enum ps path) as (ps' & Hcall & Henum & Htype & _).
  exists (VObj ps'). split; [ exact Hcall | ].
  unfold getCurrentTypeValue, type_of_schema. rewrite Henum, Htype.
  specialize (Hboolean eq_refl).
  destruct (includes ["string"; "number"; "integer"; "boolean"]
              (prop (VObj ps) "type")) eqn:Hincl.
  - destruct (prop (VObj ps) "type"); try discriminate.
    simpl in Hboolean |- *. now rewrite Hboolean.
  - reflexivity.
Qed.

(** X19: a change of type keeps what the schema says besides.  For a schema
    that is a plain object and any [value], [handleTypeChange] passes a plain
    object to [onUpdate] - it does not throw - in which every key other than
    [type], [enum], [format], [items] and [properties] reads as before; the
    choice [enum] also keeps [format], [items] and [properties]. *)
Theorem X19_type_change_keeps_other_keys
  (value : string) (ps : list (string * JS.value)) (path : Path) :
  exists ps',
    handleTypeChange value (VObj ps) path = Ok (onUpdate path (VObj ps')) /\
    forall k,
      k <> "type" -> k <> "enum" ->
      (value = "enum" \/
       (k <> "format" /\ k <> "items" /\ k <> "properties")) ->
      prop (VObj ps') k = prop (VObj ps) k.
Proof.
  destruct (String.eqb_spec value "enum") as [-> | Hvalue].
  - destruct (handleTypeChange_enum ps path) as (ps' & Hcall & _ & _ & Hframe).
    exists ps'. split; [ exact Hcall | ]. intros k Htype Henum _. now apply Hframe.
  - destruct (type_and_format value) as [newType newFormat] eqn:Hsplit.
    apply String.eqb_neq in Hvalue.
    destruct (handleTypeChange_plain value newType newFormat ps path Hvalue Hsplit)
      as (ps' & Hcall & _ & _ & _ & Hframe & _).
    exists ps'. split; [ exact Hcall | ].
    intros k Htype Henum [-> | (Hformat & Hitems & Hproperties)].
    + apply String.eqb_neq in Hvalue. contradiction.
    + now apply Hframe.
Qed.

(** [handleSpecUpdate] one key below a plain object that [get] finds. *)
Lemma update_under_object (parent : Path) (k : string) (v d u : value)
  (ps : list (string * value)) :
  Lodash.get d parent = VObj ps ->
  forallb (fun s => negb (Lodash.unsafe_key (toKey s))) (parent ++ [SKey k])
  = true ->
  handleSpecUpdate (parent ++ [SKey k]) v d = Ok u ->
  u = modify_at (map toKey parent) (fun _ => VObj (own_set ps k v)) d /\
  Lodash.get u parent = VObj (own_set ps k v).
Proof.
  intros Hparent Hsafe Hu.
  assert (Hobj : is_object (Lodash.get d parent) = true) by now rewrite Hparent.
  assert (Hshape : u = modify_at (map toKey parent)
                         (fun _ => VObj (own_set ps k v)) d).
  { unfold handleSpecUpdate in Hu.
    rewrite (get_object_truthy _ _ Hobj), cloneDeep_id in Hu. simpl in Hu.
    unfold Lodash.set in Hu. rewrite (get_object_root d parent Hobj) in Hu.
    rewrite map_app in Hu. simpl map in Hu.
    apply safe_keys_map in Hsafe. rewrite map_app in Hsafe. simpl map in Hsafe.
    apply (set_in_under_object (map toKey parent) d k v u ps); auto.
    destruct parent as [ | s parent ]; [ discriminate | exact Hparent ]. }
  split; [ exact Hshape | ]. subst u. now rewrite get_modify_at by exact Hobj.
Qed.

(** X20: the checkbox [Nullable].  For a schema that is a plain object,
    [handleNullableChange] passes to [onUpdate] a plain object in which
    [nullable] is truthy exactly when the box was checked and every other key
    reads as before; checking the box of a schema without the key and
    unchecking it gives the schema back. *)
Theorem X20_nullable_checkbox
  (isChecked : bool) (ps : list (string * value)) (path : Path) :
  exists ps',
    handleNullableChange isChecked (VObj ps) path
    = Ok (onUpdate path (VObj ps')) /\
    truthy (prop (VObj ps') "nullable") = isChecked /\
    (forall k, k <> "nullable" -> prop (VObj ps') k = prop (VObj ps) k) /\
    (isChecked = true -> own_get ps "nullable" = None ->
     handleNullableChange false (VObj ps') path = Ok (onUpdate path (VObj ps))).
Proof.
  unfold handleNullableChange. rewrite cloneDeep_id.
  destruct isChecked; rewrite ?assign_object, ?delete_key_object; cbn [bind];
    eexists; (split; [ reflexivity | ]); read_props;
    (split; [ reflexivity | ]); (split; [ intros; now read_props | ]).
  - intros _ Habsent. rewrite cloneDeep_id, delete_key_object. cbn [bind].
    now rewrite own_delete_set, own_delete_absent.
  - discriminate.
Qed.

(** X21: choosing [object] in the type menu prepares the schema for
    [addParameter].  The schema at [path] is a plain object without
    [properties]; after [handleTypeChange('object')] and [handleSpecUpdate],
    [addParameter] and [handleAddItem] leave a mapping with the one new
    property at [properties]. *)
Theorem X21_object_type_then_addParameter
  (t : addType) (parent : Path) (key : string) (d : value)
  (qs ps : list (string * value)) :
  Lodash.get d parent = VObj qs ->
  own_get qs key = Some (VObj ps) ->
  forallb (fun s => negb (Lodash.unsafe_key (toKey s))) (parent ++ [SKey key])
  = true ->
  truthy (prop (VObj ps) "properties") = false ->
  let path := parent ++ [SKey key] in
  exists schema1,
    handleTypeChange "object" (VObj ps) path = Ok (onUpdate path schema1) /\
    forall d1,
      handleSpecUpdate path schema1 d = Ok d1 ->
      Lodash.get d1 path = schema1 /\
      addParameter 1 t schema1 path
      = Some (onAddItem (path ++ [SKey "properties"])
                (VObj [(base_key t, newItem t)])) /\
      exists d2,
        handleAddItem (path ++ [SKey "properties"])
          (VObj [(base_key t, newItem t)]) d1 = Ok d2 /\
        Lodash.get d2 (path ++ [SKey "properties"])
        = VObj [(base_key t, newItem t)].
Proof.
  intros Hparent Hkey Hsafe Hnone path.
  destruct (handleTypeChange_plain "object" "object" VUndef ps path
              eq_refl eq_refl)
    as (ps1 & Hcall & _ & _ & _ & _ & Hproperties & _).
  change (String.eqb "object" "object") with true in Hproperties.
  rewrite Hnone in Hproperties.
  exists (VObj ps1). split; [ exact Hcall | ]. intros d1 Hd1.
  destruct (update_under_object _ _ _ _ _ _ Hparent Hsafe Hd1) as [_ Hget1].
  assert (Hschema1 : Lodash.get d1 path = VObj ps1).
  { unfold path. rewrite get_snoc by now rewrite Hget1.
    rewrite Hget1. apply prop_set_same. }
  assert (Hcollection : Lodash.get d1 (path ++ [SKey "properties"]) = VObj []).
  { rewrite get_snoc by now rewrite Hschema1. now rewrite Hschema1. }
  split; [ exact Hschema1 | ]. split.
  - unfold addParameter, currentProperties. rewrite Hproperties.
    now destruct t.
  - eexists.
    split; [ apply (add_to_object _ _ _ _ _ []);
             [ exact Hcollection | apply (candidate_stored t 0) ] | ].
    rewrite get_modify_at by now rewrite Hcollection.
    unfold own_set, has_own, array_index.
    rewrite (candidate_not_numeral t 0 : canonical_N (base_key t) = None).
    reflexivity.
Qed.

End TypeMenu.

(** * The tabs of the methods of a path *)

Section MethodTabs.
Import JS App PathItem.
Local Open Scope list_scope.

Lemma available_iff (pathItem : value) (m : string) :
  existsb (String.eqb m)
    (filter (fun m' => truthy (prop pathItem m')) httpMethods) = true
  <-> In m httpMethods /\ truthy (prop pathItem m) = true.
Proof.
  rewrite existsb_exists. split.
  - intros (m' & Hin & Heq). apply String.eqb_eq in Heq. subst m'.
    now apply filter_In in Hin.
  - intros H. exists m. split; [ now apply filter_In | apply String.eqb_refl ].
Qed.

Lemma method_nonempty (m : string) : In m httpMethods -> truthy (VStr m) = true.
Proof.
  simpl. intros H.
  repeat (destruct H as [<- | H]; [ reflexivity | ]). contradiction.
Qed.

(** The effect leaves a tab that is a method of the item. *)
Lemma effect_keeps_enabled (pathItem : value) (m : string) :
  nullish pathItem = false ->
  In m httpMethods -> truthy (prop pathItem m) = true ->
  activeMethod_effect pathItem (Some m) = Ok (Some m).
Proof.
  intros Hitem Hin Htruthy. unfold activeMethod_effect, availableMethods.
  rewrite Hitem. cbn [bind].
  destruct (available_iff pathItem m) as [_ H].
  specialize (H (conj Hin Htruthy)).
  destruct (filter (fun m' => truthy (prop pathItem m')) httpMethods);
    [ discriminate | ].
  now rewrite (method_nonempty m Hin), H.
Qed.

(** X22: after the effect of [PathItem] the active tab is a method that the
    path item has, and there is none only when the item has no method; a tab
    that is a method of the item stays, and running the effect again changes
    nothing.  The initial state is one the effect leaves as it is. *)
Theorem X22_active_tab_is_an_enabled_method
  (pathItem : value) (activeMethod : option string) :
  nullish pathItem = false ->
  exists after,
    activeMethod_effect pathItem activeMethod = Ok after /\
    activeMethod_effect pathItem after = Ok after /\
    (after = None <-> availableMethods pathItem = Ok []) /\
    (forall m, after = Some m ->
               In m httpMethods /\ truthy (prop pathItem m) = true) /\
    (forall m, activeMethod = Some m -> In m httpMethods ->
               truthy (prop pathItem m) = true -> after = Some m) /\
    exists initial,
      initial_activeMethod pathItem = Ok initial /\
      activeMethod_effect pathItem initial = Ok initial.
Proof.
  intros Hitem.
  assert (Hinitial : exists initial,
            initial_activeMethod pathItem = Ok initial /\
            activeMethod_effect pathItem initial = Ok initial).
  { unfold initial_activeMethod. rewrite Hitem. eexists. split; [ reflexivity | ].
    destruct (find (fun m => truthy (prop pathItem m)) httpMethods) as [m | ]
      eqn:Hfind.
    - apply find_some in Hfind as [Hin Htruthy].
      now apply effect_keeps_enabled.
    - unfold activeMethod_effect, availableMethods. rewrite Hitem. cbn [bind].
      destruct (filter (fun m => truthy (prop pathItem m)) httpMethods)
        as [ | first rest ] eqn:Hfilter; [ reflexivity | ].
      assert (Hin : In first (first :: rest)) by now left.
      rewrite <- Hfilter in Hin. apply filter_In in Hin as [Hin Htruthy].
      now rewrite (find_none _ _ Hfind _ Hin) in Htruthy. }
  assert (Hmain : exists after,
            activeMethod_effect pathItem activeMethod = Ok after /\
            activeMethod_effect pathItem after = Ok after /\
            (after = None <-> availableMethods pathItem = Ok []) /\
            (forall m, after = Some m ->
                       In m httpMethods /\ truthy (prop pathItem m) = true) /\
            (forall m, activeMethod = Some m -> In m httpMethods ->
                       truthy (prop pathItem m) = true -> after = Some m)).
  { clear Hinitial.
    unfold activeMethod_effect, availableMethods. rewrite Hitem. cbn [bind].
    pose proof (available_iff pathItem) as Havailable.
    destruct (filter (fun m => truthy (prop pathItem m)) httpMethods)
      as [ | first rest ] eqn:Hfilter.
    - exists None. split; [ reflexivity | ]. split; [ reflexivity | ].
      split; [ split; reflexivity | ]. split; [ discriminate | ].
      intros m -> Hin Htruthy.
      destruct (Havailable m) as [_ H]. discriminate (H (conj Hin Htruthy)).
    - assert (Hfirst : In first httpMethods
                       /\ truthy (prop pathItem first) = true).
      { apply Havailable. simpl. now rewrite String.eqb_refl. }
      assert (Hstays : forall m, In m httpMethods ->
                truthy (prop pathItem m) = true ->
                (if negb (truthy (VStr m))
                    || negb (existsb (String.eqb m) (first :: rest))
                 then Some first else Some m) = Some m).
      { intros m Hin Htruthy. rewrite (method_nonempty m Hin).
        destruct (Havailable m) as [_ H]. now rewrite (H (conj Hin Htruthy)). }
      assert (Hresult : forall x : string,
                In x httpMethods /\ truthy (prop pathItem x) = true ->
                (forall m, activeMethod = Some m -> In m httpMethods ->
                           truthy (prop pathItem m) = true -> Some x = Some m) ->
                Ok (Some x)
                = Ok (Some x) :> outcome (option string) /\
                Ok (if negb (truthy (VStr x))
                       || negb (existsb (String.eqb x) (first :: rest))
                    then Some first else Some x)
                = Ok (Some x) /\
                (Some x = None <-> Ok (first :: rest) = Ok []) /\
                (forall m, Some x = Some m ->
                           In m httpMethods /\ truthy (prop pathItem m) = true) /\
                (forall m, activeMethod = Some m -> In m httpMethods ->
                           truthy (prop pathItem m) = true -> Some x = Some m)).
      { intros x Hx Hkept. split; [ reflexivity | ].
        split; [ now rewrite Hstays by tauto | ].
        split; [ split; discriminate | ].
        split; [ now intros m [= <-] | exact Hkept ]. }
      destruct activeMethod as [m | ].
      + destruct (negb (truthy (VStr m))
                  || negb (existsb (String.eqb m) (first :: rest))) eqn:Hm.
        * exists (Some first). apply Hresult; auto.
          intros m' [= <-] Hin Htruthy. rewrite (method_nonempty m Hin) in Hm.
          destruct (Havailable m) as [_ H].
          rewrite (H (conj Hin Htruthy)) in Hm. discriminate.
        * exists (Some m). apply Hresult.
          -- apply orb_false_elim in Hm as [_ Hm]. apply negb_false_iff in Hm.
             now apply Havailable in Hm.
          -- now intros m' [= <-].
      + exists (Some first). apply Hresult; auto. discriminate. }
  destruct Hmain as (after & H1 & H2 & H3 & H4 & H5).
  exists after. repeat (split; [ assumption | ]). exact Hinitial.
Qed.

Lemma toUpperCase_method (m : string) :
  In m httpMethods -> exists METHOD, toUpperCase m = Ok METHOD.
Proof.
  simpl. intros H.
  repeat (destruct H as [<- | H]; [ eexists; reflexivity | ]). contradiction.
Qed.

Lemma method_is_safe (m : string) :
  In m httpMethods -> Lodash.unsafe_key m = false.
Proof.
  simpl. intros H.
  repeat (destruct H as [<- | H]; [ reflexivity | ]). contradiction.
Qed.

(** X23: enabling a method.  The item under the key [path] of [paths] is a
    plain object without the method [m] of [httpMethods]:
    [handleToggleMethod(m, true)] asks for the new operation to be written
    and makes [m] the active tab; after [handleSpecUpdate] the item is the
    former one with the operation under [m], and the effect keeps the tab. *)
Theorem X23_enabled_method_gets_the_tab
  (path m : string) (activeMethod : option string) (d : value)
  (ps : list (string * value)) :
  Lodash.get d [SKey "paths"; SKey path] = VObj ps ->
  Lodash.unsafe_key path = false ->
  In m httpMethods ->
  truthy (prop (VObj ps) m) = false ->
  exists METHOD,
    toUpperCase m = Ok METHOD /\
    handleToggleMethod path (VObj ps) activeMethod m true
    = Ok (Some (onUpdate [SKey "paths"; SKey path; SKey m] (newOp METHOD)),
          Some m) /\
    forall d1,
      handleSpecUpdate [SKey "paths"; SKey path; SKey m] (newOp METHOD) d
      = Ok d1 ->
      Lodash.get d1 [SKey "paths"; SKey path]
      = VObj (own_set ps m (newOp METHOD)) /\
      activeMethod_effect (Lodash.get d1 [SKey "paths"; SKey path]) (Some m)
      = Ok (Some m).
Proof.
  intros Hitem Hpath Hm Hdisabled.
  destruct (toUpperCase_method m Hm) as [METHOD Hupper].
  exists METHOD. split; [ exact Hupper | ]. split.
  - unfold handleToggleMethod. rewrite (method_nonempty m Hm).
    cbn [negb nullish]. rewrite Hdisabled, Hupper. reflexivity.
  - intros d1 Hd1.
    destruct (update_under_object [SKey "paths"; SKey path] m (newOp METHOD)
                d d1 ps Hitem) as [_ Hget1]; auto.
    { simpl. rewrite Hpath, (method_is_safe m Hm). reflexivity. }
    split; [ exact Hget1 | ]. rewrite Hget1.
    apply effect_keeps_enabled; auto. now rewrite prop_set_same.
Qed.

(** X24: disabling a method.  [handleToggleMethod(m, false)] asks for the
    operation to be removed; after [handleRemoveItemByPath] the item is the
    former one without the key [m], the effect never leaves [m] as the
    active tab, and an item that did not have the key before it was enabled
    is the document it was. *)
Theorem X24_disabled_method_loses_the_tab
  (env : Env) (path m : string) (activeMethod : option string) (d : value)
  (ps : list (string * value)) :
  Lodash.get d [SKey "paths"; SKey path] = VObj ps ->
  handleToggleMethod path (VObj ps) activeMethod m false
  = Ok (Some (onRemoveItem [SKey "paths"; SKey path; SKey m]), activeMethod) /\
  let d1 := handleRemoveItemByPath env [SKey "paths"; SKey path; SKey m] d in
  Lodash.get d1 [SKey "paths"; SKey path] = VObj (own_delete ps m) /\
  (forall after,
     activeMethod_effect (Lodash.get d1 [SKey "paths"; SKey path]) activeMethod
     = Ok after -> after <> Some m) /\
  (forall op d0 qs,
     Lodash.get d0 [SKey "paths"; SKey path] = VObj qs ->
     own_get qs m = None ->
     Lodash.unsafe_key path = false -> Lodash.unsafe_key m = false ->
     handleSpecUpdate [SKey "paths"; SKey path; SKey m] op d0 = Ok d ->
     d1 = d0).
Proof.
  intros Hitem. split; [ reflexivity | ]. cbv zeta.
  pose proof (remove_from_object env [SKey "paths"; SKey path] (SKey m) d ps Hitem)
    as Hremove.
  change ([SKey "paths"; SKey path] ++ [SKey m])
    with [SKey "paths"; SKey path; SKey m] in Hremove.
  assert (Hget1 : Lodash.get
                    (handleRemoveItemByPath env
                       [SKey "paths"; SKey path; SKey m] d)
                    [SKey "paths"; SKey path] = VObj (own_delete ps m)).
  { rewrite Hremove. now rewrite get_modify_at by now rewrite Hitem. }
  split; [ exact Hget1 | ]. split.
  - intros after Heffect ->. rewrite Hget1 in Heffect.
    unfold activeMethod_effect, availableMethods in Heffect.
    cbn [nullish bind] in Heffect.
    pose proof (available_iff (VObj (own_delete ps m)) m) as Havailable.
    rewrite prop_delete_same in Havailable.
    destruct (filter (fun m' => truthy (prop (VObj (own_delete ps m)) m'))
                httpMethods) as [ | first rest ] eqn:Hfilter;
      [ discriminate | ].
    assert (Hfirst : first <> m).
    { intros ->. destruct Havailable as [H _].
      destruct H as [_ H]; [ simpl; now rewrite String.eqb_refl | discriminate ]. }
    destruct activeMethod as [a | ].
    + destruct (negb (truthy (VStr a))
                || negb (existsb (String.eqb a) (first :: rest))) eqn:Ha.
      * injection Heffect as ->. contradiction.
      * injection Heffect as ->.
        apply orb_false_elim in Ha as [_ Ha]. apply negb_false_iff in Ha.
        apply Havailable in Ha as [_ Ha]. discriminate.
    + injection Heffect as ->. contradiction.
  - intros op d0 qs Hitem0 Habsent Hpath Hm Hupdate.
    destruct (update_under_object [SKey "paths"; SKey path] m op d0 d qs Hitem0)
      as [Hshape Hget]; auto.
    { simpl. now rewrite Hpath, Hm. }
    rewrite Hitem in Hget. injection Hget as ->.
    rewrite Hremove, Hshape, modify_at_modify_at.
    rewrite own_delete_set, own_delete_absent by assumption.
    now apply modify_at_put_back.
Qed.

End MethodTabs.

(** * The examples of a media type *)

Section Examples.
Import JS App Operation.
Local Open Scope list_scope.

Lemma new_example_key_not_numeral (now : N) :
  array_index (new_example_key now) = None.
Proof.
  unfold array_index, canonical_N, new_example_key.
  assert (H : NilEmpty.uint_of_string
                ("new_example" ++ "_" ++ key_of_N (now mod 1000))%string = None).
  { simpl.
    repeat match goal with
           | |- context [NilEmpty.uint_of_string ?s] =>
               destruct (NilEmpty.uint_of_string s); simpl
           end; reflexivity. }
  now rewrite H.
Qed.

(** X25: [handleAddExample] leaves the examples a mapping.  The media type
    at [contentPath] is a plain object whose [examples] are falsy or a plain
    object [es]: after the call is performed, [examples] is the mapping [es]
    (the empty one when they were falsy) with the new example set under its
    key. *)
Theorem X25_added_example_lands_in_a_mapping
  (env : Env) (now : N) (contentPath : Path) (d r : value)
  (ps : list (string * value)) :
  Lodash.get d contentPath = VObj ps ->
  forallb (fun s => negb (Lodash.unsafe_key (toKey s))) contentPath = true ->
  (truthy (prop (VObj ps) "examples") = false
   \/ exists es, prop (VObj ps) "examples" = VObj es) ->
  perform env (handleAddExample now (VObj ps) contentPath) d = Some (Ok r) ->
  Lodash.get r (contentPath ++ [SKey "examples"])
  = VObj (own_set
            match prop (VObj ps) "examples" with
            | VObj es => es
            | _ => []
            end
            (new_example_key now) new_example).
Proof.
  intros Hcontent Hsafe Hexamples Hperform. unfold handleAddExample in Hperform.
  destruct Hexamples as [Hfalsy | [es Hes]].
  - rewrite Hfalsy in Hperform. simpl in Hperform. injection Hperform as Hupdate.
    assert (Hkeys : forallb (fun s => negb (Lodash.unsafe_key (toKey s)))
                      (contentPath ++ [SKey "examples"]) = true)
      by (rewrite forallb_app, Hsafe; reflexivity).
    destruct (update_under_object contentPath "examples" _ d r ps Hcontent
                Hkeys Hupdate) as [_ Hget].
    rewrite get_snoc by now rewrite Hget.
    rewrite Hget. cbn [toKey]. rewrite prop_set_same.
    assert (Hnone : match prop (VObj ps) "examples" with
                    | VObj es => es
                    | _ => []
                    end = []).
    { destruct (prop (VObj ps) "examples"); auto; discriminate. }
    rewrite Hnone. unfold own_set, has_own. simpl own_get. cbv iota.
    now rewrite new_example_key_not_numeral.
  - rewrite Hes in Hperform |- *. simpl in Hperform.
    assert (Hcollection : Lodash.get d (contentPath ++ [SKey "examples"]) = VObj es).
    { rewrite get_snoc by now rewrite Hcontent. now rewrite Hcontent. }
    rewrite (add_to_object _ _ _ _ _ es Hcollection) in Hperform
      by (apply stores_other; unfold new_example_key; simpl; discriminate).
    injection Hperform as <-.
    now rewrite get_modify_at by now rewrite Hcollection.
Qed.

(** X26: [handleConvertToMultiple] keeps the example.  The media type is a
    plain object with an [example]; after the call and [handleSpecUpdate],
    [example] reads [undefined] at [contentPath], [examples] is the mapping
    with the one key [default_example], whose [value] is the former example -
    examples the media type had besides are gone - and every other key reads
    what the media type had. *)
Theorem X26_convert_keeps_the_example
  (contentPath : Path) (d : value) (ps : list (string * value)) :
  is_object d = true ->
  contentPath <> [] ->
  forallb (fun s => negb (Lodash.unsafe_key (toKey s))) contentPath = true ->
  is_undefined (prop (VObj ps) "example") = false ->
  exists newContent,
    handleConvertToMultiple (VObj ps) contentPath
    = Some (onUpdate contentPath newContent) /\
    (forall r,
     handleSpecUpdate contentPath newContent d = Ok r ->
     Lodash.get r (contentPath ++ [SKey "example"]) = VUndef /\
     Lodash.get r (contentPath ++ [SKey "examples"])
     = VObj [("default_example",
              VObj [("summary", VStr "Default example");
                    ("value", prop (VObj ps) "example")])] /\
     (forall k, k <> "example" -> k <> "examples" ->
                Lodash.get r (contentPath ++ [SKey k]) = prop (VObj ps) k)).
Proof.
  intros Hd Hne Hsafe Hexample. unfold handleConvertToMultiple.
  rewrite Hexample. eexists. split; [ reflexivity | ]. intros r Hupdate.
  unfold handleSpecUpdate in Hupdate.
  rewrite (is_object_truthy _ Hd), cloneDeep_id in Hupdate. simpl negb in Hupdate.
  cbv iota in Hupdate. unfold Lodash.set in Hupdate. rewrite Hd in Hupdate.
  assert (Hkeys : map toKey contentPath <> [])
    by (destruct contentPath; [ contradiction | discriminate ]).
  destruct (get_in_set_in _ _ _ _ Hd Hkeys (safe_keys_map _ Hsafe) Hupdate)
    as [Hget _].
  assert (Hcontent : Lodash.get r contentPath
                     = VObj (own_set (own_delete ps "example") "examples"
                               (VObj [("default_example",
                                       VObj [("summary", VStr "Default example");
                                             ("value", prop (VObj ps) "example")])]))).
  { unfold Lodash.get. destruct contentPath; [ contradiction | exact Hget ]. }
  repeat split; intros; rewrite get_snoc by (now rewrite Hcontent);
    rewrite Hcontent; cbn [toKey]; now read_props.
Qed.

End Examples.

(** * The values of an enumeration *)

Section EnumEditing.
Import JS App PathItem.
Local Open Scope list_scope.

Lemma same_primitive_string (v : string) (x : value) :
  same_primitive (VStr v) x = true <-> x = VStr v.
Proof.
  destruct x; simpl; split; try discriminate.
  - intros H. apply String.eqb_eq in H. now subst.
  - intros [= ->]. apply String.eqb_refl.
Qed.

Lemma includes_string (v : string) (xs : list value) :
  existsb (same_primitive (VStr v)) xs = true <-> In (VStr v) xs.
Proof.
  rewrite existsb_exists. split.
  - intros (x & Hin & Hx). apply same_primitive_string in Hx. now subst.
  - intros Hin. exists (VStr v). split; auto. now apply same_primitive_string.
Qed.

(** X27: [handleAddEnum] keeps the values of an enumeration distinct.  For a
    text that is not blank and a schema whose [enum] is an array [xs], or
    is falsy with [xs] empty: when the text is one of [xs] there is no call;
    otherwise the array passed to [onUpdate] is [xs] followed by the text,
    and it has no value twice when [xs] has none. *)
Theorem X27_enum_values_stay_distinct
  (newEnumValue : string) (schema : value) (path : Path) (xs : list value) :
  blank newEnumValue = Ok false ->
  currentEnums schema = VArr xs ->
  (In (VStr newEnumValue) xs /\
   handleAddEnum newEnumValue schema path = Ok None)
  \/
  (~ In (VStr newEnumValue) xs /\
   handleAddEnum newEnumValue schema path
   = Ok (Some (onUpdate (path ++ [SKey "enum"])
                 (VArr (xs ++ [VStr newEnumValue])))) /\
   (NoDup xs -> NoDup (xs ++ [VStr newEnumValue]))).
Proof.
  intros Hblank Henum. unfold handleAddEnum.
  rewrite Hblank, Henum. cbn [bind].
  destruct (existsb (same_primitive (VStr newEnumValue)) xs) eqn:Hin.
  - left. split; auto. now apply includes_string.
  - right. assert (Hnotin : ~ In (VStr newEnumValue) xs).
    { intros H. apply includes_string in H. now rewrite H in Hin. }
    repeat split; auto. intros Hnodup.
    apply NoDup_app; auto.
    + constructor; [ intros [] | constructor ].
    + intros x Hx [<- | []]. contradiction.
Qed.





(** X29: [Remove Enum] undoes the choice [enum].  For a schema that is a
    plain object of type [string], [number], [integer] or [boolean] without
    the key [enum], [handleTypeChange('enum')] followed by
    [handleRemoveEnumConstraint] passes the schema itself to [onUpdate]. *)
Theorem X29_remove_enum_undoes_the_choice
  (ps : list (string * value)) (path : Path) :
  includes ["string"; "number"; "integer"; "boolean"] (prop (VObj ps) "type")
  = true ->
  own_get ps "enum" = None ->
  exists withEnum,
    handleTypeChange "enum" (VObj ps) path = Ok (onUpdate path withEnum) /\
    truthy (prop withEnum "enum") = true /\
    handleRemoveEnumConstraint withEnum path = onUpdate path (VObj ps).
Proof.
  intros Htype Habsent. unfold handleTypeChange. rewrite cloneDeep_id.
  change (String.eqb "enum" "enum") with true. cbv iota. rewrite Htype.
  assert (Htruthy : truthy (prop (VObj ps) "type") = true).
  { destruct (prop (VObj ps) "type") as [ | | b | n | s | ys | qs ];
      try discriminate. now destruct s. }
  rewrite Htruthy. cbn [negb orb bind]. rewrite assign_object. cbn [bind].
  assert (Hnone : prop (VObj ps) "enum" = VUndef) by (simpl; now rewrite Habsent).
  rewrite Hnone. cbn [truthy].
  match goal with
  | |- context [if ?c then assign _ _ _ else _] => destruct c
  end; rewrite ?assign_object; cbn [bind];
    (eexists; split; [ reflexivity | ]); read_props;
    (split; [ reflexivity | ]);
    unfold handleRemoveEnumConstraint;
    rewrite cloneDeep_id, delete_key_object, ?own_delete_set;
    now rewrite own_delete_absent.
Qed.

End EnumEditing.

(** * The theorems of the editor on the documents of the examples *)

Section EditorExamples.
Local Open Scope list_scope.

(** X15 on the petstore document: the schema [Pet] is replaced through the
    reference to it. *)
Lemma X15_edit_through_reference_witness :
  exists r,
    App.handleSpecUpdate (Utils.schemaPathFromRef "#/components/schemas/Pet")
      (JS.VObj [("type", JS.VStr "string")]) Demo.petstore = Ok r /\
    Utils.resolveRef r "#/components/schemas/Pet"
    = JS.VObj [("type", JS.VStr "string")].
Proof.
  eexists. split; [ reflexivity | ].
  apply (X15_edit_through_reference "#/components/schemas/Pet"
           (JS.VObj [("type", JS.VStr "string")]) Demo.petstore);
    reflexivity.
Defined.

(** X16 on a schema that has [newParameter] and [newParameter1] already. *)
Lemma X16_addParameter_chooses_first_free_key_witness :
  exists j,
    PathItem.addParameter 3 PathItem.primitive
      (JS.VObj [("properties",
                 JS.VObj [("newParameter1", JS.VObj []);
                          ("newParameter", JS.VObj [])])])
      Demo.Pet_path
    = Some (App.onAddItem (Demo.Pet_path ++ [JS.SKey "properties"])
              (JS.VObj [(PathItem.candidate "newParameter" j,
                         PathItem.newItem PathItem.primitive)])).
Proof.
  destruct (X16_addParameter_chooses_first_free_key PathItem.primitive
              (JS.VObj [("properties",
                         JS.VObj [("newParameter1", JS.VObj []);
                                  ("newParameter", JS.VObj [])])])
              Demo.Pet_path 3) as (j & _ & Hcall & _).
  - simpl. lia.
  - exists j. exact Hcall.
Defined.

(** X17 on the petstore document: a parameter is added to the schema
    [Pet]. *)
Lemma X17_addParameter_keeps_the_properties_witness :
  exists newKey r,
    App.handleAddItem (Demo.Pet_path ++ [JS.SKey "properties"])
      (JS.VObj [(newKey, PathItem.newItem PathItem.primitive)]) Demo.petstore
    = Ok r /\
    JS.prop (Lodash.get r (Demo.Pet_path ++ [JS.SKey "properties"])) "id"
    = JS.VObj [("type", JS.VStr "integer")].
Proof.
  let ps :=
    match eval vm_compute in
      (Lodash.get Demo.petstore (Demo.Pet_path ++ [JS.SKey "properties"])) with
    | JS.VObj ?l => l
    end in
  destruct (X17_addParameter_keeps_the_properties PathItem.primitive
              Demo.Pet_path Demo.petstore
              (Lodash.get Demo.petstore Demo.Pet_path) ps
              eq_refl eq_refl eq_refl)
    as (newKey & r & _ & Hadd & _ & Hget).
  exists newKey, r. split; [ exact Hadd | ]. rewrite Hget. reflexivity.
Defined.

(** X18 on the schema [Pet] of the petstore document and the choice
    [integer (int32)]. *)
Lemma X18_type_menu_shows_the_choice_witness :
  exists newSchema,
    PathItem.handleTypeChange "integer:int32"
      (Lodash.get Demo.petstore Demo.Pet_path) Demo.Pet_path
    = Ok (App.onUpdate Demo.Pet_path newSchema) /\
    PathItem.getCurrentTypeValue newSchema = Ok (JS.VStr "integer:int32").
Proof.
  let ps :=
    match eval vm_compute in (Lodash.get Demo.petstore Demo.Pet_path) with
    | JS.VObj ?l => l
    end in
  apply (X18_type_menu_shows_the_choice "integer:int32" ps Demo.Pet_path).
  - simpl. tauto.
  - discriminate.
Defined.

(** X19 on the schema [Pet] of the petstore document: the choice [array]
    keeps the list of the required properties. *)
Lemma X19_type_change_keeps_other_keys_witness :
  exists newSchema,
    PathItem.handleTypeChange "array"
      (Lodash.get Demo.petstore Demo.Pet_path) Demo.Pet_path
    = Ok (App.onUpdate Demo.Pet_path newSchema) /\
    JS.prop newSchema "required" = JS.VArr [JS.VStr "id"].
Proof.
  let ps :=
    match eval vm_compute in (Lodash.get Demo.petstore Demo.Pet_path) with
    | JS.VObj ?l => l
    end in
  destruct (X19_type_change_keeps_other_keys "array" ps Demo.Pet_path)
    as (ps' & Hcall & Hframe).
  exists (JS.VObj ps'). split; [ exact Hcall | ].
  rewrite Hframe; [ reflexivity | discriminate | discriminate | ].
  right. repeat split; discriminate.
Defined.

(** X20 on the schema [Pet] of the petstore document. *)
Lemma X20_nullable_checkbox_witness :
  exists newSchema,
    PathItem.handleNullableChange true
      (Lodash.get Demo.petstore Demo.Pet_path) Demo.Pet_path
    = Ok (App.onUpdate Demo.Pet_path newSchema) /\
    PathItem.handleNullableChange false newSchema Demo.Pet_path
    = Ok (App.onUpdate Demo.Pet_path (Lodash.get Demo.petstore Demo.Pet_path)).
Proof.
  let ps :=
    match eval vm_compute in (Lodash.get Demo.petstore Demo.Pet_path) with
    | JS.VObj ?l => l
    end in
  destruct (X20_nullable_checkbox true ps Demo.Pet_path)
    as (ps' & Hcall & _ & _ & Hback).
  exists (JS.VObj ps'). split; [ exact Hcall | ]. now apply Hback.
Defined.

(** X21 on the schema [Colour], a string, of the document [api]. *)
Lemma X21_object_type_then_addParameter_witness :
  exists schema1 d1 d2,
    PathItem.handleTypeChange "object" (JS.VObj [("type", JS.VStr "string")])
      [JS.SKey "components"; JS.SKey "schemas"; JS.SKey "Colour"]
    = Ok (App.onUpdate
            [JS.SKey "components"; JS.SKey "schemas"; JS.SKey "Colour"]
            schema1) /\
    App.handleSpecUpdate
      [JS.SKey "components"; JS.SKey "schemas"; JS.SKey "Colour"] schema1
      Demo.api = Ok d1 /\
    App.handleAddItem
      [JS.SKey "components"; JS.SKey "schemas"; JS.SKey "Colour";
       JS.SKey "properties"]
      (JS.VObj [("newObject", PathItem.newItem PathItem.object)]) d1 = Ok d2 /\
    Lodash.get d2
      [JS.SKey "components"; JS.SKey "schemas"; JS.SKey "Colour";
       JS.SKey "properties"]
    = JS.VObj [("newObject", PathItem.newItem PathItem.object)].
Proof.
  let qs :=
    match eval vm_compute in
      (Lodash.get Demo.api [JS.SKey "components"; JS.SKey "schemas"]) with
    | JS.VObj ?l => l
    end in
  destruct (X21_object_type_then_addParameter PathItem.object
              [JS.SKey "components"; JS.SKey "schemas"] "Colour" Demo.api
              qs [("type", JS.VStr "string")]
              eq_refl eq_refl eq_refl eq_refl)
    as (schema1 & Hcall & Hrest).
  injection Hcall as <-.
  destruct (Hrest _ eq_refl) as (_ & _ & d2 & Hadd & Hget).
  eexists. eexists. exists d2.
  split; [ reflexivity | ]. split; [ reflexivity | ].
  split; [ exact Hadd | exact Hget ].
Defined.

(** X22 on an item with [post] and [get] when the tab is [delete]. *)
Lemma X22_active_tab_is_an_enabled_method_witness :
  PathItem.activeMethod_effect
    (JS.VObj [("post", JS.VObj []); ("get", JS.VObj [])]) (Some "delete")
  = Ok (Some "get").
Proof.
  destruct (X22_active_tab_is_an_enabled_method
              (JS.VObj [("post", JS.VObj []); ("get", JS.VObj [])])
              (Some "delete") eq_refl) as (after & Heffect & _).
  rewrite Heffect. vm_compute in Heffect. now injection Heffect as <-.
Defined.

(** X23 on the document [api]: [post] is enabled for [/pets]. *)
Lemma X23_enabled_method_gets_the_tab_witness :
  exists d1,
    App.handleSpecUpdate [JS.SKey "paths"; JS.SKey "/pets"; JS.SKey "post"]
      (PathItem.newOp "POST") Demo.api = Ok d1 /\
    PathItem.activeMethod_effect
      (Lodash.get d1 [JS.SKey "paths"; JS.SKey "/pets"]) (Some "post")
    = Ok (Some "post").
Proof.
  let ps :=
    match eval vm_compute in
      (Lodash.get Demo.api [JS.SKey "paths"; JS.SKey "/pets"]) with
    | JS.VObj ?l => l
    end in
  destruct (X23_enabled_method_gets_the_tab "/pets" "post" (Some "get")
              Demo.api ps eq_refl eq_refl)
    as (METHOD & Hupper & _ & Hrest).
  - simpl. tauto.
  - reflexivity.
  - injection Hupper as <-. eexists. split; [ reflexivity | ].
    now destruct (Hrest _ eq_refl) as [_ Heffect].
Defined.

(** X24 on the document [api]: [get], the only method of [/pets], is
    disabled. *)
Lemma X24_disabled_method_loses_the_tab_witness :
  Lodash.get
    (App.handleRemoveItemByPath Demo.env
       [JS.SKey "paths"; JS.SKey "/pets"; JS.SKey "get"] Demo.api)
    [JS.SKey "paths"; JS.SKey "/pets"] = JS.VObj [].
Proof.
  let ps :=
    match eval vm_compute in
      (Lodash.get Demo.api [JS.SKey "paths"; JS.SKey "/pets"]) with
    | JS.VObj ?l => l
    end in
  destruct (X24_disabled_method_loses_the_tab Demo.env "/pets" "get"
              (Some "get") Demo.api ps eq_refl) as (_ & Hget & _).
  exact Hget.
Defined.

(** X25 on the document [api], whose media type has no examples. *)
Lemma X25_added_example_lands_in_a_mapping_witness :
  exists r,
    App.perform Demo.env
      (Operation.handleAddExample 1234567
         (Lodash.get Demo.api Demo.media_type_path) Demo.media_type_path)
      Demo.api = Some (Ok r) /\
    Lodash.get r (Demo.media_type_path ++ [JS.SKey "examples"])
    = JS.VObj [("new_example_567", Operation.new_example)].
Proof.
  eexists. split; [ reflexivity | ].
  let ps :=
    match eval vm_compute in (Lodash.get Demo.api Demo.media_type_path) with
    | JS.VObj ?l => l
    end in
  apply (X25_added_example_lands_in_a_mapping Demo.env 1234567
           Demo.media_type_path Demo.api _ ps); try reflexivity.
  left. reflexivity.
Defined.

(** X26 on the document [api], whose media type has the example [5]. *)
Lemma X26_convert_keeps_the_example_witness :
  exists newContent r,
    Operation.handleConvertToMultiple
      (Lodash.get Demo.api Demo.media_type_path) Demo.media_type_path
    = Some (App.onUpdate Demo.media_type_path newContent) /\
    App.handleSpecUpdate Demo.media_type_path newContent Demo.api = Ok r /\
    Lodash.get r (Demo.media_type_path ++ [JS.SKey "example"]) = JS.VUndef.
Proof.
  let ps :=
    match eval vm_compute in (Lodash.get Demo.api Demo.media_type_path) with
    | JS.VObj ?l => l
    end in
  destruct (X26_convert_keeps_the_example Demo.media_type_path Demo.api ps)
    as (newContent & Hcall & Hrest); try reflexivity; try discriminate.
  injection Hcall as <-.
  eexists. eexists. split; [ reflexivity | ]. split; [ reflexivity | ].
  now destruct (Hrest _ eq_refl) as [Hexample _].
Defined.

(** X27 on an enumeration with [green]: [red] is added. *)
Lemma X27_enum_values_stay_distinct_witness :
  PathItem.handleAddEnum "red"
    (JS.VObj [("type", JS.VStr "string"); ("enum", JS.VArr [JS.VStr "green"])])
    Demo.Pet_path
  = Ok (Some (App.onUpdate (Demo.Pet_path ++ [JS.SKey "enum"])
                (JS.VArr [JS.VStr "green"; JS.VStr "red"]))).
Proof.
  destruct (X27_enum_values_stay_distinct "red"
              (JS.VObj [("type", JS.VStr "string");
                        ("enum", JS.VArr [JS.VStr "green"])])
              Demo.Pet_path [JS.VStr "green"] eq_refl eq_refl)
    as [[Hin _] | (_ & Hcall & _)]; [ | exact Hcall ].
  destruct Hin as [H | []]. discriminate H.
Defined.


(** X29 on a schema of type [boolean]. *)
Lemma X29_remove_enum_undoes_the_choice_witness :
  exists withEnum,
    PathItem.handleTypeChange "enum" (JS.VObj [("type", JS.VStr "boolean")])
      Demo.Pet_path = Ok (App.onUpdate Demo.Pet_path withEnum) /\
    JS.prop withEnum "enum" = JS.VArr [JS.VBool true; JS.VBool false] /\
    PathItem.handleRemoveEnumConstraint withEnum Demo.Pet_path
    = App.onUpdate Demo.Pet_path (JS.VObj [("type", JS.VStr "boolean")]).
Proof.
  destruct (X29_remove_enum_undoes_the_choice [("type", JS.VStr "boolean")]
              Demo.Pet_path eq_refl eq_refl)
    as (withEnum & Hcall & _ & Hback).
  exists withEnum. split; [ exact Hcall | ]. split; [ | exact Hback ].
  injection Hcall as <-. reflexivity.
Defined.

End EditorExamples.

(** * [SchemaView]: the paths of the view address the document *)

Section ViewAddressing.
Import JS App PathItem.
Local Open Scope list_scope.

Lemma no_repeat_own_get (ps : list (string * value)) (k : string) (v : value) :
  no_repeat (map fst ps) = true -> In (k, v) ps -> own_get ps k = Some v.
Proof.
  induction ps as [ | [k' v'] ps IH ]; simpl; [ tauto | ].
  intros Hkeys [[= -> ->] | Hin].
  - now rewrite String.eqb_refl.
  - apply andb_prop in Hkeys as [Hfresh Hkeys].
    destruct (String.eqb_spec k' k) as [-> | Hne]; [ | auto ].
    apply negb_true_iff in Hfresh.
    assert (Hex : existsb (String.eqb k) (map fst ps) = true).
    { apply existsb_exists. exists k. split; [ | apply String.eqb_refl ].
      apply in_map_iff. now exists (k, v). }
    now rewrite Hex in Hfresh.
Qed.

Lemma indexed_in_range (xs : list value) : forall i k v,
  In (k, v) (indexed i xs) ->
  exists j, j < List.length xs /\ k = key_of_N (i + N.of_nat j)
            /\ nth j xs VUndef = v.
Proof.
  induction xs as [ | x xs IH ]; simpl; intros i k v; [ tauto | ].
  intros [[= <- <-] | Hin].
  - exists 0. split; [ lia | ]. split; [ f_equal; lia | reflexivity ].
  - destruct (IH _ _ _ Hin) as (j & Hlt & -> & Hj). exists (S j).
    split; [ lia | ]. split; [ f_equal; lia | exact Hj ].
Qed.

Lemma length_chars (s : string) : List.length (chars s) = String.length s.
Proof. induction s; simpl; auto. Qed.

Lemma nth_chars (s : string) : forall j,
  j < String.length s -> nth j (chars s) VUndef = char_at s j.
Proof.
  unfold char_at. induction s as [ | c s IH ]; simpl; intros j Hj; [ lia | ].
  destruct j as [ | j ]; [ reflexivity | ]. apply IH. lia.
Qed.

(** An entry of [Object.entries(o)] is what [o] reads under the key of the
    entry. *)
Lemma entries_prop (o : value) (k : string) (v : value) :
  distinct_keys o = true -> In (k, v) (entries o) -> prop o k = v.
Proof.
  destruct o as [ | | b | n | s | xs | ps ]; simpl entries;
    try (now intros _ []).
  - intros _ Hin. destruct (indexed_in_range _ _ _ _ Hin) as (j & Hlt & -> & Hj).
    rewrite length_chars in Hlt. rewrite nth_chars in Hj by exact Hlt.
    unfold prop. rewrite key_of_N_not_length, canonical_N_key.
    now rewrite N.add_0_l, Nat2N.id.
  - intros _ Hin. destruct (indexed_in_range _ _ _ _ Hin) as (j & _ & -> & Hj).
    rewrite prop_element. now rewrite N.add_0_l, Nat2N.id.
  - intros Hkeys Hin. simpl in Hkeys. apply andb_prop in Hkeys as [Hkeys _].
    simpl. now rewrite (no_repeat_own_get _ _ _ Hkeys Hin).
Qed.

Lemma distinct_keys_prop (o : value) (k : string) :
  distinct_keys o = true -> distinct_keys (prop o k) = true.
Proof.
  destruct o as [ | | b | n | s | xs | ps ]; simpl; auto.
  - intros _. destruct (String.eqb k "length"); auto.
    destruct (canonical_N k); auto. unfold char_at.
    now destruct (String.get (N.to_nat n) s).
  - intros Hxs. destruct (String.eqb k "length"); auto.
    destruct (canonical_N k) as [i | ]; auto.
    destruct (Nat.ltb_spec (N.to_nat i) (List.length xs)).
    + rewrite forallb_forall in Hxs. apply Hxs. now apply nth_In.
    + now rewrite nth_overflow.
  - intros Hps. apply andb_prop in Hps as [_ Hps].
    destruct (own_get ps k) as [v | ] eqn:Hget; auto.
    destruct (own_get_In _ _ _ Hget) as (k' & Hin & _).
    rewrite forallb_forall in Hps. apply (Hps (k', v) Hin).
Qed.

Lemma distinct_keys_get_in (keys : list string) : forall o,
  distinct_keys o = true -> distinct_keys (Lodash.get_in o keys) = true.
Proof.
  induction keys as [ | k keys IH ]; simpl; auto. intros o Ho.
  destruct (nullish o); auto. apply IH. now apply distinct_keys_prop.
Qed.

Lemma distinct_keys_get (o : value) (path : Path) :
  distinct_keys o = true -> distinct_keys (Lodash.get o path) = true.
Proof.
  intros Ho. destruct path; [ reflexivity | ].
  unfold Lodash.get. now apply distinct_keys_get_in.
Qed.

(** A value that is not an object has no view with form controls. *)
Lemma SchemaView_scalar fuel spec schema path visitedRefs :
  is_object schema = false ->
  addressed spec (SchemaView fuel spec schema path visitedRefs) = true.
Proof. intros H. destruct fuel; simpl; [ | rewrite H ]; reflexivity. Qed.

(** A reference that resolves is read at the path the inner view gets. *)
Lemma resolveRef_at_path (spec : value) (ref : string) :
  truthy (Utils.resolveRef spec ref) = true ->
  Lodash.get spec (Utils.schemaPathFromRef ref) = Utils.resolveRef spec ref.
Proof.
  unfold Utils.resolveRef, Utils.schemaPathFromRef.
  destruct (negb (Utils.startsWith ref "#/")); [ discriminate | ].
  unfold Lodash.get_or.
  destruct (Lodash.get spec (Utils.ref_steps ref)); auto; discriminate.
Qed.

(** X30: the paths of the view address the document.  [SchemaView] is given
    the schema that the document holds at [path], in a document whose
    objects have distinct keys.  Then every node of the view with form
    controls - an object, an array, a primitive - has as its path a location
    where the document holds a schema without [$ref] of that kind; a
    reference that is followed resolves in the document; each parameter
    shown is a truthy property of the schema at the path of its object; and
    an array shows items exactly when the schema at its path has some. *)
Theorem X30_view_paths_address_the_document
  (spec : value) (fuel : nat) :
  distinct_keys spec = true ->
  forall schema path visitedRefs,
    Lodash.get spec path = schema ->
    addressed spec (SchemaView fuel spec schema path visitedRefs) = true.
Proof.
  intros Hspec. induction fuel as [ | fuel IH ];
    intros schema path visitedRefs Hget; [ reflexivity | ].
  cbn [SchemaView].
  destruct (is_object schema) eqn:Hobj; [ | reflexivity ]. cbn [negb].
  assert (Hpath : is_object (Lodash.get spec path) = true) by now rewrite Hget.
  assert (Hschema : distinct_keys schema = true)
    by (rewrite <- Hget; now apply distinct_keys_get).
  destruct (has_ref schema) eqn:Href.
  { destruct (prop schema "$ref") as [ | | b | n | ref | xs | ps ];
      try reflexivity.
    destruct (existsb (String.eqb ref) visitedRefs); [ reflexivity | ].
    destruct (truthy (Utils.resolveRef spec ref)) eqn:Hresolved;
      [ | reflexivity ].
    cbn [negb addressed]. rewrite Hresolved. cbn [andb].
    apply IH. now apply resolveRef_at_path. }
  assert (Hkind : forall k,
            match k with
            | an_object => type_is (type_of_schema schema) "object"
            | an_array => negb (type_is (type_of_schema schema) "object")
                          && type_is (type_of_schema schema) "array"
            | a_primitive => negb (type_is (type_of_schema schema) "object")
                             && negb (type_is (type_of_schema schema) "array")
            end = true ->
            kind_at spec path k = true).
  { intros k Hk. unfold kind_at. now rewrite Hget, Hobj, Href. }
  destruct (type_is (type_of_schema schema) "object") eqn:Hobject.
  - (* an object and its parameters *)
    set (properties := prop schema "properties").
    assert (Hparameters : forall shown,
              incl shown (entries properties) ->
              forallb (fun kv => truthy (snd kv)) shown = true ->
              forallb
                (fun kv =>
                   truthy (prop (prop (Lodash.get spec path) "properties")
                             (fst kv))
                   && addressed spec (snd kv))
                (map (fun kv =>
                        (fst kv,
                         SchemaView fuel spec (snd kv)
                           (path ++ [SKey "properties"; SKey (fst kv)])
                           visitedRefs))
                     shown) = true).
    { induction shown as [ | [k v] shown IHshown ]; intros Hincl Htruthy;
        [ reflexivity | ].
      cbn [map forallb fst snd] in *.
      apply andb_prop in Htruthy as [Hv Htruthy].
      rewrite IHshown; auto; [ | intros x Hx; apply Hincl; now right ].
      rewrite andb_true_r.
      assert (Hprop : prop properties k = v).
      { apply entries_prop; [ now apply distinct_keys_prop | apply Hincl; now left ]. }
      rewrite Hget. fold properties. rewrite Hprop, Hv. cbn [andb].
      destruct (is_object v) eqn:Hvobj;
        [ | now apply SchemaView_scalar ].
      apply IH.
      change (path ++ [SKey "properties"; SKey k])
        with (path ++ [SKey "properties"] ++ [SKey k]).
      rewrite app_assoc.
      assert (Hproperties : Lodash.get spec (path ++ [SKey "properties"])
                            = properties).
      { rewrite get_snoc by exact Hpath. now rewrite Hget. }
      rewrite get_snoc; rewrite Hproperties; auto.
      destruct (is_object properties) eqn:Hp; auto.
      apply (prop_of_scalar _ k) in Hp. now rewrite Hprop, Hvobj in Hp. }
    fold properties.
    assert (Hshown : forall shown,
              incl shown (entries properties) ->
              forallb (fun kv => truthy (snd kv)) shown = true ->
              addressed spec
                match shown with
                | [] => ObjectView path []
                | _ :: _ =>
                    if negb (includes_callable (prop schema "required"))
                    then RenderThrows includes_message
                    else ObjectView path
                           (map (fun kv =>
                                   (fst kv,
                                    SchemaView fuel spec (snd kv)
                                      (path ++ [SKey "properties"; SKey (fst kv)])
                                      visitedRefs))
                                shown)
                end = true).
    { intros shown Hincl Htruthy. destruct shown as [ | kv shown ].
      - cbn [addressed forallb]. rewrite (Hkind an_object) by reflexivity.
        reflexivity.
      - destruct (negb (includes_callable (prop schema "required")));
          [ reflexivity | ].
        cbn [addressed]. rewrite (Hkind an_object) by reflexivity.
        cbn [andb]. now apply Hparameters. }
    destruct (truthy properties).
    + apply Hshown.
      * intros x Hx. now apply filter_In in Hx.
      * apply forallb_forall. intros x Hx. now apply filter_In in Hx.
    + apply (Hshown []); [ intros x [] | reflexivity ].
  - destruct (type_is (type_of_schema schema) "array") eqn:Harray.
    + destruct (itemSchema_throws (prop schema "items")); [ reflexivity | ].
      destruct (truthy (prop schema "items")) eqn:Hitems.
      * cbn [addressed]. rewrite (Hkind an_array) by reflexivity.
        rewrite Hget, Hitems. cbn [andb]. apply IH.
        rewrite get_snoc by exact Hpath. now rewrite Hget.
      * cbn [addressed]. rewrite (Hkind an_array) by reflexivity.
        now rewrite Hget, Hitems.
    + destruct (EnumEditor_throws schema); [ reflexivity | ].
      cbn [addressed]. apply (Hkind a_primitive). reflexivity.
Qed.

End ViewAddressing.

(** X30 on the petstore document: the view of the schema [Pet], which has a
    property that refers to [Pet] itself. *)
Lemma X30_view_paths_address_the_document_witness :
  PathItem.addressed Demo.petstore
    (PathItem.SchemaView 10 Demo.petstore
       (Lodash.get Demo.petstore Demo.Pet_path) Demo.Pet_path []) = true.
Proof.
  apply (X30_view_paths_address_the_document Demo.petstore 10);
    reflexivity.
Defined.
